(** * git-clone-cache: the populator and the discoverer

    A shallow embedding of [populate_git_clone_cache.py] and
    [find_and_populate_git_clone_cache.py].

    Conventions of the embedding:
    - a Python [str] is a Rocq [string] holding its UTF-8 bytes, and the
      order of [str] is the byte-wise lexicographic order; bytes that
      are not UTF-8 stand for the lone surrogates Python decodes them
      to on the way in ([sys.argv]), which [url.encode()] refuses;
    - a [pathlib.Path] is the string it prints as;
    - [VERBOSE] is [False] in both scripts, so every [verbose(...)] call
      is a no-op and is left out of the embedded functions;
    - the external world (file system, [git], [shutil.which], the
      environment) is a record the functions thread through;
    - a write to [sys.stdout], [sys.stderr] or the open log is taken to
      succeed. *)

From Stdlib Require Import ZArith List String Ascii Bool Lia DecimalString.
From Stdlib Require Import Permutation Sorted.
Import ListNotations.

Set Warnings "-register-all".

Local Open Scope string_scope.
Local Open Scope list_scope.

(* ================================================================== *)
(** ** SHA-256 ([hashlib.sha256]) and [hexdigest] *)
(* ================================================================== *)

Module Sha256.

Local Open Scope Z_scope.

Definition mask32 : Z := 0xFFFFFFFF.

Definition add32 (x y : Z) : Z := Z.land (x + y) mask32.

Definition rotr (n x : Z) : Z :=
  Z.lor (Z.shiftr x n) (Z.land (Z.shiftl x (32 - n)) mask32).

Definition not32 (x : Z) : Z := Z.lxor x mask32.

Definition Ch (x y z : Z) : Z :=
  Z.lxor (Z.land x y) (Z.land (not32 x) z).

Definition Maj (x y z : Z) : Z :=
  Z.lxor (Z.lxor (Z.land x y) (Z.land x z)) (Z.land y z).

Definition Sigma0 (x : Z) : Z :=
  Z.lxor (Z.lxor (rotr 2 x) (rotr 13 x)) (rotr 22 x).

Definition Sigma1 (x : Z) : Z :=
  Z.lxor (Z.lxor (rotr 6 x) (rotr 11 x)) (rotr 25 x).

Definition sigma0 (x : Z) : Z :=
  Z.lxor (Z.lxor (rotr 7 x) (rotr 18 x)) (Z.shiftr x 3).

Definition sigma1 (x : Z) : Z :=
  Z.lxor (Z.lxor (rotr 17 x) (rotr 19 x)) (Z.shiftr x 10).

(** The primes up to 311: the first 64. *)
Definition is_prime (k : Z) : bool :=
  forallb (fun d => negb (k mod d =? 0)) (map Z.of_nat (seq 2 (Z.to_nat k - 2))).

Definition primes : list Z := filter is_prime (map Z.of_nat (seq 2 310)).

(** The largest [r] below [2 ^ bits] with [r ^ k <= n], found bit by bit. *)
Fixpoint iroot (bits : nat) (k n r : Z) : Z :=
  match bits with
  | O => r
  | S b =>
      let c := r + 2 ^ Z.of_nat b in
      if c ^ k <=? n then iroot b k n c else iroot b k n r
  end.

(** The first 32 bits of the fractional part of the [k]-th root of [p]. *)
Definition root_fraction (k p : Z) : Z := iroot 40 k (p * 2 ^ (32 * k)) 0 mod 2 ^ 32.

(** Round constants: from the cube roots of the first 64 primes. *)
Definition K : list Z := Eval vm_compute in map (root_fraction 3) primes.

(** Initial hash value: from the square roots of the first 8 primes. *)
Definition H0 : list Z := Eval vm_compute in map (root_fraction 2) (firstn 8 primes).

(** Big-endian bytes of a number: [n] bytes, most significant first. *)
Fixpoint be_bytes (n : nat) (x : Z) : list Z :=
  match n with
  | O => []
  | S n' => (x / 2 ^ (8 * Z.of_nat n')) mod 256 :: be_bytes n' x
  end.

(** The message, a 1 bit, zeros up to 56 mod 64, the bit length on 8 bytes. *)
Definition pad (msg : list Z) : list Z :=
  let len := Z.of_nat (List.length msg) in
  msg ++ [0x80] ++ repeat 0 (Z.to_nat ((55 - len) mod 64)) ++ be_bytes 8 (8 * len).

Fixpoint chunks (n : nat) (size : nat) (l : list Z) : list (list Z) :=
  match n with
  | O => []
  | S n' => firstn size l :: chunks n' size (skipn size l)
  end.

Definition be_word (bs : list Z) : Z :=
  fold_left (fun acc b => acc * 256 + b) bs 0.

Definition block_words (block : list Z) : list Z :=
  map be_word (chunks 16 4 block).

(** Message schedule: 16 words of the block, extended to 64. *)
Fixpoint extend (n : nat) (w : list Z) : list Z :=
  match n with
  | O => w
  | S n' =>
      let t := List.length w in
      let at_ (back : nat) := nth (t - back) w 0 in
      extend n' (w ++ [add32 (add32 (add32 (sigma1 (at_ 2%nat)) (at_ 7%nat))
                                    (sigma0 (at_ 15%nat))) (at_ 16%nat)])
  end.

Record regs := mkRegs { ra : Z; rb : Z; rc : Z; rd : Z; re : Z; rf : Z; rg : Z; rh : Z }.

Definition round (s : regs) (kw : Z * Z) : regs :=
  let '(k, w) := kw in
  let t1 := add32 (add32 (add32 (add32 (rh s) (Sigma1 (re s))) (Ch (re s) (rf s) (rg s))) k) w in
  let t2 := add32 (Sigma0 (ra s)) (Maj (ra s) (rb s) (rc s)) in
  mkRegs (add32 t1 t2) (ra s) (rb s) (rc s) (add32 (rd s) t1) (re s) (rf s) (rg s).

Definition regs_of (h : list Z) : regs :=
  mkRegs (nth 0 h 0) (nth 1 h 0) (nth 2 h 0) (nth 3 h 0)
         (nth 4 h 0) (nth 5 h 0) (nth 6 h 0) (nth 7 h 0).

Definition list_of (s : regs) : list Z :=
  [ra s; rb s; rc s; rd s; re s; rf s; rg s; rh s].

Definition compress (h : list Z) (block : list Z) : list Z :=
  let w := extend 48 (block_words block) in
  let s := fold_left round (combine K w) (regs_of h) in
  map (fun p => add32 (fst p) (snd p)) (combine h (list_of s)).

(** The 32 bytes of the digest. *)
Definition digest (msg : list Z) : list Z :=
  let p := pad msg in
  let h := fold_left compress (chunks (List.length p / 64) 64 p) H0 in
  flat_map (be_bytes 4) h.

Definition hex_digit (d : Z) : ascii :=
  nth (Z.to_nat d)
      ["0"; "1"; "2"; "3"; "4"; "5"; "6"; "7"; "8"; "9"; "a"; "b"; "c"; "d"; "e"; "f"]%char
      "0"%char.

(** [hexdigest]: two lower-case hexadecimal digits per byte. *)
Fixpoint hex (bs : list Z) : string :=
  match bs with
  | [] => EmptyString
  | b :: bs' => String (hex_digit (b / 16)) (String (hex_digit (b mod 16)) (hex bs'))
  end.

(** The bytes a string holds. *)
Definition bytes (s : string) : list Z :=
  map (fun c => Z.of_N (N_of_ascii c)) (list_ascii_of_string s).

Definition between (lo x hi : Z) : bool := (lo <=? x) && (x <=? hi).

(** A continuation byte. *)
Definition cont (b : Z) : bool := between 0x80 b 0xBF.

(** Well-formed UTF-8: no overlong form, no surrogate, nothing above
    U+10FFFF. *)
Fixpoint utf8 (l : list Z) : bool :=
  match l with
  | [] => true
  | a :: l1 =>
      if a <? 0x80 then utf8 l1
      else
        match l1 with
        | [] => false
        | b :: l2 =>
            if between 0xC2 a 0xDF then cont b && utf8 l2
            else
              match l2 with
              | [] => false
              | c :: l3 =>
                  if between 0xE0 a 0xEF then
                    (if a =? 0xE0 then between 0xA0 b 0xBF
                     else if a =? 0xED then between 0x80 b 0x9F
                     else cont b) && cont c && utf8 l3
                  else
                    match l3 with
                    | [] => false
                    | d :: l4 =>
                        if between 0xF0 a 0xF4 then
                          (if a =? 0xF0 then between 0x90 b 0xBF
                           else if a =? 0xF4 then between 0x80 b 0x8F
                           else cont b) && cont c && cont d && utf8 l4
                        else false
                    end
              end
        end
  end.

(** [str.encode()]: the bytes of the string, [None] where Python raises
    [UnicodeEncodeError] (a [str] with a lone surrogate). *)
Definition encode (s : string) : option (list Z) :=
  if utf8 (bytes s) then Some (bytes s) else None.

(** [hashlib.sha256(b).hexdigest()] for the bytes [b] the string holds. *)
Definition sha256_hexdigest (s : string) : string := hex (digest (bytes s)).

(** The value of a hexadecimal digit, and what a byte is. *)
Definition digit_value (c : ascii) : Z :=
  let n := Z.of_N (N_of_ascii c) in
  if n <? 58 then n - 48 else n - 87.

Definition is_byte (b : Z) : Prop := 0 <= b < 256.

End Sha256.

(* ================================================================== *)
(** ** The populator: [populate_git_clone_cache.py] *)
(* ================================================================== *)

Module Populate.

(** *** Paths (pathlib, POSIX flavour) *)

Definition slash : ascii := "/"%char.

Fixpoint split_slash (s : string) : list string :=
  match s with
  | EmptyString => [EmptyString]
  | String c s' =>
      if Ascii.eqb c slash then EmptyString :: split_slash s'
      else match split_slash s' with
           | seg :: rest => String c seg :: rest
           | [] => [String c EmptyString]
           end
  end.

Definition starts_with_slash (s : string) : bool :=
  match s with String c _ => Ascii.eqb c slash | EmptyString => false end.

Fixpoint ends_with_slash (s : string) : bool :=
  match s with
  | EmptyString => false
  | String c EmptyString => Ascii.eqb c slash
  | String _ s' => ends_with_slash s'
  end.

(** The segments pathlib keeps: empty ones and ["."] are dropped. *)
Definition path_parts (s : string) : list string :=
  filter (fun seg => negb (String.eqb seg "") && negb (String.eqb seg ".")) (split_slash s).

(** Exactly two leading slashes are kept, any other number is one. *)
Definition path_root (s : string) : string :=
  match s with
  | String a (String b (String c _)) =>
      if Ascii.eqb a slash
      then if Ascii.eqb b slash then if Ascii.eqb c slash then "/" else "//" else "/"
      else ""
  | String a (String b EmptyString) =>
      if Ascii.eqb a slash then if Ascii.eqb b slash then "//" else "/" else ""
  | String a EmptyString => if Ascii.eqb a slash then "/" else ""
  | EmptyString => ""
  end.

(** [str(Path(s))] *)
Definition Path (s : string) : string :=
  match path_root s, path_parts s with
  | EmptyString, [] => "."
  | r, ps => (r ++ String.concat "/" ps)%string
  end.

(** [p / s] and [p.joinpath(s)] for a path [p] *)
Definition joinpath (p s : string) : string :=
  if starts_with_slash s then Path s
  else if ends_with_slash p then Path (p ++ s)
  else Path (p ++ "/" ++ s).

(** [p.name]: the last segment, empty for a bare root. *)
Definition path_name (p : string) : string := last (path_parts p) "".

(** *** The index as Python sees it *)

(** A value of the loaded index: a [str], or anything else JSON can
    hold (number, boolean, null, array, object).  The program compares
    a value with a [str] and hands it back to [json.dump]; it never
    looks inside one that is not a [str]. *)
Inductive pyval :=
| PStr (s : string)
| POther (tag : nat).

(** A [dict] with [str] keys: insertion-ordered, keys unique. *)
Definition dict := list (string * pyval).

Fixpoint dict_get (d : dict) (k : string) : option pyval :=
  match d with
  | [] => None
  | (k', v) :: d' => if String.eqb k' k then Some v else dict_get d' k
  end.

(** [d[k] = v]: the value is replaced in place, a new key goes last. *)
Fixpoint dict_set (d : dict) (k : string) (v : pyval) : dict :=
  match d with
  | [] => [(k, v)]
  | (k', v') :: d' =>
      if String.eqb k' k then (k', v) :: d' else (k', v') :: dict_set d' k v
  end.

(** The [dict] [json.load] builds from the members of an object, in
    file order; a repeated key keeps its first place and its last value. *)
Definition dict_of_pairs (ps : list (string * pyval)) : dict :=
  fold_left (fun d kv => dict_set d (fst kv) (snd kv)) ps [].

(** [mapping.get(url) != cache_key] with [cache_key] a [str] *)
Definition differs (v : option pyval) (key : string) : bool :=
  match v with
  | Some (PStr s) => negb (String.eqb s key)
  | _ => true
  end.

Fixpoint insert_by_key (kv : string * pyval) (l : list (string * pyval))
  : list (string * pyval) :=
  match l with
  | [] => [kv]
  | kv' :: l' =>
      if String.leb (fst kv) (fst kv') then kv :: l else kv' :: insert_by_key kv l'
  end.

(** [sort_keys=True]: the items in the order of their keys. *)
Definition sort_keys (d : dict) : list (string * pyval) :=
  fold_right insert_by_key [] d.

Definition keys (d : dict) : list string := map fst d.

Definition key_le (a b : string * pyval) : Prop := String.leb (fst a) (fst b) = true.

(** *** The world *)

(** What a regular file is to [json.load]. *)
Inductive content :=
| Unparsable                                   (* reading it raises *)
| JsonObject (members : list (string * pyval)) (* an object, members in file order *)
| JsonOther.                                   (* valid JSON, not an object *)

(** What [os.stat] finds at a path.  A path the map gives nothing for
    does not exist: [stat] fails there with one of the errors pathlib
    takes for absence (ENOENT, ENOTDIR, EBADF, ELOOP). *)
Inductive node :=
| Directory
| RegularFile (c : content)
| NoStat.   (* [stat] fails with another [OSError]: name too long, no permission *)

Definition fsmap := string -> option node.

Definition fs_put (p : string) (n : node) (f : fsmap) : fsmap :=
  fun q => if String.eqb q p then Some n else f q.

(** How [Popen] with [wait], or [subprocess.run], ended. *)
Inductive proc_result :=
| LaunchError (cls msg : string)    (* it raised: the class of the exception, its text *)
| Exited (rc : Z) (out : string).   (* return code, captured stdout as text *)

Inductive stream := Stdout | Stderr | LogFile.

Record World := mkWorld {
  fs : fsmap;
  (** a launch the operating system is asked for: its ordinal among the
      launches of this run, its argument vector, the file system it
      finds; gives how the launch ended and the file system it leaves *)
  exec : nat -> list string -> fsmap -> proc_result * fsmap;
  write_denied : string -> bool;     (* [open(p, "w")], [open(p, "a")], [os.mkdir(p)] raise *)
  dump_fails : string -> bool;       (* writing to the file opened at [p] raises *)
  which_git : option string;         (* [shutil.which("git")] *)
  resolve : string -> string;        (* [Path(p).resolve()] *)
  access_x : string -> bool;         (* [os.access(p, os.X_OK)] *)
  env_cache_dir : option string;     (* [os.environ.get("GIT_CLONE_CACHE_DIR")] *)
  expanduser : string -> string;     (* [os.path.expanduser] *)
  script_dir : string;               (* [Path(__file__).parent] *)
  os_nt : bool;                      (* [os.name == "nt"] *)
  calls : list (list string);        (* launches asked for, oldest first *)
  output : list (stream * string)    (* lines written, oldest first *)
}.

Definition set_fs (f : fsmap) (w : World) : World :=
  mkWorld f (exec w) (write_denied w) (dump_fails w) (which_git w) (resolve w) (access_x w)
          (env_cache_dir w) (expanduser w) (script_dir w) (os_nt w)
          (calls w) (output w).

Definition add_call (c : list string) (w : World) : World :=
  mkWorld (fs w) (exec w) (write_denied w) (dump_fails w) (which_git w) (resolve w) (access_x w)
          (env_cache_dir w) (expanduser w) (script_dir w) (os_nt w)
          (calls w ++ [c]) (output w).

Definition add_output (l : list (stream * string)) (w : World) : World :=
  mkWorld (fs w) (exec w) (write_denied w) (dump_fails w) (which_git w) (resolve w) (access_x w)
          (env_cache_dir w) (expanduser w) (script_dir w) (os_nt w)
          (calls w) (output w ++ l).

(** *** Computations: state, exceptions and [sys.exit] *)

Inductive outcome (A : Type) :=
| Ret (a : A)
| Raise (e : string)     (* an exception nobody caught yet *)
| SysExit (code : Z).    (* [sys.exit(code)] *)

Arguments Ret {A} a.
Arguments Raise {A} e.
Arguments SysExit {A} code.

Definition M (A : Type) : Type := World -> outcome A * World.

Definition ret {A} (a : A) : M A := fun w => (Ret a, w).

Definition bind {A B} (m : M A) (k : A -> M B) : M B :=
  fun w =>
    match m w with
    | (Ret a, w') => k a w'
    | (Raise e, w') => (Raise e, w')
    | (SysExit c, w') => (SysExit c, w')
    end.

Definition raise {A} (e : string) : M A := fun w => (Raise e, w).
Definition sys_exit {A} (code : Z) : M A := fun w => (SysExit code, w).
Definition get {A} (f : World -> A) : M A := fun w => (Ret (f w), w).
Definition modify (f : World -> World) : M unit := fun w => (Ret tt, f w).

Declare Scope py_scope.
Delimit Scope py_scope with py.
Notation "x <- m ;; k" := (bind m (fun x => k))
  (at level 61, m at next level, right associativity) : py_scope.
Notation "m ;; k" := (bind m (fun _ => k))
  (at level 61, right associativity) : py_scope.
Local Open Scope py_scope.

(** The exit status of the interpreter. *)
Definition exit_code {A} (o : outcome A) : Z :=
  match o with
  | Ret _ => 0
  | Raise _ => 1
  | SysExit c => c
  end%Z.

(** *** Output: [info] and [error] *)

Definition tag_info : string := "[populate_git_clone_cache][INFO] ".
Definition tag_error : string := "[populate_git_clone_cache][ERROR] ".

(** [log_file] is the open log of the run, or [None]: here a flag. *)
Definition emit (s : stream) (line : string) (log_file : bool) : M unit :=
  modify (add_output ((s, line) :: if log_file then [(LogFile, line)] else [])).

Definition info (msg : string) (log_file : bool) : M unit :=
  emit Stdout (tag_info ++ msg) log_file.

Definition error (msg : string) (log_file : bool) : M unit :=
  emit Stderr (tag_error ++ msg) log_file.

Definition log_write (line : string) : M unit :=
  modify (add_output [(LogFile, line)]).

Definition str_of_Z (z : Z) : string := NilZero.string_of_int (Z.to_int z).

(** *** File system and process primitives *)

(** [p.exists()]: an [OSError] of [stat] that does not mean absence is
    raised again. *)
Definition path_exists (p : string) : M bool :=
  fun w =>
    match fs w p with
    | Some NoStat => (Raise "OSError", w)
    | Some _ => (Ret true, w)
    | None => (Ret false, w)
    end.

(** [p.is_dir()] *)
Definition path_is_dir (p : string) : M bool :=
  fun w =>
    match fs w p with
    | Some NoStat => (Raise "OSError", w)
    | Some Directory => (Ret true, w)
    | _ => (Ret false, w)
    end.

(** [p.parent] for a path [p]: itself for a root and for ["."]. *)
Definition parent (p : string) : string :=
  match path_parts p with
  | [] => p
  | ps =>
      match path_root p, removelast ps with
      | EmptyString, [] => "."
      | r, qs => (r ++ String.concat "/" qs)%string
      end
  end.

(** Ask the operating system for a launch and wait for the child. *)
Definition spawn (argv : list string) : M proc_result :=
  fun w =>
    let '(r, f) := exec w (List.length (calls w)) argv (fs w) in
    (Ret r, add_call argv (set_fs f w)).

(** What [run_git_command] hands [Popen] as [stdout] and [stderr]:
    [sys.stdout] or [sys.stderr] itself, or a [Tee] of it and the log. *)
Inductive sink := Std | Tee.

(** [Tee] defines [write] and [flush] only. *)
Definition has_fileno (s : sink) : bool :=
  match s with Std => true | Tee => false end.

Definition tee_error : proc_result :=
  LaunchError "AttributeError" "'Tee' object has no attribute 'fileno'".

(** [Popen(argv, stdout=out, stderr=err, text=True)] and [wait].  [Popen]
    asks what it is given for [fileno()] before it starts anything. *)
Definition popen (argv : list string) (out err : sink) : M proc_result :=
  if has_fileno out && has_fileno err then spawn argv else ret tee_error.

(** [open(p, "r")] and [json.load]: the content, [None] when either raises. *)
Definition read_json (p : string) : M (option content) :=
  get (fun w => match fs w p with
                | Some (RegularFile Unparsable) => None
                | Some (RegularFile c) => Some c
                | _ => None
                end).

(** [open(p, "w")] and [json.dump(mapping, f, indent=2, sort_keys=True)]:
    [false] when either raises.  Opening truncates, so a dump that fails
    leaves a file that does not load.  A file written in full is kept as
    the document it holds: the items in the order they are written. *)
Definition write_json (p : string) (mapping : dict) : M bool :=
  fun w =>
    match fs w p with
    | Some Directory => (Ret false, w)
    | Some NoStat => (Ret false, w)
    | _ =>
        if write_denied w p then (Ret false, w)
        else if dump_fails w p
        then (Ret false, set_fs (fs_put p (RegularFile Unparsable) (fs w)) w)
        else (Ret true,
              set_fs (fs_put p (RegularFile (JsonObject (sort_keys mapping))) (fs w)) w)
    end.

(** [os.mkdir(p)] *)
Inductive mkdir_result :=
| Made (w : World)
| NoParent              (* [FileNotFoundError] *)
| Refused (e : string). (* another [OSError] *)

Definition os_mkdir (p : string) (w : World) : mkdir_result :=
  match fs w p with
  | Some NoStat => Refused "OSError"
  | Some _ => Refused "FileExistsError"
  | None =>
      match fs w (parent p) with
      | Some Directory =>
          if write_denied w p then Refused "PermissionError"
          else Made (set_fs (fs_put p Directory (fs w)) w)
      | Some (RegularFile _) => Refused "NotADirectoryError"
      | Some NoStat => Refused "OSError"
      | None => NoParent
      end
  end.

(** The [except OSError] clause of [Path.mkdir] with [exist_ok=True]. *)
Definition unless_is_dir (p e : string) : M unit :=
  d <- path_is_dir p ;;
  if d then ret tt else raise e.

(** [p.mkdir(parents=False, exist_ok=True)] *)
Definition mkdir_once (p : string) : M unit :=
  fun w =>
    match os_mkdir p w with
    | Made w' => (Ret tt, w')
    | NoParent => (Raise "FileNotFoundError", w)
    | Refused e => unless_is_dir p e w
    end.

(** [p.mkdir(parents=True, exist_ok=True)]: a missing parent is made the
    same way, then [p] is tried once more.  The recursion is bounded by
    the length of the path. *)
Fixpoint mkdir_parents (depth : nat) (p : string) : M unit :=
  fun w =>
    match os_mkdir p w with
    | Made w' => (Ret tt, w')
    | NoParent =>
        if String.eqb (parent p) p then (Raise "FileNotFoundError", w)
        else
          match depth with
          | O => (Raise "RecursionError", w)
          | S n => (mkdir_parents n (parent p) ;; mkdir_once p) w
          end
    | Refused e => unless_is_dir p e w
    end.

Definition mkdir_p (p : string) : M unit := mkdir_parents (String.length p) p.

(** [open(p, "a", buffering=1)] *)
Definition open_append (p : string) : M unit :=
  fun w =>
    match fs w p with
    | Some Directory => (Raise "IsADirectoryError", w)
    | Some NoStat => (Raise "OSError", w)
    | Some (RegularFile _) =>
        if write_denied w p then (Raise "PermissionError", w) else (Ret tt, w)
    | None => if write_denied w p then (Raise "PermissionError", w)
              else (Ret tt, set_fs (fs_put p (RegularFile Unparsable) (fs w)) w)
    end.

(** *** [str.strip()] *)

(** The code points [str.strip()] removes: those [str.isspace] holds of. *)
Definition white_space : list N :=
  [ 0x09; 0x0A; 0x0B; 0x0C; 0x0D; 0x1C; 0x1D; 0x1E; 0x1F; 0x20; 0x85; 0xA0;
    0x1680; 0x2000; 0x2001; 0x2002; 0x2003; 0x2004; 0x2005; 0x2006; 0x2007;
    0x2008; 0x2009; 0x200A; 0x2028; 0x2029; 0x202F; 0x205F; 0x3000 ]%N.

(** The UTF-8 bytes of a code point below U+10000. *)
Definition utf8_char (n : N) : string :=
  (if n <? 0x80 then String (ascii_of_N n) ""
   else if n <? 0x800 then
     String (ascii_of_N (0xC0 + n / 64)) (String (ascii_of_N (0x80 + n mod 64)) "")
   else
     String (ascii_of_N (0xE0 + n / 4096))
       (String (ascii_of_N (0x80 + (n / 64) mod 64))
          (String (ascii_of_N (0x80 + n mod 64)) "")))%N.

Definition spaces : list string := map utf8_char white_space.

Fixpoint string_rev (s : string) : string :=
  match s with
  | EmptyString => EmptyString
  | String c s' => (string_rev s' ++ String c EmptyString)%string
  end.

(** [s] without its prefix [p]. *)
Fixpoint drop_prefix (p s : string) : option string :=
  match p, s with
  | EmptyString, _ => Some s
  | String a p', String b s' => if Ascii.eqb a b then drop_prefix p' s' else None
  | String _ _, EmptyString => None
  end.

(** [s] without the first of [ps] it starts with. *)
Fixpoint drop_any (ps : list string) (s : string) : option string :=
  match ps with
  | [] => None
  | p :: ps' =>
      match drop_prefix p s with
      | Some r => Some r
      | None => drop_any ps' s
      end
  end.

(** Drop leading members of [ps], at most [n] times. *)
Fixpoint lstrip_by (ps : list string) (n : nat) (s : string) : string :=
  match n with
  | O => s
  | S n' =>
      match drop_any ps s with
      | Some r => lstrip_by ps n' r
      | None => s
      end
  end.

Definition lstrip (s : string) : string := lstrip_by spaces (String.length s) s.

(** The same from the end: a character of UTF-8 is found from its last
    byte as surely as from its first. *)
Definition rstrip (s : string) : string :=
  string_rev (lstrip_by (map string_rev spaces) (String.length s) (string_rev s)).

Definition strip (s : string) : string := rstrip (lstrip s).

(** *** The functions of the script *)

Definition find_real_git : M (option string) :=
  nt <- get os_nt ;;
  let exe_name := ("git" ++ (if nt then ".exe" else ""))%string in
  dir <- get script_dir ;;
  let wrapper_path := joinpath (joinpath dir "out") exe_name in
  res <- get resolve ;;
  let wrapper_resolved := res wrapper_path in
  git_path <- get which_git ;;
  match git_path with
  | Some g =>
      if negb (String.eqb g "") && negb (String.eqb (res (Path g)) wrapper_resolved)
      then ret (Some g)
      else ret None
  | None => ret None
  end.

(** [except (subprocess.CalledProcessError, FileNotFoundError)] *)
Definition caught (cls : string) : bool :=
  String.eqb cls "CalledProcessError" || String.eqb cls "FileNotFoundError".

(** [subprocess.run] raises what [Popen] raises and, with [text=True],
    [UnicodeDecodeError] for output that is no text. *)
Definition get_origin_url (repo_path real_git : string) : M (option string) :=
  info ("Getting origin URL for repo: " ++ repo_path) false ;;
  r <- spawn [real_git; "-C"; repo_path; "remote"; "get-url"; "origin"] ;;
  match r with
  | Exited rc out => if (rc =? 0)%Z then ret (Some (strip out)) else ret None
  | LaunchError cls e =>
      if caught cls then
        error ("Exception while getting origin URL: " ++ e) false ;;
        ret None
      else raise cls
  end.

Definition compute_cache_key (url : string) : M string :=
  info ("Computing cache key for URL: " ++ url) false ;;
  match Sha256.encode url with
  | Some b =>
      let key := Sha256.hex (Sha256.digest b) in
      info ("Cache key: " ++ key) false ;;
      ret key
  | None => raise "UnicodeEncodeError"
  end.

Definition is_local_repo (path : string) : M bool :=
  let path_obj := Path path in
  d <- path_is_dir path_obj ;;
  if d then path_exists (joinpath path_obj ".git") else ret false.

Definition run_git_command (cmd : string) (args : list string) (log_file : bool)
  : M bool :=
  info ("Running git command: " ++ cmd ++ " " ++ String.concat " " args) log_file ;;
  let stdout_tee := if log_file then Tee else Std in
  let stderr_tee := if log_file then Tee else Std in
  r <- popen (cmd :: args) stdout_tee stderr_tee ;;
  match r with
  | Exited rc _ =>
      if (rc =? 0)%Z then ret true
      else error ("Command failed with return code " ++ str_of_Z rc) log_file ;;
           ret false
  | LaunchError _ e =>
      error ("Command failed: " ++ e) log_file ;;
      ret false
  end.

(** What [mapping] is bound to when the update is decided.  The text of
    a caught exception, which the script puts in its message, is not
    modelled. *)
Inductive loaded :=
| LDict (d : dict)
| LNotDict.

Definition update_directory_json (cache_dir url cache_key : string) (log_file : bool)
  : M unit :=
  let directory_json_path := joinpath cache_dir "directory.json" in
  present <- path_exists directory_json_path ;;
  mapping <-
    (if present then
       c <- read_json directory_json_path ;;
       match c with
       | Some (JsonObject members) => ret (LDict (dict_of_pairs members))
       | Some _ => ret LNotDict
       | None =>
           error "Failed to read directory.json: could not load" log_file ;;
           ret (LDict [])
       end
     else ret (LDict [])) ;;
  match mapping with
  | LNotDict => raise "AttributeError"       (* [mapping.get] on what is no dict *)
  | LDict d =>
      if differs (dict_get d url) cache_key then
        let d' := dict_set d url (PStr cache_key) in
        ok <- write_json directory_json_path d' ;;
        if ok then info ("Updated directory.json for " ++ url) log_file
        else error "Failed to write directory.json: could not write" log_file
      else ret tt
  end.

Definition set_origin_url (cache_mirror real_git url : string) (log_file : bool)
  : M bool :=
  info ("Setting origin URL for cache mirror: " ++ cache_mirror) log_file ;;
  run_git_command real_git ["-C"; cache_mirror; "remote"; "set-url"; "origin"; url] log_file.

Definition populate_cache (url cache_mirror real_git source_for_clone cache_dir : string)
                          (log_file : bool) : M bool :=
  present <- path_exists cache_mirror ;;
  if present then
    info ("Updating: " ++ url) log_file ;;
    updated <- run_git_command real_git ["-C"; cache_mirror; "fetch"; "--all"] log_file ;;
    set_origin_url cache_mirror real_git url log_file ;;
    update_directory_json cache_dir url (path_name cache_mirror) log_file ;;
    if updated then ret true
    else error ("Failed to update cache for " ++ url) log_file ;; ret false
  else
    info ("Caching: " ++ url) log_file ;;
    cloned <- run_git_command real_git
                ["clone"; "--mirror"; source_for_clone; cache_mirror] log_file ;;
    if cloned then
      info ("  -> " ++ cache_mirror) log_file ;;
      set_origin_url cache_mirror real_git url log_file ;;
      update_directory_json cache_dir url (path_name cache_mirror) log_file ;;
      ret true
    else error ("Failed to cache " ++ url) log_file ;; ret false.

Definition get_log_file (cache_dir : string) : M unit :=
  let log_path := joinpath cache_dir "populate_git_clone_cache.log" in
  mkdir_p (parent log_path) ;;
  open_append log_path.

(** The body of [for arg in sys.argv[1:]]; a [continue] ends it. *)
Definition process_arg (real_git cache_dir arg : string) : M unit :=
  let log_file := true in
  let arg_path := Path arg in
  let cache := fun url source_for_clone =>
    cache_key <- compute_cache_key url ;;
    let cache_mirror := joinpath cache_dir cache_key in
    populate_cache url cache_mirror real_git source_for_clone cache_dir log_file ;;
    ret tt in
  present <- path_exists arg_path ;;
  if negb present then error ("Path does not exist: " ++ arg) log_file
  else
    local <- is_local_repo arg ;;
    if local then
      url <- get_origin_url arg_path real_git ;;
      match url with
      | Some u =>
          if String.eqb u "" then
            error ("WARNING: No origin remote in " ++ arg ++ ", skipping") log_file
          else cache u arg
      | None => error ("WARNING: No origin remote in " ++ arg ++ ", skipping") log_file
      end
    else
      d <- path_is_dir arg_path ;;
      if d then error ("Not a git repo: " ++ arg) log_file
      else cache arg arg.

Fixpoint for_each (args : list string) (body : string -> M unit) : M unit :=
  match args with
  | [] => ret tt
  | a :: rest => body a ;; for_each rest body
  end.

(** [main()], with [sys.argv = prog :: args]. *)
Definition main (prog : string) (args : list string) : M unit :=
  real_git <- find_real_git ;;
  info ("real_git resolved to: " ++ match real_git with Some g => g | None => "None" end)
       false ;;
  ok <- match real_git with
        | Some g => ax <- get access_x ;; ret (negb (String.eqb g "") && ax g)
        | None => ret false
        end ;;
  if negb ok then
    error "Could not find git binary" false ;;
    error "Exiting due to missing git binary." false ;;
    sys_exit 1
  else
    let real_git := match real_git with Some g => g | None => "" end in
    cache_dir_env <- get env_cache_dir ;;
    home <- get expanduser ;;
    let cache_dir :=
      Path (match cache_dir_env with
            | Some e => if String.eqb e "" then home "~/.git-clone-cache" else e
            | None => home "~/.git-clone-cache"
            end) in
    mkdir_p cache_dir ;;
    get_log_file cache_dir ;;
    match args with
    | [] =>
        error ("Usage: " ++ path_name prog
               ++ " /path/to/repo1 [/path/to/repo2 ...] [https://url ...]") false ;;
        log_write "Exiting due to missing arguments." ;;
        sys_exit 1
    | _ =>
        for_each args (process_arg real_git cache_dir) ;;
        info "Done." true ;;
        log_write "Done."
    end.

(** The exit status of a run of the script. *)
Definition run (prog : string) (args : list string) (w : World) : Z * World :=
  let '(o, w') := main prog args w in (exit_code o, w').

End Populate.

(* ================================================================== *)
(** ** The discoverer: [find_and_populate_git_clone_cache.py] *)
(* ================================================================== *)

Module Discover.

(** The tree below the directory the search starts from. *)
Inductive node :=
| File
| Dir (entries : list (string * node))   (* in the order [scandir] lists them *)
| Locked                                 (* a directory that cannot be listed *)
| Symlink (target : node)                (* a link and what it leads to *)
| Dangling.                              (* a link that leads nowhere *)

(** [entry.is_dir()]: links are followed. *)
Fixpoint is_dir (n : node) : bool :=
  match n with
  | Dir _ | Locked => true
  | Symlink t => is_dir t
  | File | Dangling => false
  end.

Definition is_link (n : node) : bool :=
  match n with
  | Symlink _ | Dangling => true
  | _ => false
  end.

Fixpoint lookup (name : string) (es : list (string * node)) : option node :=
  match es with
  | [] => None
  | (n, c) :: es' => if String.eqb n name then Some c else lookup name es'
  end.

(** [os.path.join(a, b)] *)
Definition os_path_join (a b : string) : string :=
  if Populate.starts_with_slash b then b
  else if String.eqb a "" || Populate.ends_with_slash a then (a ++ b)%string
  else (a ++ "/" ++ b)%string.

(** [os.path.islink(p)] for the paths [os.path.join(top, name)] of the
    entries of the directory [top]. *)
Definition islink_at (top : string) (es : list (string * node)) (p : string) : bool :=
  existsb (fun e => String.eqb p (os_path_join top (fst e)) && is_link (snd e)) es.

Definition dirnames (es : list (string * node)) : list string :=
  map fst (filter (fun e => is_dir (snd e)) es).

Definition filenames (es : list (string * node)) : list string :=
  map fst (filter (fun e => negb (is_dir (snd e))) es).

Definition mem (x : string) (l : list string) : bool := existsb (String.eqb x) l.

Section Walk.

Context {St : Type}.

(** The body of a [for root, dirs, files in os.walk(...)] loop.  The
    generator and the body share the list [dirs]: the body gets the
    list as listed and gives back what it left in it. *)
Variable body :
  (string -> bool) -> string -> list string -> list string -> St -> list string * St.

(** [os.walk(top, topdown=True, followlinks=False)] driving [body]:
    list [top], run the body on the triple, then walk into what is
    left of [dirs], skipping links.  A directory that cannot be listed
    yields nothing.  [depth] bounds the nesting. *)
Fixpoint walk (depth : nat) (top : string) (n : node) (s : St) : St :=
  match depth with
  | O => s
  | S depth' =>
      match n with
      | Dir es =>
          let '(dirs, s1) := body (islink_at top es) top (dirnames es) (filenames es) s in
          fold_left
            (fun acc d =>
               let new_path := os_path_join top d in
               if islink_at top es new_path then acc
               else match lookup d es with
                    | Some child => walk depth' new_path child acc
                    | None => acc
                    end)
            dirs s1
      | _ => s
      end
  end.

End Walk.

Fixpoint height (n : node) : nat :=
  match n with
  | Dir es =>
      S ((fix go (l : list (string * node)) : nat :=
            match l with
            | [] => O
            | (_, c) :: l' => Nat.max (height c) (go l')
            end) es)
  | _ => O
  end.

Definition tag_info : string := "[find_and_populate_git_clone_cache][INFO] ".

(** [repos] and the lines logged. *)
Definition state : Type := list string * list string.

Definition found (root : string) (s : state) : state :=
  let found_path := Populate.joinpath (Populate.Path root) ".git" in
  (fst s ++ [root], snd s ++ [(tag_info ++ "Found git repo: " ++ found_path)%string]).

(** The list comprehension assigned to [dirs[:]]. *)
Definition keep (islink : string -> bool) (root : string) (dirs : list string)
  : list string :=
  filter (fun d => negb (mem d [".git"; "node_modules"])
                   && negb (islink (os_path_join root d))) dirs.

Definition loop_body (islink : string -> bool) (root : string)
                     (dirs files : list string) (s : state) : list string * state :=
  let s1 := if mem ".git" dirs then found root s else s in
  let dirs' := keep islink root dirs in
  let s2 := if mem ".git" dirs' then found root s1 else s1 in
  (dirs', s2).

(** Lines 82 to 96 of [main]: the search below [root_dir].  The walk may
    go one level deeper than the tree is, so the bound is never met. *)
Definition search (root_dir : string) (tree : node) : state :=
  walk loop_body (S (height tree)) root_dir tree ([], []).

Definition find_repos (root_dir : string) (tree : node) : list string :=
  fst (search root_dir tree).

(** The directories the same walk yields, each with its [dirs] as
    listed, in the order they are yielded. *)
Definition trace_body (islink : string -> bool) (root : string)
                      (dirs files : list string) (acc : list (string * list string))
  : list string * list (string * list string) :=
  (keep islink root dirs, acc ++ [(root, dirs)]).

Definition traversal (root_dir : string) (tree : node) : list (string * list string) :=
  walk trace_body (S (height tree)) root_dir tree [].

(** A directory reached from [n] along [names] through real directories
    only: no step goes through a link, [.git] or [node_modules]. *)
Inductive route : node -> list string -> node -> Prop :=
| route_here : forall n, route n [] n
| route_step : forall es d child names n',
    lookup d es = Some child ->
    is_link child = false ->
    d <> ".git" ->
    d <> "node_modules" ->
    route child names n' ->
    route (Dir es) (d :: names) n'.

(** Names as a file system has them: not empty, without a slash, and
    unique within their directory. *)
Definition good_name (s : string) : bool :=
  negb (String.eqb s "") && forallb (fun c => negb (Ascii.eqb c Populate.slash))
                                    (list_ascii_of_string s).

Inductive wf : node -> Prop :=
| wf_file : wf File
| wf_locked : wf Locked
| wf_dangling : wf Dangling
| wf_symlink : forall t, wf (Symlink t)
| wf_dir : forall es,
    NoDup (map fst es) ->
    Forall (fun e => good_name (fst e) = true /\ wf (snd e)) es ->
    wf (Dir es).

End Discover.


(* ================================================================== *)
(** ** The discoverer as a script: [main] and the children it launches *)
(* ================================================================== *)

Module DiscoverMain.

(** What [find_and_populate_git_clone_cache.py] sees and leaves. *)
Record World := mkWorld {
  resolve : string -> string;                (* [str(Path(p).resolve())] *)
  node_at : string -> option Discover.node;  (* what a resolved path names, with all below it *)
  env_cache_dir : option string;             (* [os.environ.get("GIT_CLONE_CACHE_DIR")] *)
  expanduser : string -> string;             (* [os.path.expanduser] *)
  log_opens : string -> bool;                (* [get_log_file(cache_dir)] does not raise *)
  executable : string;                       (* [sys.executable] *)
  (** the child: its ordinal among the launches of this run and its
      argument vector give how it ended *)
  child : nat -> list string -> Populate.proc_result;
  calls : list (list string);                (* children launched, oldest first *)
  output : list (Populate.stream * string)   (* lines written, oldest first *)
}.

Definition add_call (c : list string) (w : World) : World :=
  mkWorld (resolve w) (node_at w) (env_cache_dir w) (expanduser w) (log_opens w)
          (executable w) (child w) (calls w ++ [c]) (output w).

Definition add_output (l : list (Populate.stream * string)) (w : World) : World :=
  mkWorld (resolve w) (node_at w) (env_cache_dir w) (expanduser w) (log_opens w)
          (executable w) (child w) (calls w) (output w ++ l).

Definition M (A : Type) : Type := World -> Populate.outcome A * World.

Definition ret {A} (a : A) : M A := fun w => (Populate.Ret a, w).

Definition bind {A B} (m : M A) (k : A -> M B) : M B :=
  fun w =>
    match m w with
    | (Populate.Ret a, w') => k a w'
    | (Populate.Raise e, w') => (Populate.Raise e, w')
    | (Populate.SysExit c, w') => (Populate.SysExit c, w')
    end.

Definition raise {A} (e : string) : M A := fun w => (Populate.Raise e, w).
Definition sys_exit {A} (code : Z) : M A := fun w => (Populate.SysExit code, w).
Definition get {A} (f : World -> A) : M A := fun w => (Populate.Ret (f w), w).
Definition modify (f : World -> World) : M unit := fun w => (Populate.Ret tt, f w).

Declare Scope walk_scope.
Delimit Scope walk_scope with walk.
Notation "x <- m ;; k" := (bind m (fun x => k))
  (at level 61, m at next level, right associativity) : walk_scope.
Notation "m ;; k" := (bind m (fun _ => k))
  (at level 61, right associativity) : walk_scope.
Local Open Scope walk_scope.

Definition tag_error : string := "[find_and_populate_git_clone_cache][ERROR] ".

Definition emit (s : Populate.stream) (line : string) (log_file : bool) : M unit :=
  modify (add_output ((s, line) :: if log_file then [(Populate.LogFile, line)] else [])).

Definition info (msg : string) (log_file : bool) : M unit :=
  emit Populate.Stdout (Discover.tag_info ++ msg) log_file.

Definition error (msg : string) (log_file : bool) : M unit :=
  emit Populate.Stderr (tag_error ++ msg) log_file.

Definition log_write (line : string) : M unit :=
  modify (add_output [(Populate.LogFile, line)]).

Definition str_of_nat (n : nat) : string := NilZero.string_of_uint (Nat.to_uint n).

(** [Popen(argv, stdout=sys.stdout, stderr=sys.stderr)] and [wait()] *)
Definition spawn (argv : list string) : M Populate.proc_result :=
  fun w => (Populate.Ret (child w (List.length (calls w)) argv), add_call argv w).

(** Creating the directory of the log, or opening the log, may raise. *)
Definition get_log_file (cache_dir : string) : M unit :=
  opens <- get log_opens ;;
  if opens cache_dir then ret tt else raise "OSError".

Definition run_populate_git_clone_cache (repo_path : string) (log_file : bool) : M unit :=
  info ("Populating git clone cache for repo: " ++ repo_path) log_file ;;
  exe <- get executable ;;
  r <- spawn [exe; "-m"; "populate_git_clone_cache"; repo_path] ;;
  match r with
  | Populate.Exited rc _ =>
      if (rc =? 0)%Z
      then info ("Successfully populated cache for " ++ repo_path) log_file
      else error ("Failed to populate cache for " ++ repo_path ++ ". Return code: "
                  ++ Populate.str_of_Z rc) log_file
  | Populate.LaunchError _ e =>
      error ("Exception while populating cache for " ++ repo_path ++ ": " ++ e) log_file
  end.

Fixpoint for_each (repos : list string) (body : string -> M unit) : M unit :=
  match repos with
  | [] => ret tt
  | r :: rest => body r ;; for_each rest body
  end.

(** What listing a path lists: a link given as the top of a walk is
    followed to what it leads to. *)
Fixpoint follow (n : Discover.node) : Discover.node :=
  match n with
  | Discover.Symlink t => follow t
  | _ => n
  end.

(** The lines the search logs go to the console and to the log. *)
Definition search_lines (lines : list string) : list (Populate.stream * string) :=
  flat_map (fun l => [(Populate.Stdout, l); (Populate.LogFile, l)]) lines.

(** [main()], with [sys.argv = prog :: args]. *)
Definition main (args : list string) : M unit :=
  match args with
  | [] =>
      error "Usage: find-and-populate-git-cache /path/to/search" false ;;
      sys_exit 1
  | arg :: _ =>
      res <- get resolve ;;
      let root_dir := res arg in
      at_ <- get node_at ;;
      let is_dir := match at_ root_dir with
                    | Some n => Discover.is_dir n
                    | None => false
                    end in
      if negb is_dir then
        error ("ERROR: Not a directory: " ++ root_dir) false ;;
        sys_exit 1
      else
        env <- get env_cache_dir ;;
        home <- get expanduser ;;
        let cache_dir :=
          Populate.Path (match env with
                         | Some e => e
                         | None => home "~/.git-clone-cache"
                         end) in
        get_log_file cache_dir ;;
        info ("Searching for git repos in: " ++ root_dir) true ;;
        let tree := match at_ root_dir with Some n => follow n | None => Discover.File end in
        let '(repos, lines) := Discover.search root_dir tree in
        modify (add_output (search_lines lines)) ;;
        match repos with
        | [] =>
            error "No git repos found" true ;;
            sys_exit 1
        | _ =>
            info ("Found " ++ str_of_nat (List.length repos) ++ " repo(s), populating cache...")
                 true ;;
            for_each repos (fun repo => run_populate_git_clone_cache repo true) ;;
            info "Done." true ;;
            log_write "Done."
        end
  end.

(** The exit status of a run of the script. *)
Definition run (args : list string) (w : World) : Z * World :=
  let '(o, w') := main args w in (Populate.exit_code o, w').

End DiscoverMain.

(* ================================================================== *)
(** ** Vocabulary of the statements about the populator *)
(* ================================================================== *)

Module PopulateSpec.

Import Populate.

(** The child ended with return code 0. *)
Definition exit_ok (r : proc_result) : bool :=
  match r with
  | Exited rc _ => (rc =? 0)%Z
  | LaunchError _ _ => false
  end.

(** The four uses of the version-control tool. *)
Definition cmd_get_url (git repo : string) : list string :=
  [git; "-C"; repo; "remote"; "get-url"; "origin"].

Definition cmd_set_url (git mirror url : string) : list string :=
  [git; "-C"; mirror; "remote"; "set-url"; "origin"; url].

Definition cmd_clone (git source mirror : string) : list string :=
  [git; "clone"; "--mirror"; source; mirror].

Definition cmd_fetch (git mirror : string) : list string :=
  [git; "-C"; mirror; "fetch"; "--all"].

(** What the next launch asked for in [w], with [argv], does. *)
Definition next_exec (w : World) (argv : list string) : proc_result * fsmap :=
  exec w (List.length (calls w)) argv (fs w).

(** The launches [run_git_command] gets to ask for: none when it has a
    log file, for then [Popen] is given [Tee] objects and raises. *)
Definition launched (log_file : bool) (cmds : list (list string)) : list (list string) :=
  if log_file then [] else cmds.

(** How the [Popen] of [run_git_command] ends in [w]. *)
Definition git_result (w : World) (argv : list string) (log_file : bool) : proc_result :=
  if log_file then tee_error else fst (next_exec w argv).

(** The file system [run_git_command] leaves in [w]. *)
Definition git_files (w : World) (argv : list string) (log_file : bool) : fsmap :=
  if log_file then fs w else snd (next_exec w argv).

(** The file system two calls of [run_git_command] in a row leave. *)
Definition git_files2 (w : World) (first second : list string) (log_file : bool) : fsmap :=
  if log_file then fs w
  else snd (exec w (S (List.length (calls w))) second (snd (next_exec w first))).

Definition index_path (cache_dir : string) : string :=
  joinpath cache_dir "directory.json".

(** The update gets a mapping to start from: [stat] of the index file
    does not raise, and the file does not hold JSON that is no object. *)
Definition index_usable (w : World) (cache : string) : Prop :=
  fs w (index_path cache) <> Some NoStat
  /\ fs w (index_path cache) <> Some (RegularFile JsonOther).

(** The mapping the index file of [w] loads as, when it is an object. *)
Definition index_members (w : World) (cache_dir : string)
  : option (list (string * pyval)) :=
  match fs w (index_path cache_dir) with
  | Some (RegularFile (JsonObject members)) => Some members
  | _ => None
  end.

(** The entry of [url] in the index of [w]. *)
Definition index_entry (w : World) (cache_dir url : string) : option pyval :=
  match index_members w cache_dir with
  | Some members => dict_get (dict_of_pairs members) url
  | None => None
  end.

(** The mapping an update starts from: the loaded index, or the empty
    [dict] when the index is missing or cannot be read. *)
Definition start_mapping (w : World) (cache_dir : string) : dict :=
  match index_members w cache_dir with
  | Some members => dict_of_pairs members
  | None => []
  end.

(** The URL the query for the origin gives, if it gives one. *)
Definition origin_of (r : proc_result) : option string :=
  match r with
  | Exited rc out => if (rc =? 0)%Z then Some (strip out) else None
  | LaunchError _ _ => None
  end.


(** The exception of [subprocess.run] that [get_origin_url] lets through. *)
Definition escapes (r : proc_result) : option string :=
  match r with
  | Exited _ _ => None
  | LaunchError cls _ => if caught cls then None else Some cls
  end.

(** The end of the loop body, lines 261-265: the key, the mirror path,
    [populate_cache] with the log of the run. *)
Definition cache_entry (git cache url src : string) : M unit :=
  (cache_key <- compute_cache_key url ;;
   populate_cache url (joinpath cache cache_key) git src cache true ;;
   ret tt)%py.

(** The string can be encoded: it holds well-formed UTF-8. *)
Definition encodable (s : string) : bool := Sha256.utf8 (Sha256.bytes s).

(** What making directories and opening the log leave alone. *)
Definition same_but_files (w w' : World) : Prop :=
  calls w' = calls w /\ exec w' = exec w /\ write_denied w' = write_denied w
  /\ dump_fails w' = dump_fails w /\ output w' = output w.

(** The outcome of a call whose value the caller drops. *)
Definition drop {A} (o : outcome A) : outcome unit :=
  match o with
  | Ret _ => Ret tt
  | Raise e => Raise e
  | SysExit c => SysExit c
  end.

(** The computation came back or an exception escaped: no [sys.exit]. *)
Definition returns_or_raises {A} (o : outcome A) : Prop :=
  (exists a, o = Ret a) \/ (exists e, o = Raise e).

Definition warning_no_origin (arg : string) : string :=
  tag_error ++ "WARNING: No origin remote in " ++ arg ++ ", skipping".

End PopulateSpec.

(* ================================================================== *)
(** ** Vocabulary of the statements about the discoverer *)
(* ================================================================== *)

Module DiscoverSpec.

Import Discover.

(** The path [os.walk] builds for the directory reached from [root]
    along [names]. *)
Definition path_of (root : string) (names : list string) : string :=
  fold_left os_path_join names root.

(** A yielded directory that lists a [.git] directory. *)
Definition has_git (y : string * list string) : bool := mem ".git" (snd y).

(** What a walk of the given depth yields from [top]. *)
Definition visits (depth : nat) (top : string) (n : node) : list (string * list string) :=
  walk trace_body depth top n [].

(** What the walk yields below the entry [name] of the directory [top]. *)
Definition child_visits (depth : nat) (top : string) (es : list (string * node))
                        (name : string) : list (string * list string) :=
  if islink_at top es (os_path_join top name) then []
  else match lookup name es with
       | Some child => visits depth (os_path_join top name) child
       | None => []
       end.

Definition found_line (root : string) : string :=
  (tag_info ++ "Found git repo: " ++ Populate.joinpath (Populate.Path root) ".git")%string.

(** The state of the search after the yields [vs]. *)
Definition extend_state (s : state) (vs : list (string * list string)) : state :=
  (fst s ++ map fst (filter has_git vs),
   snd s ++ map (fun y => found_line (fst y)) (filter has_git vs)).

(** What [os.path.join] puts between its arguments. *)
Definition sep (a : string) : string :=
  if String.eqb a "" || Populate.ends_with_slash a then "" else "/".

Fixpoint tail_of (names : list string) : string :=
  match names with
  | [] => ""
  | n :: ns => ("/" ++ n ++ tail_of ns)%string
  end.

Definition slash_free (s : string) : bool :=
  forallb (fun c => negb (Ascii.eqb c Populate.slash)) (list_ascii_of_string s).

(** Empty, or starting with a slash. *)
Definition tail_like (t : string) : Prop :=
  t = "" \/ Populate.starts_with_slash t = true.

Definition good_names (names : list string) : Prop :=
  Forall (fun n => good_name n = true) names.

End DiscoverSpec.

(* ================================================================== *)
(** ** Vocabulary of further statements about the two scripts *)
(* ================================================================== *)

Module MoreSpec.

Import Populate.

(** The wrapper [find_real_git] steps around. *)
Definition wrapper_path (w : World) : string :=
  joinpath (joinpath (script_dir w) "out") ("git" ++ (if os_nt w then ".exe" else ""))%string.

(** [main] gets past its check of the git binary with [g]. *)
Definition usable_git (w : World) (g : string) : Prop :=
  fst (find_real_git w) = Ret (Some g) /\ access_x w g = true.

(** The cache root [main] settles on. *)
Definition cache_dir_of (w : World) : string :=
  Path (match env_cache_dir w with
        | Some e => if String.eqb e "" then expanduser w "~/.git-clone-cache" else e
        | None => expanduser w "~/.git-clone-cache"
        end).

Definition log_path_of (w : World) : string :=
  joinpath (cache_dir_of w) "populate_git_clone_cache.log".

(** The exceptions that can leave the loop over the arguments, by where
    they come from: [mapping.get] on an index that is no [dict]; a
    [stat] that fails in [exists()] or [is_dir()]; the encoding of a
    string with a lone surrogate; and what [subprocess.run] raises for
    the query of the origin of some working copy, unless
    [get_origin_url] catches it. *)
Inductive loop_exception (run : nat -> list string -> fsmap -> proc_result * fsmap)
                         (git : string) : string -> Prop :=
| from_index : loop_exception run git "AttributeError"
| from_stat : loop_exception run git "OSError"
| from_encode : loop_exception run git "UnicodeEncodeError"
| from_query n repo f cls msg :
    fst (run n (PopulateSpec.cmd_get_url git repo) f) = LaunchError cls msg ->
    caught cls = false ->
    loop_exception run git cls.

(** The computation came back, or one of the two exceptions that leave
    an update of the index did. *)
Definition returns_or_index_exception {A} (o : outcome A) : Prop :=
  match o with
  | Ret _ => True
  | Raise e => e = "AttributeError" \/ e = "OSError"
  | SysExit _ => False
  end.

(** The computation came back or one of these exceptions left it. *)
Definition returns_or_escapes {A} (run : nat -> list string -> fsmap -> proc_result * fsmap)
                              (git : string) (o : outcome A) : Prop :=
  match o with
  | Ret _ => True
  | Raise e => loop_exception run git e
  | SysExit _ => False
  end.

Definition is_hex (c : ascii) : bool :=
  existsb (Ascii.eqb c)
    ["0"; "1"; "2"; "3"; "4"; "5"; "6"; "7"; "8"; "9"; "a"; "b"; "c"; "d"; "e"; "f"]%char.

(** One segment of a path: not empty, not ["."], without a slash. *)
Definition segment (s : string) : Prop :=
  s <> "" /\ s <> "." /\ DiscoverSpec.slash_free s = true.

(** [s] starts, or ends, with a character [str.strip()] removes. *)
Definition starts_with_space (s : string) : bool :=
  match drop_any spaces s with Some _ => true | None => false end.

Definition ends_with_space (s : string) : bool :=
  match drop_any (map string_rev spaces) (string_rev s) with
  | Some _ => true
  | None => false
  end.

(** [s] is members of [ps] one after the other. *)
Inductive made_of (ps : list string) : string -> Prop :=
| made_of_nil : made_of ps ""
| made_of_cons p s : In p ps -> made_of ps s -> made_of ps (p ++ s).

(** [s] is made of characters [str.strip()] removes, and nothing else. *)
Definition all_space (s : string) : Prop := made_of spaces s.

(** No member of [ps] is empty. *)
Definition no_empty (ps : list string) : Prop := Forall (fun p => p <> "") ps.

(** No member of [ps] starts another: [ps] is a prefix code. *)
Definition prefix_code (ps : list string) : Prop :=
  forall p s, In p ps -> drop_any ps (p ++ s) = Some s.

End MoreSpec.

Module DiscoverMainSpec.

Import DiscoverMain.


Definition cache_dir_of (w : World) : string :=
  Populate.Path (match env_cache_dir w with
                 | Some e => e
                 | None => expanduser w "~/.git-clone-cache"
                 end).




End DiscoverMainSpec.

(* ================================================================== *)
(** ** Worlds and trees to run the scripts on *)
(* ================================================================== *)

Module Sample.

Import Populate.

Definition git : string := "/usr/bin/git".
Definition cache : string := "/cache".
Definition app : string := "/src/app".
Definition origin : string := "https://example.com/repo.git".
Definition key : string :=
  "3f71ca0a9a455fa908a2efa64f43dd6bf7ed6d77de8d06bdcdef5aeaf099bf80".
Definition mirror : string := "/cache/" ++ key.

Fixpoint fs_of (l : list (string * node)) : fsmap :=
  fun p =>
    match l with
    | [] => None
    | (q, n) :: l' => if String.eqb q p then Some n else fs_of l' p
    end.

Fixpoint assoc (k : string) (l : list (string * string)) : option string :=
  match l with
  | [] => None
  | (k', v) :: l' => if String.eqb k' k then Some v else assoc k l'
  end.

(** A stand-in for git: [origins] gives the origin of the working
    copies that have one, [reachable] the sources a clone can read,
    [online] whether a fetch gets through. *)
Definition fake_git (origins : list (string * string)) (reachable : list string)
                    (online : bool)
  : nat -> list string -> fsmap -> proc_result * fsmap :=
  fun _ argv f =>
    match argv with
    | [_; "-C"; repo; "remote"; "get-url"; "origin"] =>
        match assoc repo origins with
        | Some u => (Exited 0 (u ++ String "010"%char EmptyString), f)
        | None => (Exited 2 "", f)
        end
    | [_; "clone"; "--mirror"; src; dst] =>
        if existsb (String.eqb src) reachable
        then (Exited 0 "", fs_put dst Directory f)
        else (Exited 128 "", f)
    | [_; "-C"; _; "fetch"; "--all"] =>
        if online then (Exited 0 "", f) else (Exited 1 "", f)
    | [_; "-C"; _; "remote"; "set-url"; "origin"; _] => (Exited 0 "", f)
    | _ => (Exited 1 "", f)
    end.

Definition world (files : list (string * node))
                 (exec : nat -> list string -> fsmap -> proc_result * fsmap)
  : World :=
  mkWorld (fs_of files) exec (fun _ => false) (fun _ => false) (Some git) (fun p => p) (fun _ => true)
          (Some cache) (fun p => p) "/opt/git-clone-cache" false [] [].

Definition working_copy : list (string * node) :=
  [(app, Directory); ("/src/app/.git", Directory); (cache, Directory)].

(** A working copy with an origin that can be cloned; nothing cached yet. *)
Definition w_fresh : World :=
  world working_copy (fake_git [(app, origin)] [app] true).

(** The same, but the clone fails. *)
Definition w_unreachable : World :=
  world working_copy (fake_git [(app, origin)] [] true).


(** The mirror is there and the index already records it; fetch fails. *)
Definition w_cached_offline : World :=
  world (working_copy ++
         [(mirror, Directory);
          ("/cache/directory.json",
           RegularFile (JsonObject [("https://b.example/x.git", PStr "00");
                                    (origin, PStr key)]))])
        (fake_git [(app, origin)] [app] false).

(** The mirror is there, the index holds an entry of another repository. *)
Definition w_other_entry : World :=
  world (working_copy ++
         [(mirror, Directory);
          ("/cache/directory.json",
           RegularFile (JsonObject [("https://z.example/z.git", PStr "ff");
                                    ("https://b.example/x.git", POther 7)]))])
        (fake_git [(app, origin)] [app] true).

(** The mirror is there, the index file holds a JSON array. *)
Definition w_index_array : World :=
  world (working_copy ++
         [(mirror, Directory); ("/cache/directory.json", RegularFile JsonOther)])
        (fake_git [(app, origin)] [app] true).

(** Nothing cached yet; the remote repository can be cloned. *)
Definition w_remote : World :=
  world [(cache, Directory)] (fake_git [] [origin] true).

(** A regular file given as an argument. *)
Definition w_bundle : World :=
  world ((("/src/repo.bundle", RegularFile Unparsable)) :: working_copy)
        (fake_git [] ["/src/repo.bundle"] true).

Import Discover.

Definition repo : Discover.node :=
  Dir [(".git", Dir []); ("src", Dir [("a.py", File)])].

Definition tree : Discover.node :=
  Dir [ ("app", repo);
        ("notes.txt", File);
        ("node_modules", Dir [("dep", repo)]);
        ("alias", Symlink repo);
        ("work", Dir [("lib", repo); ("secret", Locked)]) ].

End Sample.


Module SampleWalk.

Import DiscoverMain.

(** The first child succeeds, every later one fails. *)
Definition first_only (n : nat) (argv : list string) : Populate.proc_result :=
  match n with
  | O => Populate.Exited 0 ""
  | _ => Populate.Exited 1 ""
  end.

Definition world (child : nat -> list string -> Populate.proc_result) : World :=
  mkWorld (fun p => p)
          (fun p => if String.eqb p "/home/u" then Some Sample.tree else None)
          None (fun p => "/home/u/.git-clone-cache") (fun _ => true)
          "/usr/bin/python3" child [] [].

Definition w_tree : World := world first_only.

End SampleWalk.

Module SampleMore.

Import Populate.

(** No git on the search path. *)
Definition w_no_git : World :=
  mkWorld (Sample.fs_of Sample.working_copy) (Sample.fake_git [] [] true) (fun _ => false)
          (fun _ => false) None (fun p => p) (fun _ => true) (Some Sample.cache) (fun p => p)
          "/opt/git-clone-cache" false [] [].

(** The cache root names a regular file. *)
Definition w_cache_is_file : World :=
  Sample.world [(Sample.app, Directory); ("/src/app/.git", Directory);
                (Sample.cache, RegularFile Unparsable)]
               (Sample.fake_git [(Sample.app, Sample.origin)] [Sample.app] true).


(** The index file cannot be opened for writing. *)
Definition w_index_read_only : World :=
  mkWorld (Sample.fs_of (Sample.working_copy ++ [(Sample.mirror, Directory)]))
          (Sample.fake_git [(Sample.app, Sample.origin)] [Sample.app] true)
          (fun p => String.eqb p "/cache/directory.json") (fun _ => false)
          (Some Sample.git) (fun p => p) (fun _ => true) (Some Sample.cache) (fun p => p)
          "/opt/git-clone-cache" false [] [].

(** The index holds two entries and can be opened, but nothing can be
    written to it: the disk is full. *)
Definition w_disk_full : World :=
  mkWorld (fs Sample.w_other_entry) (exec Sample.w_other_entry) (fun _ => false)
          (fun p => String.eqb p "/cache/directory.json")
          (Some Sample.git) (fun p => p) (fun _ => true) (Some Sample.cache) (fun p => p)
          "/opt/git-clone-cache" false [] [].

(** A URL whose last part is longer than a file name may be. *)
Definition long_name : string :=
  "https://example.com/" ++ String.concat "" (repeat "a" 300) ++ ".git".

(** [stat] of that name fails: the name is too long. *)
Definition w_long_name : World :=
  mkWorld (fun p => if String.eqb p (Path long_name) then Some NoStat
                    else Sample.fs_of Sample.working_copy p)
          (Sample.fake_git [(Sample.app, Sample.origin)] [Sample.app] true)
          (fun _ => false) (fun _ => false)
          (Some Sample.git) (fun p => p) (fun _ => true) (Some Sample.cache) (fun p => p)
          "/opt/git-clone-cache" false [] [].

(** The launch of git is refused. *)
Definition w_no_permission : World :=
  Sample.world Sample.working_copy
    (fun _ _ f => (LaunchError "PermissionError" "[Errno 13] Permission denied", f)).

(** The index file is there but does not parse. *)
Definition w_index_corrupt : World :=
  Sample.world (Sample.working_copy ++
                [(Sample.mirror, Directory);
                 ("/cache/directory.json", RegularFile Unparsable)])
               (Sample.fake_git [(Sample.app, Sample.origin)] [Sample.app] true).

(** A machine on which the script never ran: no cache root yet. *)
Definition w_bare : World :=
  Sample.world [("/", Directory); (Sample.app, Directory); ("/src/app/.git", Directory)]
               (Sample.fake_git [(Sample.app, Sample.origin)] [Sample.app] true).

End SampleMore.
Example sha256_constants :
  List.length Sha256.K = 64%nat
  /\ nth 0 Sha256.K 0%Z = 0x428a2f98%Z /\ nth 63 Sha256.K 0%Z = 0xc67178f2%Z
  /\ nth 0 Sha256.H0 0%Z = 0x6a09e667%Z /\ nth 7 Sha256.H0 0%Z = 0x5be0cd19%Z.
Proof. vm_compute. repeat split; reflexivity. Qed.

Example sha256_abc :
  Sha256.sha256_hexdigest "abc"
  = "ba7816bf8f01cfea414140de5dae2223b00361a396177a9cb410ff61f20015ad".
Proof. vm_compute. reflexivity. Qed.

Example sha256_empty :
  Sha256.sha256_hexdigest ""
  = "e3b0c44298fc1c149afbf4c8996fb92427ae41e4649b934ca495991b7852b855".
Proof. vm_compute. reflexivity. Qed.

Example sha256_two_blocks :
  Sha256.sha256_hexdigest
    "aaaaaaaaaaaaaaaaaaaaaaaaaaaaaaaaaaaaaaaaaaaaaaaaaaaaaaaaaaaaaaaaaaaaaa"
  = "6bd5e5034855a11241f0dee8fc72850ffd9955b28347a86428b5fa19119f6ad0".
Proof. vm_compute. reflexivity. Qed.

Example sample_find_repos :
  Discover.find_repos "/home/u" Sample.tree = ["/home/u/app"; "/home/u/work/lib"].
Proof. vm_compute. reflexivity. Qed.

Example sample_traversal :
  map fst (Discover.traversal "/home/u" Sample.tree)
  = ["/home/u"; "/home/u/app"; "/home/u/app/src"; "/home/u/work"; "/home/u/work/lib";
     "/home/u/work/lib/src"].
Proof. vm_compute. reflexivity. Qed.

Example utf8_well_formed :
  Sha256.utf8 (Sha256.bytes "https://example.com/repo.git") = true
  /\ Sha256.utf8 [0xC3; 0xA9]%Z = true                 (* U+00E9 *)
  /\ Sha256.utf8 [0xE2; 0x82; 0xAC]%Z = true           (* U+20AC *)
  /\ Sha256.utf8 [0xF4; 0x8F; 0xBF; 0xBF]%Z = true     (* U+10FFFF *)
  /\ Sha256.utf8 [0xFF]%Z = false
  /\ Sha256.utf8 [0xC0; 0x80]%Z = false                (* overlong *)
  /\ Sha256.utf8 [0xED; 0xA0; 0x80]%Z = false          (* a surrogate *)
  /\ Sha256.utf8 [0xF4; 0x90; 0x80; 0x80]%Z = false    (* above U+10FFFF *)
  /\ Sha256.utf8 [0xE2; 0x82]%Z = false.               (* cut short *)
Proof. vm_compute. repeat split; reflexivity. Qed.

Example white_space_bytes :
  List.length Populate.spaces = 29%nat
  /\ map Sha256.bytes (firstn 2 (skipn 10 Populate.spaces))
     = [[0xC2; 0x85]; [0xC2; 0xA0]]%Z
  /\ map Sha256.bytes (firstn 2 (skipn 12 Populate.spaces))
     = [[0xE1; 0x9A; 0x80]; [0xE2; 0x80; 0x80]]%Z
  /\ map Sha256.bytes (skipn 26 Populate.spaces)
     = [[0xE2; 0x80; 0xAF]; [0xE2; 0x81; 0x9F]; [0xE3; 0x80; 0x80]]%Z.
Proof. vm_compute. repeat split; reflexivity. Qed.

(** No-break space, line feed, the text, ideographic space, tab; and a
    lone continuation byte, which is no character, stays. *)
Example strip_sample :
  let nbsp := String "194" (String "160" "") in
  let ideographic := String "227" (String "128" (String "128" "")) in
  let lf := String "010" "" in
  let tab := String "009" "" in
  Populate.strip (nbsp ++ lf ++ "a b" ++ ideographic ++ tab) = "a b"
  /\ Populate.strip (String "160" "x ") = String "160" "x"
  /\ Populate.strip (nbsp ++ ideographic) = "".
Proof. vm_compute. repeat split; reflexivity. Qed.

Example parent_sample :
  map Populate.parent ["/a/b/cache"; "/a"; "/"; "a/b"; "a"; "."]
  = ["/a/b"; "/"; "/"; "a"; "."; "."].
Proof. vm_compute. reflexivity. Qed.
(* ================================================================== *)
(** ** Facts about SHA-256 and [hexdigest] *)
(* ================================================================== *)

Section HexFacts.

Import Sha256.
Local Open Scope Z_scope.

Lemma digit_value_hex_digit (d : Z) :
  0 <= d < 16 -> digit_value (hex_digit d) = d.
Proof.
  intros Hd.
  assert (H : d = 0 \/ d = 1 \/ d = 2 \/ d = 3 \/ d = 4 \/ d = 5 \/ d = 6 \/ d = 7 \/
              d = 8 \/ d = 9 \/ d = 10 \/ d = 11 \/ d = 12 \/ d = 13 \/ d = 14 \/ d = 15)
    by lia.
  repeat (destruct H as [-> | H]; [reflexivity | ]).
  subst d. reflexivity.
Qed.

Lemma hex_inj (xs ys : list Z) :
  Forall is_byte xs -> Forall is_byte ys -> hex xs = hex ys -> xs = ys.
Proof.
  intros Hx. revert ys.
  induction Hx as [| x xs Hbx _ IH]; intros ys Hy E.
  - destruct ys; [reflexivity | discriminate E].
  - destruct Hy as [| y ys Hby Hys]; [discriminate E | ].
    simpl in E. injection E as E1 E2 E3.
    assert (Hq : x / 16 = y / 16).
    { rewrite <- (digit_value_hex_digit (x / 16)), <- (digit_value_hex_digit (y / 16)).
      - now rewrite E1.
      - unfold is_byte in Hby. split; [apply Z.div_pos; lia | apply Z.div_lt_upper_bound; lia].
      - unfold is_byte in Hbx. split; [apply Z.div_pos; lia | apply Z.div_lt_upper_bound; lia]. }
    assert (Hr : x mod 16 = y mod 16).
    { rewrite <- (digit_value_hex_digit (x mod 16)), <- (digit_value_hex_digit (y mod 16)).
      - now rewrite E2.
      - apply Z.mod_pos_bound; lia.
      - apply Z.mod_pos_bound; lia. }
    f_equal.
    + rewrite (Z.div_mod x 16), (Z.div_mod y 16) by lia. now rewrite Hq, Hr.
    + now apply IH.
Qed.

Lemma be_bytes_are_bytes (n : nat) (x : Z) : Forall is_byte (be_bytes n x).
Proof.
  induction n as [| n IH]; simpl; constructor; [ | exact IH].
  apply Z.mod_pos_bound; lia.
Qed.

Lemma digest_is_bytes (msg : list Z) : Forall is_byte (digest msg).
Proof.
  unfold digest.
  generalize (fold_left compress
                (chunks (List.length (pad msg) / 64) 64 (pad msg)) H0).
  intros h. apply Forall_flat_map, Forall_forall.
  intros w _. apply be_bytes_are_bytes.
Qed.

Lemma hexdigest_inj (m1 m2 : list Z) :
  hex (digest m1) = hex (digest m2) -> digest m1 = digest m2.
Proof. apply hex_inj; apply digest_is_bytes. Qed.

Lemma bytes_inj (s1 s2 : string) : bytes s1 = bytes s2 -> s1 = s2.
Proof.
  unfold bytes. revert s2.
  induction s1 as [| c1 s1 IH]; intros [| c2 s2] E; simpl in E;
    try discriminate E; [reflexivity | ].
  injection E as Ec Es.
  apply N2Z.inj in Ec.
  f_equal; [ | now apply IH].
  rewrite <- (ascii_N_embedding c1), <- (ascii_N_embedding c2). now rewrite Ec.
Qed.

Lemma encode_bytes (s : string) (b : list Z) : encode s = Some b -> b = bytes s.
Proof. unfold encode. destruct (utf8 (bytes s)); [now intros [= <-] | discriminate]. Qed.

Lemma encode_inj (s1 s2 : string) (b : list Z) :
  encode s1 = Some b -> encode s2 = Some b -> s1 = s2.
Proof.
  intros E1 E2. apply encode_bytes in E1, E2. apply bytes_inj. congruence.
Qed.

End HexFacts.

(* ================================================================== *)
(** ** Facts about the index: [dict], [sort_keys] *)
(* ================================================================== *)

Section DictFacts.

Import Populate.

Lemma dict_get_set_same (d : dict) k v : dict_get (dict_set d k v) k = Some v.
Proof.
  induction d as [| [k' v'] d IH]; simpl.
  - now rewrite String.eqb_refl.
  - destruct (String.eqb k' k) eqn:E; simpl; rewrite E; [reflexivity | exact IH].
Qed.

Lemma dict_get_set_other (d : dict) k v k' :
  k' <> k -> dict_get (dict_set d k v) k' = dict_get d k'.
Proof.
  intros Hne. induction d as [| [k0 v0] d IH]; simpl.
  - destruct (String.eqb k k') eqn:E; [ | reflexivity].
    apply String.eqb_eq in E. congruence.
  - destruct (String.eqb k0 k) eqn:E; simpl.
    + apply String.eqb_eq in E. subst k0.
      destruct (String.eqb k k') eqn:E'; [ | reflexivity].
      apply String.eqb_eq in E'. congruence.
    + now rewrite IH.
Qed.

Lemma dict_set_new (d : dict) k v :
  ~ In k (keys d) -> dict_set d k v = d ++ [(k, v)].
Proof.
  induction d as [| [k' v'] d IH]; simpl; intros Hn; [reflexivity | ].
  destruct (String.eqb k' k) eqn:E.
  - apply String.eqb_eq in E. tauto.
  - rewrite IH; tauto.
Qed.

Lemma keys_dict_set_old (d : dict) k v :
  In k (keys d) -> keys (dict_set d k v) = keys d.
Proof.
  induction d as [| [k' v'] d IH]; simpl; intros Hin; [tauto | ].
  destruct (String.eqb k' k) eqn:E; simpl; [reflexivity | ].
  f_equal. apply IH. destruct Hin as [-> | Hin]; [ | exact Hin].
  now rewrite String.eqb_refl in E.
Qed.

Lemma NoDup_keys_dict_set (d : dict) k v :
  NoDup (keys d) -> NoDup (keys (dict_set d k v)).
Proof.
  intros Hd. destruct (in_dec string_dec k (keys d)) as [Hin | Hn].
  - now rewrite keys_dict_set_old.
  - rewrite dict_set_new by exact Hn. unfold keys. rewrite map_app. simpl.
    apply NoDup_app; [exact Hd | repeat constructor; simpl; tauto | ].
    intros x Hx [<- | []]. exact (Hn Hx).
Qed.

Lemma NoDup_keys_fold (ps : list (string * pyval)) (acc : dict) :
  NoDup (keys acc) ->
  NoDup (keys (fold_left (fun d kv => dict_set d (fst kv) (snd kv)) ps acc)).
Proof.
  revert acc. induction ps as [| p ps IH]; simpl; intros acc Hacc; [exact Hacc | ].
  apply IH. now apply NoDup_keys_dict_set.
Qed.

Lemma NoDup_keys_dict_of_pairs ps : NoDup (keys (dict_of_pairs ps)).
Proof. apply NoDup_keys_fold. constructor. Qed.

Lemma fold_dict_set_fresh (ps : list (string * pyval)) (acc : dict) :
  NoDup (keys (acc ++ ps)) ->
  fold_left (fun d kv => dict_set d (fst kv) (snd kv)) ps acc = acc ++ ps.
Proof.
  revert acc. induction ps as [| [k v] ps IH]; simpl; intros acc Hnd.
  - now rewrite app_nil_r.
  - assert (Hn : ~ In k (keys acc)).
    { unfold keys in Hnd. rewrite map_app in Hnd. simpl in Hnd.
      apply NoDup_remove_2 in Hnd. intros Hin. apply Hnd.
      apply in_or_app. now left. }
    rewrite dict_set_new by exact Hn.
    rewrite IH; rewrite <- app_assoc; simpl; [reflexivity | exact Hnd].
Qed.

(** Loading what has unique keys gives it back as it is. *)
Lemma dict_of_pairs_unique ps : NoDup (keys ps) -> dict_of_pairs ps = ps.
Proof. intros H. unfold dict_of_pairs. now rewrite fold_dict_set_fresh. Qed.

Lemma dict_get_In (d : dict) k v :
  NoDup (keys d) -> In (k, v) d -> dict_get d k = Some v.
Proof.
  induction d as [| [k' v'] d IH]; simpl; intros Hnd Hin; [tauto | ].
  inversion Hnd as [| ? ? Hk Hd]; subst.
  destruct Hin as [E | Hin].
  - injection E as -> ->. now rewrite String.eqb_refl.
  - destruct (String.eqb k' k) eqn:E.
    + apply String.eqb_eq in E. subst k'. exfalso. apply Hk.
      change k with (fst (k, v)). now apply in_map.
    + now apply IH.
Qed.

Lemma dict_get_Some_In (d : dict) k v : dict_get d k = Some v -> In (k, v) d.
Proof.
  induction d as [| [k' v'] d IH]; simpl; [discriminate | ].
  destruct (String.eqb k' k) eqn:E.
  - apply String.eqb_eq in E. intros [= ->]. left. now subst.
  - intros H. right. now apply IH.
Qed.

Lemma dict_get_perm (d1 d2 : dict) k :
  Permutation d1 d2 -> NoDup (keys d1) -> dict_get d1 k = dict_get d2 k.
Proof.
  intros Hp Hnd.
  assert (Hnd2 : NoDup (keys d2)).
  { eapply Permutation_NoDup; [ | exact Hnd]. now apply Permutation_map. }
  destruct (dict_get d1 k) as [v | ] eqn:E1.
  - symmetry. apply dict_get_In; [exact Hnd2 | ].
    eapply Permutation_in; [exact Hp | now apply dict_get_Some_In].
  - destruct (dict_get d2 k) as [v | ] eqn:E2; [ | reflexivity].
    apply dict_get_Some_In in E2.
    apply Permutation_sym in Hp.
    rewrite (dict_get_In d1 k v Hnd (Permutation_in _ Hp E2)) in E1. discriminate E1.
Qed.

(** *** The order of [str] *)

Lemma leb_refl (a : string) : String.leb a a = true.
Proof. destruct (String.leb_total a a); assumption. Qed.

Lemma compare_trans_le (a b c : string) :
  String.compare a b <> Gt -> String.compare b c <> Gt -> String.compare a c <> Gt.
Proof.
  revert b c. induction a as [| x a IH]; intros [| y b] [| z c]; simpl;
    try congruence.
  unfold Ascii.compare.
  destruct (N.compare_spec (N_of_ascii x) (N_of_ascii y)) as [Exy | Lxy | Gxy];
    destruct (N.compare_spec (N_of_ascii y) (N_of_ascii z)) as [Eyz | Lyz | Gyz];
    destruct (N.compare_spec (N_of_ascii x) (N_of_ascii z)) as [Exz | Lxz | Gxz];
    try congruence; try lia.
  apply IH.
Qed.

Lemma leb_trans (a b c : string) :
  String.leb a b = true -> String.leb b c = true -> String.leb a c = true.
Proof.
  unfold String.leb. intros Hab Hbc.
  pose proof (compare_trans_le a b c) as H.
  destruct (String.compare a b), (String.compare b c), (String.compare a c);
    try reflexivity; try discriminate; exfalso; apply H; congruence.
Qed.

Lemma insert_by_key_perm kv l : Permutation (insert_by_key kv l) (kv :: l).
Proof.
  induction l as [| kv' l IH]; simpl; [reflexivity | ].
  destruct (String.leb (fst kv) (fst kv')); [reflexivity | ].
  rewrite IH. apply perm_swap.
Qed.

Lemma sort_keys_perm (d : dict) : Permutation (sort_keys d) d.
Proof.
  induction d as [| kv d IH]; simpl; [reflexivity | ].
  rewrite insert_by_key_perm. now constructor.
Qed.

Lemma insert_by_key_sorted kv l :
  StronglySorted key_le l -> StronglySorted key_le (insert_by_key kv l).
Proof.
  induction 1 as [| kv' l Hl IH Hall]; simpl.
  - repeat constructor.
  - destruct (String.leb (fst kv) (fst kv')) eqn:E.
    + constructor; [now constructor | ].
      constructor; [exact E | ].
      eapply Forall_impl; [ | exact Hall].
      intros x Hx. unfold key_le in *. eapply leb_trans; eassumption.
    + constructor; [exact IH | ].
      eapply Permutation_Forall; [symmetry; apply insert_by_key_perm | ].
      constructor; [ | exact Hall].
      unfold key_le. destruct (String.leb_total (fst kv) (fst kv')); congruence.
Qed.

Lemma sort_keys_sorted (d : dict) : StronglySorted key_le (sort_keys d).
Proof.
  induction d as [| kv d IH]; simpl; [constructor | now apply insert_by_key_sorted].
Qed.

Lemma sorted_unique (l1 l2 : list (string * pyval)) :
  StronglySorted key_le l1 -> StronglySorted key_le l2 ->
  Permutation l1 l2 -> NoDup (keys l1) -> l1 = l2.
Proof.
  intros H1. revert l2.
  induction H1 as [| a l1 Hs1 IH Ha]; intros l2 H2 Hp Hnd.
  - apply Permutation_nil in Hp. now subst.
  - destruct H2 as [| b l2 Hs2 Hb].
    + apply Permutation_sym, Permutation_nil in Hp. discriminate Hp.
    + assert (Eab : a = b).
      { assert (Hin_b : In b (a :: l1))
          by (eapply Permutation_in; [symmetry; exact Hp | now left]).
        assert (Hin_a : In a (b :: l2))
          by (eapply Permutation_in; [exact Hp | now left]).
        destruct Hin_b as [E | Hin_b]; [exact E | ].
        destruct Hin_a as [E | Hin_a]; [now symmetry | ].
        rewrite Forall_forall in Ha, Hb.
        assert (Ek : fst a = fst b)
          by (apply String.leb_antisym; [apply Ha | apply Hb]; assumption).
        exfalso. simpl in Hnd. inversion Hnd as [| ? ? Hk _]; subst.
        apply Hk. rewrite Ek. now apply in_map. }
      subst b. f_equal.
      apply IH; [exact Hs2 | now apply Permutation_cons_inv with a | ].
      now inversion Hnd.
Qed.

(** What [sort_keys=True] writes depends on the entries of the
    mapping only, not on the order they were inserted in. *)
Lemma sort_keys_canonical (d1 d2 : dict) :
  Permutation d1 d2 -> NoDup (keys d1) -> sort_keys d1 = sort_keys d2.
Proof.
  intros Hp Hnd. apply sorted_unique; try apply sort_keys_sorted.
  - rewrite !sort_keys_perm. exact Hp.
  - eapply Permutation_NoDup; [ | exact Hnd].
    apply Permutation_map. symmetry. apply sort_keys_perm.
Qed.

Lemma NoDup_keys_sort_keys (d : dict) : NoDup (keys d) -> NoDup (keys (sort_keys d)).
Proof.
  intros Hnd. eapply Permutation_NoDup; [ | exact Hnd].
  apply Permutation_map. symmetry. apply sort_keys_perm.
Qed.

(** Reading back what was written gives the entries that were written. *)
Lemma dict_get_reload (d : dict) k :
  NoDup (keys d) -> dict_get (dict_of_pairs (sort_keys d)) k = dict_get d k.
Proof.
  intros Hnd.
  rewrite dict_of_pairs_unique by now apply NoDup_keys_sort_keys.
  apply dict_get_perm; [apply sort_keys_perm | now apply NoDup_keys_sort_keys].
Qed.

End DictFacts.

(* ================================================================== *)
(** ** Facts about the populator *)
(* ================================================================== *)

Section PopulateFacts.

Import Populate PopulateSpec.
Local Open Scope py_scope.

(** What only prints leaves everything but the output alone. *)
Lemma emit_eq s line lf w :
  emit s line lf w
  = (Ret tt, add_output ((s, line) :: if lf then [(LogFile, line)] else []) w).
Proof. reflexivity. Qed.

Lemma run_git_command_spec cmd args lf w :
  exists w',
    run_git_command cmd args lf w
    = (Ret (exit_ok (git_result w (cmd :: args) lf)), w')
    /\ calls w' = calls w ++ launched lf [cmd :: args]
    /\ fs w' = git_files w (cmd :: args) lf
    /\ exec w' = exec w
    /\ write_denied w' = write_denied w
    /\ dump_fails w' = dump_fails w.
Proof.
  unfold run_git_command, git_result, git_files, launched, next_exec, popen, tee_error,
    bind, info, error, emit, modify, spawn, ret.
  destruct lf; simpl.
  - eexists. repeat split. simpl. now rewrite app_nil_r.
  - destruct (exec w (List.length (calls w)) (cmd :: args) (fs w)) as [r f] eqn:E.
    simpl. destruct r as [cls msg | rc out]; simpl.
    + eexists. repeat split.
    + destruct (rc =? 0)%Z; simpl; eexists; repeat split.
Qed.

Lemma set_origin_url_spec mirror git url lf w :
  exists w',
    set_origin_url mirror git url lf w
    = (Ret (exit_ok (git_result w (cmd_set_url git mirror url) lf)), w')
    /\ calls w' = calls w ++ launched lf [cmd_set_url git mirror url]
    /\ fs w' = git_files w (cmd_set_url git mirror url) lf
    /\ exec w' = exec w
    /\ write_denied w' = write_denied w
    /\ dump_fails w' = dump_fails w.
Proof.
  unfold set_origin_url, bind, info, emit, modify.
  destruct (run_git_command_spec git ["-C"; mirror; "remote"; "set-url"; "origin"; url] lf
              (add_output
                 ((Stdout, (tag_info ++ "Setting origin URL for cache mirror: " ++ mirror)%string)
                  :: (if lf then [(LogFile, (tag_info ++ "Setting origin URL for cache mirror: " ++ mirror)%string)] else []))
                 w))
    as (w' & E & Hc & Hf & He & Hd & Hd').
  exists w'. repeat split; assumption.
Qed.

(** The index update launches nothing and touches no other path. *)
Lemma update_directory_json_frame cache url key lf w :
  let w' := snd (update_directory_json cache url key lf w) in
  calls w' = calls w
  /\ exec w' = exec w
  /\ write_denied w' = write_denied w
  /\ dump_fails w' = dump_fails w
  /\ forall q, q <> index_path cache -> fs w' q = fs w q.
Proof.
  unfold update_directory_json, index_path, bind, path_exists, read_json, get,
    write_json, info, error, emit, modify, ret, raise.
  simpl.
  destruct (fs w (joinpath cache "directory.json")) as [[| [| members |] |] |] eqn:Ef; simpl;
    rewrite ?Ef; simpl.
  all: try (repeat split; reflexivity).
  all: try match goal with
           | |- context [differs ?a ?b] => destruct (differs a b); simpl
           end.
  all: rewrite ?Ef; simpl.
  all: try (repeat split; reflexivity).
  all: destruct (write_denied w (joinpath cache "directory.json")); simpl.
  all: try (repeat split; reflexivity).
  all: destruct (dump_fails w (joinpath cache "directory.json")); simpl.
  all: repeat split; try reflexivity.
  all: intros q Hq; unfold fs_put; apply String.eqb_neq in Hq; now rewrite Hq.
Qed.

Lemma NoDup_keys_start_mapping w cache : NoDup (keys (start_mapping w cache)).
Proof.
  unfold start_mapping. destruct (index_members w cache).
  - apply NoDup_keys_dict_of_pairs.
  - constructor.
Qed.

Lemma differs_same key : differs (Some (PStr key)) key = false.
Proof. simpl. now rewrite String.eqb_refl. Qed.

Lemma differs_false v key : differs v key = false -> v = Some (PStr key).
Proof.
  destruct v as [[s | n] | ]; simpl; try discriminate.
  intros H. apply negb_false_iff, String.eqb_eq in H. now subst.
Qed.

(** The ways an index update can go. *)
Lemma update_directory_json_cases cache url key lf w :
  let p := index_path cache in
  let d := start_mapping w cache in
  let r := update_directory_json cache url key lf w in
  (fs w p = Some NoStat /\ r = (Raise "OSError", w))
  \/ (fs w p = Some (RegularFile JsonOther) /\ r = (Raise "AttributeError", w))
  \/ (index_usable w cache
      /\ differs (dict_get d url) key = false /\ r = (Ret tt, w))
  \/ (index_usable w cache
      /\ differs (dict_get d url) key = true
      /\ (fs w p = Some Directory \/ write_denied w p = true)
      /\ fst r = Ret tt /\ fs (snd r) = fs w
      /\ write_denied (snd r) = write_denied w
      /\ dump_fails (snd r) = dump_fails w)
  \/ (index_usable w cache
      /\ differs (dict_get d url) key = true
      /\ fs w p <> Some Directory /\ write_denied w p = false /\ dump_fails w p = true
      /\ fst r = Ret tt
      /\ fs (snd r) = fs_put p (RegularFile Unparsable) (fs w))
  \/ (index_usable w cache
      /\ differs (dict_get d url) key = true
      /\ fs w p <> Some Directory /\ write_denied w p = false /\ dump_fails w p = false
      /\ fst r = Ret tt
      /\ fs (snd r)
         = fs_put p (RegularFile (JsonObject (sort_keys (dict_set d url (PStr key)))))
                  (fs w)).
Proof.
  unfold index_usable, update_directory_json, start_mapping, index_members, index_path, bind,
    path_exists, read_json, get, write_json, info, error, emit, modify, ret, raise.
  simpl.
  destruct (fs w (joinpath cache "directory.json")) as [[| [| members |] |] |] eqn:Ef;
    repeat (progress (simpl; rewrite ?Ef)).
  4: { right. left. split; reflexivity. }
  4: { left. split; reflexivity. }
  all: try match goal with
           | |- context [differs ?a ?b] => destruct (differs a b) eqn:Edf
           end.
  all: repeat (progress (simpl; rewrite ?Ef)).
  all: try (right; right; left; repeat split; congruence).
  all: destruct (write_denied w (joinpath cache "directory.json")) eqn:Ed; simpl.
  all: try (right; right; right; left; repeat split; try congruence; tauto).
  all: destruct (dump_fails w (joinpath cache "directory.json")) eqn:Ed'; simpl.
  all: try (right; right; right; right; left; repeat split; congruence).
  all: try (right; right; right; right; right; repeat split; congruence).
Qed.

Lemma index_entry_after_write w w' cache d u :
  NoDup (keys d) ->
  fs w' = fs_put (index_path cache) (RegularFile (JsonObject (sort_keys d))) (fs w) ->
  index_members w' cache = Some (sort_keys d) /\ index_entry w' cache u = dict_get d u.
Proof.
  intros Hnd Hfs. unfold index_entry, index_members. rewrite Hfs. unfold fs_put.
  rewrite String.eqb_refl. split; [reflexivity | now apply dict_get_reload].
Qed.

Lemma index_entry_start_mapping w cache u :
  index_entry w cache u = dict_get (start_mapping w cache) u.
Proof. unfold index_entry, start_mapping. now destruct (index_members w cache). Qed.

Lemma differs_true_iff v key : differs v key = true <-> v <> Some (PStr key).
Proof.
  split.
  - intros H ->. rewrite differs_same in H. discriminate H.
  - intros H. destruct (differs v key) eqn:E; [reflexivity | ].
    apply differs_false in E. contradiction.
Qed.

(** An update run on a world with the same files and the same refusals
    goes the same way. *)
Lemma update_directory_json_same_files cache url key lf w1 w2 :
  fs w1 = fs w2 -> write_denied w1 = write_denied w2 -> dump_fails w1 = dump_fails w2 ->
  fst (update_directory_json cache url key lf w1)
  = fst (update_directory_json cache url key lf w2)
  /\ (fs (snd (update_directory_json cache url key lf w1))
      = fs (snd (update_directory_json cache url key lf w2))).
Proof.
  intros Hf Hd Hd'.
  unfold update_directory_json, bind, path_exists, read_json, get,
    write_json, info, error, emit, modify, ret, raise.
  simpl. rewrite <- ?Hf, <- ?Hd, <- ?Hd'.
  destruct (fs w1 (joinpath cache "directory.json")) as [[| [| members |] |] |] eqn:Ef;
    repeat (progress (simpl; rewrite <- ?Hf, <- ?Hd, <- ?Hd', ?Ef)).
  all: try match goal with
           | |- context [differs ?a ?b] => destruct (differs a b)
           end.
  all: repeat (progress (simpl; rewrite <- ?Hf, <- ?Hd, <- ?Hd', ?Ef)).
  all: try destruct (write_denied w1 (joinpath cache "directory.json")); simpl.
  all: try destruct (dump_fails w1 (joinpath cache "directory.json")); simpl.
  all: rewrite <- ?Hf; repeat split; try reflexivity; congruence.
Qed.

(** After an update that got the index written, the index holds the key. *)
Lemma index_written cache url key lf w :
  let p := index_path cache in
  let d := start_mapping w cache in
  let r := update_directory_json cache url key lf w in
  index_entry w cache url <> Some (PStr key) ->
  index_usable w cache -> fs w p <> Some Directory ->
  write_denied w p = false -> dump_fails w p = false ->
  fst r = Ret tt
  /\ fs (snd r)
     = fs_put p (RegularFile (JsonObject (sort_keys (dict_set d url (PStr key))))) (fs w)
  /\ index_members (snd r) cache = Some (sort_keys (dict_set d url (PStr key)))
  /\ forall u, index_entry (snd r) cache u = dict_get (dict_set d url (PStr key)) u.
Proof.
  intros p d r He [Hs Ho] Hdir Hw Hdf.
  rewrite index_entry_start_mapping in He. fold d in He.
  apply differs_true_iff in He.
  pose proof (NoDup_keys_start_mapping w cache) as Hnd.
  assert (Hnd' : NoDup (keys (dict_set d url (PStr key))))
    by now apply NoDup_keys_dict_set.
  pose proof (update_directory_json_cases cache url key lf w) as Hc.
  cbv zeta in Hc. fold p d r in Hc.
  destruct Hc as [[Hf _] | [[Hf _] | [(_ & Hd & _) | [(_ & _ & [Hf | Hf] & _)
                 | [(_ & _ & _ & _ & Hf & _) | (_ & _ & _ & _ & _ & Hr & E)]]]]].
  1-6: unfold p in *; try congruence.
  split; [exact Hr | split; [exact E | ]].
  split.
  - exact (proj1 (index_entry_after_write w (snd r) cache _ url Hnd' E)).
  - intros u. exact (proj2 (index_entry_after_write w (snd r) cache _ u Hnd' E)).
Qed.

End PopulateFacts.
Section PopulateCacheFacts.

Import Populate PopulateSpec.
Local Open Scope py_scope.

Variables (url mirror git src cache : string) (lf : bool) (w : World).

(** [stat] of the mirror path fails: the exception leaves [populate_cache]. *)
Lemma populate_cache_no_stat :
  fs w mirror = Some NoStat ->
  populate_cache url mirror git src cache lf w = (Raise "OSError", w).
Proof.
  intros Em. unfold populate_cache. unfold bind at 1. unfold path_exists. now rewrite Em.
Qed.

(** The mirror is there: fetch, fix the origin, update the index. *)
Lemma populate_cache_present :
  fs w mirror <> None -> fs w mirror <> Some NoStat ->
  exists w2,
    calls w2 = calls w ++ launched lf [cmd_fetch git mirror; cmd_set_url git mirror url]
    /\ fs w2 = git_files2 w (cmd_fetch git mirror) (cmd_set_url git mirror url) lf
    /\ write_denied w2 = write_denied w
    /\ dump_fails w2 = dump_fails w
    /\ exec w2 = exec w
    /\ populate_cache url mirror git src cache lf w
       = let '(o, w3) := update_directory_json cache url (path_name mirror) lf w2 in
         match o with
         | Ret _ =>
             if exit_ok (git_result w (cmd_fetch git mirror) lf)
             then (Ret true, w3)
             else (Ret false, snd (error ("Failed to update cache for " ++ url) lf w3))
         | Raise e => (Raise e, w3)
         | SysExit c => (SysExit c, w3)
         end.
Proof.
  intros Hp Hs.
  unfold populate_cache. unfold bind at 1. unfold path_exists.
  assert (Em : (match fs w mirror with
                | Some NoStat => (@Raise bool "OSError", w)
                | Some _ => (Ret true, w)
                | None => (Ret false, w)
                end) = (Ret true, w))
    by (destruct (fs w mirror) as [[| c |] |]; congruence).
  rewrite Em. clear Em.
  unfold bind at 1. unfold info at 1. rewrite emit_eq.
  set (w0 := add_output _ w).
  unfold bind at 1.
  destruct (run_git_command_spec git ["-C"; mirror; "fetch"; "--all"] lf w0)
    as (w1 & E1 & Hc1 & Hf1 & He1 & Hd1 & Hd1').
  rewrite E1.
  unfold bind at 1.
  destruct (set_origin_url_spec mirror git url lf w1)
    as (w2 & E2 & Hc2 & Hf2 & He2 & Hd2 & Hd2').
  rewrite E2.
  exists w2. repeat split.
  - rewrite Hc2, Hc1. subst w0. unfold launched. destruct lf; simpl.
    + now rewrite !app_nil_r.
    + now rewrite <- app_assoc.
  - rewrite Hf2. unfold git_files, git_files2, next_exec in *. destruct lf.
    + rewrite Hf1. reflexivity.
    + rewrite He1, Hc1, Hf1. subst w0. simpl.
      rewrite length_app. simpl. now rewrite Nat.add_1_r.
  - rewrite Hd2, Hd1. reflexivity.
  - rewrite Hd2', Hd1'. reflexivity.
  - rewrite He2, He1. reflexivity.
  - unfold bind at 1.
    destruct (update_directory_json cache url (path_name mirror) lf w2) as [[[] | e | c] w3];
      try reflexivity.
    change (git_result w0 (git :: ["-C"; mirror; "fetch"; "--all"]) lf)
      with (git_result w (cmd_fetch git mirror) lf).
    destruct (exit_ok (git_result w (cmd_fetch git mirror) lf)); reflexivity.
Qed.

Lemma populate_cache_absent_step :
  fs w mirror = None ->
  exists w1,
    calls w1 = calls w ++ launched lf [cmd_clone git src mirror]
    /\ fs w1 = git_files w (cmd_clone git src mirror) lf
    /\ exec w1 = exec w
    /\ write_denied w1 = write_denied w
    /\ dump_fails w1 = dump_fails w
    /\ populate_cache url mirror git src cache lf w
       = (if exit_ok (git_result w (cmd_clone git src mirror) lf)
          then info ("  -> " ++ mirror) lf ;;
               set_origin_url mirror git url lf ;;
               update_directory_json cache url (path_name mirror) lf ;;
               ret true
          else error ("Failed to cache " ++ url) lf ;; ret false) w1.
Proof.
  intros Em.
  unfold populate_cache. unfold bind at 1. unfold path_exists. rewrite Em.
  unfold bind at 1. unfold info at 1. rewrite emit_eq.
  set (w0 := add_output _ w).
  unfold bind at 1.
  destruct (run_git_command_spec git ["clone"; "--mirror"; src; mirror] lf w0)
    as (w1 & E1 & Hc1 & Hf1 & He1 & Hd1 & Hd1').
  rewrite E1.
  exists w1. repeat split; assumption.
Qed.

(** The mirror is missing: clone, and go on only if the clone went through. *)
Lemma populate_cache_absent :
  fs w mirror = None ->
  if exit_ok (git_result w (cmd_clone git src mirror) lf)
  then
    exists w2,
      calls w2 = calls w ++ [cmd_clone git src mirror; cmd_set_url git mirror url]
      /\ fs w2 = git_files2 w (cmd_clone git src mirror) (cmd_set_url git mirror url) lf
      /\ write_denied w2 = write_denied w
      /\ dump_fails w2 = dump_fails w
      /\ exec w2 = exec w
      /\ populate_cache url mirror git src cache lf w
         = let '(o, w3) := update_directory_json cache url (path_name mirror) lf w2 in
           (match o with
            | Ret _ => Ret true
            | Raise e => Raise e
            | SysExit c => SysExit c
            end, w3)
  else
    fst (populate_cache url mirror git src cache lf w) = Ret false
    /\ calls (snd (populate_cache url mirror git src cache lf w))
       = calls w ++ launched lf [cmd_clone git src mirror]
    /\ fs (snd (populate_cache url mirror git src cache lf w))
       = git_files w (cmd_clone git src mirror) lf
    /\ exec (snd (populate_cache url mirror git src cache lf w)) = exec w.
Proof.
  intros Em.
  destruct (populate_cache_absent_step Em) as (w1 & Hc1 & Hf1 & He1 & Hd1 & Hd1' & E).
  rewrite E. clear E.
  destruct (exit_ok (git_result w (cmd_clone git src mirror) lf)) eqn:Ok.
  - assert (Hlf : lf = false) by (destruct lf; [discriminate Ok | reflexivity]).
    unfold bind at 1. unfold info at 1. rewrite emit_eq.
    set (w1' := add_output _ w1).
    unfold bind at 1.
    destruct (set_origin_url_spec mirror git url lf w1')
      as (w2 & E2 & Hc2 & Hf2 & He2 & Hd2 & Hd2').
    rewrite E2.
    exists w2. repeat split.
    + rewrite Hc2. subst w1'. simpl. rewrite Hc1. rewrite Hlf. simpl.
      now rewrite <- app_assoc.
    + rewrite Hf2. unfold git_files, git_files2, next_exec in *. rewrite Hlf in *.
      subst w1'. simpl. rewrite He1, Hc1, Hf1.
      rewrite length_app. simpl. now rewrite Nat.add_1_r.
    + rewrite Hd2. subst w1'. simpl. exact Hd1.
    + rewrite Hd2'. subst w1'. simpl. exact Hd1'.
    + rewrite He2. subst w1'. simpl. exact He1.
    + unfold bind at 1.
      destruct (update_directory_json cache url (path_name mirror) lf w2)
        as [[[] | e | c] w3]; reflexivity.
  - unfold bind at 1. unfold error at 1. rewrite emit_eq. simpl.
    repeat split; assumption.
Qed.

End PopulateCacheFacts.

Section WithLog.

Import Populate PopulateSpec.
Local Open Scope py_scope.

Variables (url mirror git src cache : string) (w : World).

(** With a log file nothing is launched and success is never reported. *)
Lemma populate_cache_with_log :
  calls (snd (populate_cache url mirror git src cache true w)) = calls w
  /\ fst (populate_cache url mirror git src cache true w) <> Ret true.
Proof.
  destruct (fs w mirror) as [[| c |] |] eqn:Em.
  4: { pose proof (populate_cache_absent url mirror git src cache true w Em) as H. cbn in H.
       destruct H as (H1 & H2 & _ & _). split.
       - rewrite H2. apply app_nil_r.
       - rewrite H1. discriminate. }
  3: { rewrite (populate_cache_no_stat url mirror git src cache true w Em).
       split; [reflexivity | discriminate]. }
  all: destruct (populate_cache_present url mirror git src cache true w)
    as (w2 & Hc & _ & _ & _ & _ & E); try congruence.
  all: rewrite E.
  all: pose proof (update_directory_json_frame cache url (path_name mirror) true w2)
    as (Hc' & _).
  all: destruct (update_directory_json cache url (path_name mirror) true w2)
    as [[[] | e | c'] w3]; cbn in *.
  all: split; try discriminate; try congruence.
  all: rewrite Hc', Hc; apply app_nil_r.
Qed.

End WithLog.
Section ProcessArgFacts.

Import Populate PopulateSpec.
Local Open Scope py_scope.

Lemma compute_cache_key_eq url w :
  encodable url = true ->
  compute_cache_key url w
  = (Ret (Sha256.sha256_hexdigest url),
     add_output [(Stdout, (tag_info ++ "Computing cache key for URL: " ++ url)%string);
                 (Stdout, (tag_info ++ "Cache key: " ++ Sha256.sha256_hexdigest url)%string)]
                w).
Proof.
  unfold encodable. intros E.
  unfold compute_cache_key, Sha256.encode, Sha256.sha256_hexdigest. rewrite E.
  unfold bind, info, emit, modify, ret. simpl.
  unfold add_output. simpl. now rewrite <- app_assoc.
Qed.

Lemma compute_cache_key_raises url w :
  encodable url = false ->
  compute_cache_key url w
  = (Raise "UnicodeEncodeError",
     add_output [(Stdout, (tag_info ++ "Computing cache key for URL: " ++ url)%string)] w).
Proof.
  unfold encodable. intros E.
  unfold compute_cache_key, Sha256.encode. rewrite E. reflexivity.
Qed.

(** The key computation launches nothing and writes no file. *)
Lemma compute_cache_key_frame url w :
  let r := compute_cache_key url w in
  (fst r = Ret (Sha256.sha256_hexdigest url) \/ fst r = Raise "UnicodeEncodeError")
  /\ (fst r = Raise "UnicodeEncodeError" <-> encodable url = false)
  /\ calls (snd r) = calls w /\ fs (snd r) = fs w /\ exec (snd r) = exec w
  /\ write_denied (snd r) = write_denied w /\ dump_fails (snd r) = dump_fails w.
Proof.
  destruct (encodable url) eqn:E.
  - rewrite (compute_cache_key_eq url w E). cbn. repeat split; try discriminate. now left.
  - rewrite (compute_cache_key_raises url w E). cbn. repeat split. now right.
Qed.

Lemma get_origin_url_spec repo git w :
  let q := fst (next_exec w (cmd_get_url git repo)) in
  exists w1,
    get_origin_url repo git w
    = (match escapes q with
       | Some cls => Raise cls
       | None => Ret (origin_of q)
       end, w1)
    /\ calls w1 = calls w ++ [cmd_get_url git repo]
    /\ fs w1 = snd (next_exec w (cmd_get_url git repo))
    /\ exec w1 = exec w
    /\ write_denied w1 = write_denied w
    /\ dump_fails w1 = dump_fails w
    /\ (exists l, output w1 = output w ++ l).
Proof.
  unfold get_origin_url, next_exec, cmd_get_url, escapes, origin_of, bind, info, error, emit,
    modify, spawn, ret, raise.
  simpl.
  destruct (exec w (List.length (calls w)) [git; "-C"; repo; "remote"; "get-url"; "origin"]
              (fs w)) as [r f] eqn:E.
  simpl. destruct r as [cls msg | rc out]; simpl.
  - destruct (caught cls); simpl; eexists; repeat split; simpl.
    + rewrite <- app_assoc. eexists. reflexivity.
    + eexists. reflexivity.
  - destruct (rc =? 0)%Z; simpl; eexists; repeat split; eexists; reflexivity.
Qed.

Lemma is_local_repo_eq arg w :
  is_local_repo arg w
  = (match fs w (Path arg) with
     | Some NoStat => Raise "OSError"
     | Some Directory =>
         match fs w (joinpath (Path arg) ".git") with
         | Some NoStat => Raise "OSError"
         | Some _ => Ret true
         | None => Ret false
         end
     | _ => Ret false
     end, w).
Proof.
  unfold is_local_repo, bind, path_is_dir, path_exists, ret.
  destruct (fs w (Path arg)) as [[| c |] | ]; try reflexivity.
  destruct (fs w (joinpath (Path arg) ".git")) as [[| c |] | ]; reflexivity.
Qed.

(** A path that does not exist: an error, and on to the next argument. *)
Lemma process_arg_missing git cache arg w :
  fs w (Path arg) = None ->
  process_arg git cache arg w
  = (Ret tt, add_output [(Stderr, (tag_error ++ "Path does not exist: " ++ arg)%string);
                         (LogFile, (tag_error ++ "Path does not exist: " ++ arg)%string)] w).
Proof.
  intros E. unfold process_arg. unfold bind at 1. unfold path_exists. rewrite E.
  reflexivity.
Qed.

(** [stat] of the argument fails otherwise: the exception leaves the loop. *)
Lemma process_arg_no_stat git cache arg w :
  fs w (Path arg) = Some NoStat ->
  process_arg git cache arg w = (Raise "OSError", w).
Proof.
  intros E. unfold process_arg. unfold bind at 1. unfold path_exists. now rewrite E.
Qed.

(** [stat] of [.git] in the argument fails: the same. *)
Lemma process_arg_git_no_stat git cache arg w :
  fs w (Path arg) = Some Directory ->
  fs w (joinpath (Path arg) ".git") = Some NoStat ->
  process_arg git cache arg w = (Raise "OSError", w).
Proof.
  intros E Eg. unfold process_arg. unfold bind at 1. unfold path_exists. rewrite E.
  cbv beta iota. change (negb true) with false. cbv beta iota.
  unfold bind at 1. now rewrite is_local_repo_eq, E, Eg.
Qed.

(** A directory that is no working copy: an error, and on. *)
Lemma process_arg_plain_directory git cache arg w :
  fs w (Path arg) = Some Directory ->
  fs w (joinpath (Path arg) ".git") = None ->
  process_arg git cache arg w
  = (Ret tt, add_output [(Stderr, (tag_error ++ "Not a git repo: " ++ arg)%string);
                         (LogFile, (tag_error ++ "Not a git repo: " ++ arg)%string)] w).
Proof.
  intros E Eg. unfold process_arg. unfold bind at 1. unfold path_exists. rewrite E.
  cbv beta iota. change (negb true) with false. cbv beta iota.
  unfold bind at 1. rewrite is_local_repo_eq, E, Eg. cbv beta iota.
  unfold bind at 1. unfold path_is_dir. rewrite E. reflexivity.
Qed.

(** A working copy: the origin is asked for. *)
Lemma process_arg_working_copy git cache arg w :
  fs w (Path arg) = Some Directory ->
  fs w (joinpath (Path arg) ".git") <> None ->
  fs w (joinpath (Path arg) ".git") <> Some NoStat ->
  process_arg git cache arg w
  = let w1 := snd (get_origin_url (Path arg) git w) in
    let q := fst (next_exec w (cmd_get_url git (Path arg))) in
    match escapes q with
    | Some cls => (Raise cls, w1)
    | None =>
        match origin_of q with
        | Some u =>
            if String.eqb u ""
            then (Ret tt, add_output [(Stderr, warning_no_origin arg);
                                      (LogFile, warning_no_origin arg)] w1)
            else cache_entry git cache u arg w1
        | None => (Ret tt, add_output [(Stderr, warning_no_origin arg);
                                       (LogFile, warning_no_origin arg)] w1)
        end
    end.
Proof.
  intros E Eg Es. unfold process_arg. unfold bind at 1. unfold path_exists. rewrite E.
  cbv beta iota. change (negb true) with false. cbv beta iota.
  unfold bind at 1. rewrite is_local_repo_eq, E.
  destruct (fs w (joinpath (Path arg) ".git")) as [[| c |] | ]; try congruence.
  all: cbv beta iota; unfold bind at 1.
  all: destruct (get_origin_url_spec (Path arg) git w) as (w1 & E1 & _).
  all: rewrite E1; cbn [snd]; cbv zeta.
  all: destruct (escapes (fst (next_exec w (cmd_get_url git (Path arg))))); [reflexivity | ].
  all: destruct (origin_of (fst (next_exec w (cmd_get_url git (Path arg))))) as [u | ];
    [ | reflexivity].
  all: destruct (String.eqb u ""); reflexivity.
Qed.

(** Anything else that exists is taken for a URL. *)
Lemma process_arg_other git cache arg c w :
  fs w (Path arg) = Some (RegularFile c) ->
  process_arg git cache arg w = cache_entry git cache arg arg w.
Proof.
  intros E. unfold process_arg. unfold bind at 1. unfold path_exists. rewrite E.
  cbv beta iota. change (negb true) with false. cbv beta iota.
  unfold bind at 1. rewrite is_local_repo_eq, E. cbv beta iota.
  unfold bind at 1. unfold path_is_dir. rewrite E. reflexivity.
Qed.


End ProcessArgFacts.
(** **** C3, as stated, fails.
    An argument that is not UTF-8 reaches Python as a [str] with lone
    surrogates.  Taken for a URL, it has no key: [url.encode()] raises. *)
Lemma cache_key_of_unencodable_url :
  let u := ("https://example.com/" ++ String "255" ".git")%string in
  fst (Populate.compute_cache_key u Sample.w_remote)
  = Populate.Raise "UnicodeEncodeError".
Proof. vm_compute. reflexivity. Qed.

(** **** C3, amended.  The cache key is the SHA-256 hex digest of the URL.
    For a URL that can be encoded, [compute_cache_key] returns the
    hexadecimal digest of its bytes in every world, having printed two
    lines; for any other string it raises [UnicodeEncodeError].  It
    launches nothing and writes no file.  Two URLs get the same key only
    if they are the same URL or their bytes are a collision of SHA-256.
    The digest is the one of the standard: the keys of ["abc"], of the
    empty string and of a message of two blocks are the published ones. *)
Theorem cache_key_is_sha256_hexdigest :
  forall (u u' : string) (w w' : Populate.World),
    (PopulateSpec.encodable u = true ->
     Populate.compute_cache_key u w
     = (Populate.Ret (Sha256.hex (Sha256.digest (Sha256.bytes u))),
        Populate.add_output
          [ (Populate.Stdout,
             "[populate_git_clone_cache][INFO] Computing cache key for URL: " ++ u);
            (Populate.Stdout,
             "[populate_git_clone_cache][INFO] Cache key: "
             ++ Sha256.hex (Sha256.digest (Sha256.bytes u))) ]%string w))
    /\ (PopulateSpec.encodable u = false ->
        fst (Populate.compute_cache_key u w) = Populate.Raise "UnicodeEncodeError")
    /\ fst (Populate.compute_cache_key u w') = fst (Populate.compute_cache_key u w)
    /\ Populate.fs (snd (Populate.compute_cache_key u w)) = Populate.fs w
    /\ Populate.calls (snd (Populate.compute_cache_key u w)) = Populate.calls w
    /\ (forall k,
           fst (Populate.compute_cache_key u w) = Populate.Ret k ->
           fst (Populate.compute_cache_key u' w') = Populate.Ret k ->
           u = u'
           \/ (Sha256.bytes u <> Sha256.bytes u'
               /\ Sha256.digest (Sha256.bytes u) = Sha256.digest (Sha256.bytes u')))
    /\ fst (Populate.compute_cache_key "abc" w)
       = Populate.Ret "ba7816bf8f01cfea414140de5dae2223b00361a396177a9cb410ff61f20015ad"
    /\ fst (Populate.compute_cache_key "" w)
       = Populate.Ret "e3b0c44298fc1c149afbf4c8996fb92427ae41e4649b934ca495991b7852b855"
    /\ fst (Populate.compute_cache_key
              "abcdbcdecdefdefgefghfghighijhijkijkljklmklmnlmnomnopnopq" w)
       = Populate.Ret "248d6a61d20638b8e5c026930c3e6039a33ce45964ff2167f6ecedd419db06c1".
Proof.
  intros u u' w w'.
  assert (Hk : forall s v, PopulateSpec.encodable s = true ->
                           fst (Populate.compute_cache_key s v)
                           = Populate.Ret (Sha256.sha256_hexdigest s)).
  { intros s v Hs. now rewrite (compute_cache_key_eq s v Hs). }
  split; [ | split; [ | split; [ | split; [ | split; [ | split; [ | split; [ | split]]]]]]].
  - intros E. exact (compute_cache_key_eq u w E).
  - intros E. now rewrite (compute_cache_key_raises u w E).
  - destruct (PopulateSpec.encodable u) eqn:E.
    + now rewrite !Hk.
    + now rewrite !compute_cache_key_raises.
  - apply (compute_cache_key_frame u w).
  - apply (compute_cache_key_frame u w).
  - intros k E1 E2.
    destruct (PopulateSpec.encodable u) eqn:Eu;
      [ | rewrite (compute_cache_key_raises u w Eu) in E1; discriminate E1].
    destruct (PopulateSpec.encodable u') eqn:Eu';
      [ | rewrite (compute_cache_key_raises u' w' Eu') in E2; discriminate E2].
    rewrite (Hk u w Eu) in E1. rewrite (Hk u' w' Eu') in E2.
    assert (E : Sha256.sha256_hexdigest u = Sha256.sha256_hexdigest u') by congruence.
    unfold Sha256.sha256_hexdigest in E. apply hexdigest_inj in E.
    destruct (string_dec u u') as [-> | Hne]; [now left | right].
    split; [ | exact E].
    intros He. apply Hne. now apply bytes_inj.
  - rewrite Hk by (vm_compute; reflexivity). vm_compute. reflexivity.
  - rewrite Hk by (vm_compute; reflexivity). vm_compute. reflexivity.
  - rewrite Hk by (vm_compute; reflexivity). vm_compute. reflexivity.
Qed.

Lemma cache_key_is_sha256_hexdigest_witness :
  PopulateSpec.encodable Sample.origin = true
  /\ fst (Populate.compute_cache_key Sample.origin Sample.w_fresh)
     = Populate.Ret Sample.key
  /\ (Sample.origin = Sample.origin
      \/ (Sha256.bytes Sample.origin <> Sha256.bytes Sample.origin
          /\ Sha256.digest (Sha256.bytes Sample.origin)
             = Sha256.digest (Sha256.bytes Sample.origin))).
Proof.
  assert (He : PopulateSpec.encodable Sample.origin = true) by (vm_compute; reflexivity).
  destruct (cache_key_is_sha256_hexdigest Sample.origin Sample.origin
              Sample.w_fresh Sample.w_remote) as (H1 & _ & _ & _ & _ & H6 & _).
  split; [exact He | split].
  - rewrite (H1 He). vm_compute. reflexivity.
  - apply (H6 Sample.key); vm_compute; reflexivity.
Defined.

(** **** C1.  A URL given on the command line.
    At the argument [https://example.com/repo.git], which names no file,
    the run reports that the path does not exist and goes on: git is not
    launched, no mirror is made and no index is written, although git
    would clone that URL. *)
Theorem url_argument_is_skipped :
  let '(code, w) :=
    Populate.run "populate_git_clone_cache.py" [Sample.origin] Sample.w_remote in
  Populate.fs Sample.w_remote (Populate.Path Sample.origin) = None
  /\ PopulateSpec.exit_ok
       (fst (PopulateSpec.next_exec Sample.w_remote
               (PopulateSpec.cmd_clone Sample.git Sample.origin Sample.mirror)))
     = true
  /\ code = 0%Z
  /\ Populate.calls w = []
  /\ Populate.fs w Sample.mirror = None
  /\ Populate.fs w (PopulateSpec.index_path Sample.cache) = None
  /\ Populate.output w
     = [ (Populate.Stdout,
          "[populate_git_clone_cache][INFO] real_git resolved to: /usr/bin/git");
         (Populate.Stderr,
          "[populate_git_clone_cache][ERROR] Path does not exist: https://example.com/repo.git");
         (Populate.LogFile,
          "[populate_git_clone_cache][ERROR] Path does not exist: https://example.com/repo.git");
         (Populate.Stdout, "[populate_git_clone_cache][INFO] Done.");
         (Populate.LogFile, "[populate_git_clone_cache][INFO] Done.");
         (Populate.LogFile, "Done.") ].
Proof. vm_compute. repeat split; reflexivity. Qed.



(** **** C4.  In a run of the script neither clone nor fetch is launched.
    [main] always hands [populate_cache] the log file, and with a log
    file [run_git_command] gives [Popen] two [Tee] objects, which have no
    [fileno()]: [Popen] raises before it starts anything.  At the sample
    working copy, whose mirror is missing and whose clone would go
    through, the run asks git for the origin and for nothing else; the
    mirror is not made and the index is not written.  The same call
    without a log file clones and sets the origin.  With a log file no
    call of [populate_cache], in any world, launches anything or reports
    success. *)
Theorem clone_is_never_launched :
  let code := fst (Populate.run "populate_git_clone_cache.py" [Sample.app] Sample.w_fresh) in
  let w := snd (Populate.run "populate_git_clone_cache.py" [Sample.app] Sample.w_fresh) in
  let direct := Populate.populate_cache Sample.origin Sample.mirror Sample.git Sample.app
                  Sample.cache false Sample.w_fresh in
  Populate.fs Sample.w_fresh Sample.mirror = None
  /\ PopulateSpec.exit_ok
       (fst (Populate.exec Sample.w_fresh 1
               (PopulateSpec.cmd_clone Sample.git Sample.app Sample.mirror)
               (Populate.fs Sample.w_fresh)))
     = true
  /\ code = 0%Z
  /\ Populate.calls w = [PopulateSpec.cmd_get_url Sample.git Sample.app]
  /\ Populate.fs w Sample.mirror = None
  /\ Populate.fs w (PopulateSpec.index_path Sample.cache) = None
  /\ In (Populate.Stderr,
         "[populate_git_clone_cache][ERROR] Command failed: 'Tee' object has no attribute 'fileno'")
        (Populate.output w)
  /\ In (Populate.Stderr,
         "[populate_git_clone_cache][ERROR] Failed to cache https://example.com/repo.git")
        (Populate.output w)
  /\ fst direct = Populate.Ret true
  /\ Populate.calls (snd direct)
     = [ PopulateSpec.cmd_clone Sample.git Sample.app Sample.mirror;
         PopulateSpec.cmd_set_url Sample.git Sample.mirror Sample.origin ]
  /\ Populate.fs (snd direct) Sample.mirror = Some Populate.Directory
  /\ (forall (url mirror git src cache : string) (v : Populate.World),
         Populate.calls (snd (Populate.populate_cache url mirror git src cache true v))
         = Populate.calls v
         /\ fst (Populate.populate_cache url mirror git src cache true v)
            <> Populate.Ret true).
Proof.
  cbv zeta.
  repeat match goal with |- _ /\ _ => split end.
  1-6, 9-11: vm_compute; reflexivity.
  - vm_compute. tauto.
  - vm_compute. tauto.
  - intros url mirror git src cache v. apply populate_cache_with_log.
Qed.



(** **** C5.  The index update is idempotent.
    [update_directory_json] writes only when the value stored for the
    URL differs from the cache key: when the index already holds the
    key for the URL the call changes nothing at all, not even the
    output.  When it does not, and the file can be written, the call
    stores the whole mapping with the new entry, its items in the order
    of their keys, and the same update run again is the case before: it
    changes nothing.  The document written is sorted, holds exactly the
    entries of the mapping, and is the same for every insertion order
    of the same entries, so the bytes [json.dump] makes of it are the
    same.  In every case a second run of the same update ends as the
    first did and leaves every file as the first left it. *)
Theorem index_update_is_idempotent :
  forall (cache url key : string) (lf : bool) (w : Populate.World),
    let p := PopulateSpec.index_path cache in
    let d := PopulateSpec.start_mapping w cache in
    let r1 := Populate.update_directory_json cache url key lf w in
    let r2 := Populate.update_directory_json cache url key lf (snd r1) in
    (PopulateSpec.index_entry w cache url = Some (Populate.PStr key) ->
     r1 = (Populate.Ret tt, w))
    /\ (PopulateSpec.index_entry w cache url <> Some (Populate.PStr key) ->
        PopulateSpec.index_usable w cache ->
        Populate.fs w p <> Some Populate.Directory ->
        Populate.write_denied w p = false ->
        Populate.dump_fails w p = false ->
        fst r1 = Populate.Ret tt
        /\ Populate.fs (snd r1)
           = Populate.fs_put p
               (Populate.RegularFile
                  (Populate.JsonObject
                     (Populate.sort_keys (Populate.dict_set d url (Populate.PStr key)))))
               (Populate.fs w)
        /\ PopulateSpec.index_entry (snd r1) cache url = Some (Populate.PStr key)
        /\ r2 = (Populate.Ret tt, snd r1))
    /\ (forall m : Populate.dict,
           StronglySorted Populate.key_le (Populate.sort_keys m)
           /\ Permutation (Populate.sort_keys m) m
           /\ forall m', NoDup (Populate.keys m) -> Permutation m m' ->
                         Populate.sort_keys m = Populate.sort_keys m')
    /\ fst r2 = fst r1
    /\ (forall q, Populate.fs (snd r2) q = Populate.fs (snd r1) q).
Proof.
  intros cache url key lf w p d r1 r2.
  assert (Hnoop : forall v, PopulateSpec.index_entry v cache url = Some (Populate.PStr key) ->
                            Populate.update_directory_json cache url key lf v
                            = (Populate.Ret tt, v)).
  { intros v He. rewrite index_entry_start_mapping in He.
    pose proof (update_directory_json_cases cache url key lf v) as Hc. cbv zeta in Hc.
    destruct Hc as [[Hf _] | [[Hf _] | [(_ & _ & E) | [(_ & Hd & _)
                   | [(_ & Hd & _) | (_ & Hd & _)]]]]].
    3: exact E.
    3-5: rewrite He, differs_same in Hd; discriminate Hd.
    all: exfalso; unfold PopulateSpec.start_mapping, PopulateSpec.index_members in He;
      rewrite Hf in He; discriminate He. }
  assert (Hwritten :
            PopulateSpec.index_entry w cache url <> Some (Populate.PStr key) ->
            PopulateSpec.index_usable w cache ->
            Populate.fs w p <> Some Populate.Directory ->
            Populate.write_denied w p = false ->
            Populate.dump_fails w p = false ->
            fst r1 = Populate.Ret tt
            /\ Populate.fs (snd r1)
               = Populate.fs_put p
                   (Populate.RegularFile
                      (Populate.JsonObject
                         (Populate.sort_keys (Populate.dict_set d url (Populate.PStr key)))))
                   (Populate.fs w)
            /\ PopulateSpec.index_entry (snd r1) cache url = Some (Populate.PStr key)
            /\ r2 = (Populate.Ret tt, snd r1)).
  { intros He Hu Hdir Hw Hdf.
    destruct (index_written cache url key lf w He Hu Hdir Hw Hdf) as (H1 & H2 & _ & H4).
    assert (H5 : PopulateSpec.index_entry (snd r1) cache url = Some (Populate.PStr key)).
    { unfold r1. rewrite H4. apply dict_get_set_same. }
    repeat split; try assumption. unfold r2. now apply Hnoop. }
  split; [apply Hnoop | split; [exact Hwritten | split]].
  - intros m. split; [apply sort_keys_sorted | split; [apply sort_keys_perm | ]].
    intros m' Hm Hp. now apply sort_keys_canonical.
  - pose proof (update_directory_json_cases cache url key lf w) as Hc.
    cbv zeta in Hc. fold r1 in Hc.
    pose proof (update_directory_json_frame cache url key lf w) as (_ & _ & Fw & Fd & _).
    cbv zeta in Fw, Fd. fold r1 in Fw, Fd.
    destruct Hc as [[_ E] | [[_ E] | [(_ & _ & E) | [(_ & _ & _ & _ & E & Ed & Ed')
                   | [(Hu & Hd & Hdir & Hw & Hdf & Ho & E)
                     | (Hu & Hd & Hdir & Hw & Hdf & _)]]]]].
    + unfold r2. rewrite E. cbn [snd]. fold r1. rewrite E. split; reflexivity.
    + unfold r2. rewrite E. cbn [snd]. fold r1. rewrite E. split; reflexivity.
    + unfold r2. rewrite E. cbn [snd]. fold r1. rewrite E. split; reflexivity.
    + destruct (update_directory_json_same_files cache url key lf (snd r1) w E Ed Ed')
        as (H1 & H3).
      fold r2 r1 in H1, H3. split; [exact H1 | ]. intros q. rewrite H3. now rewrite E.
    + (* the dump failed: the index no longer loads, and the same happens again *)
      pose proof (update_directory_json_cases cache url key lf (snd r1)) as Hc2.
      cbv zeta in Hc2. fold r2 in Hc2.
      assert (Ei : Populate.fs (snd r1) (PopulateSpec.index_path cache)
                   = Some (Populate.RegularFile Populate.Unparsable)).
      { rewrite E. unfold Populate.fs_put. now rewrite String.eqb_refl. }
      assert (Es : PopulateSpec.start_mapping (snd r1) cache = []).
      { unfold PopulateSpec.start_mapping, PopulateSpec.index_members. now rewrite Ei. }
      rewrite Es in Hc2. rewrite Fw, Fd in Hc2.
      destruct Hc2 as [[Hf _] | [[Hf _] | [(_ & Hd2 & _) | [(_ & _ & [Hf | Hf] & _)
                      | [(_ & _ & _ & _ & _ & Ho2 & E2) | (_ & _ & _ & _ & Hf & _)]]]]];
        try congruence; try discriminate.
      split; [congruence | ].
      intros q. rewrite E2. unfold Populate.fs_put.
      destruct (String.eqb q (PopulateSpec.index_path cache)) eqn:Eq; [ | reflexivity].
      apply String.eqb_eq in Eq. subst q. now rewrite Ei.
    + assert (He : PopulateSpec.index_entry w cache url <> Some (Populate.PStr key)).
      { rewrite index_entry_start_mapping. now apply differs_true_iff. }
      destruct (Hwritten He Hu Hdir Hw Hdf) as (H1 & _ & _ & H4).
      rewrite H4. cbn [fst snd]. split; [now rewrite H1 | reflexivity].
Qed.

(** At the world whose index already records the sample mirror nothing
    happens; at the world whose index holds other entries only, the
    entry is written and the next update finds it. *)
Lemma index_update_is_idempotent_witness :
  Populate.update_directory_json Sample.cache Sample.origin Sample.key true
    Sample.w_cached_offline
  = (Populate.Ret tt, Sample.w_cached_offline)
  /\ (let r1 := Populate.update_directory_json Sample.cache Sample.origin Sample.key true
                  Sample.w_other_entry in
      PopulateSpec.index_entry Sample.w_other_entry Sample.cache Sample.origin = None
      /\ PopulateSpec.index_entry (snd r1) Sample.cache Sample.origin
         = Some (Populate.PStr Sample.key)
      /\ Populate.update_directory_json Sample.cache Sample.origin Sample.key true (snd r1)
         = (Populate.Ret tt, snd r1)).
Proof.
  split.
  - apply (proj1 (index_update_is_idempotent Sample.cache Sample.origin Sample.key true
                    Sample.w_cached_offline)).
    vm_compute. reflexivity.
  - cbv zeta.
    destruct (proj1 (proj2 (index_update_is_idempotent Sample.cache Sample.origin Sample.key
                              true Sample.w_other_entry)))
      as (_ & _ & H3 & H4).
    + vm_compute. discriminate.
    + split; vm_compute; discriminate.
    + vm_compute. discriminate.
    + vm_compute. reflexivity.
    + vm_compute. reflexivity.
    + split; [vm_compute; reflexivity | split; [exact H3 | exact H4]].
Defined.

(** **** C10, as stated, fails.
    The index holds two entries and can be opened, but the disk is full:
    [open(..., "w")] has emptied the file when [json.dump] raises, the
    script logs the failure and goes on, and both entries are gone. *)
Lemma failed_write_loses_every_entry :
  let w := SampleMore.w_disk_full in
  let r := Populate.update_directory_json Sample.cache Sample.origin Sample.key true w in
  PopulateSpec.index_entry w Sample.cache "https://z.example/z.git"
  = Some (Populate.PStr "ff")
  /\ PopulateSpec.index_entry w Sample.cache "https://b.example/x.git"
     = Some (Populate.POther 7)
  /\ fst r = Populate.Ret tt
  /\ Populate.fs (snd r) (PopulateSpec.index_path Sample.cache)
     = Some (Populate.RegularFile Populate.Unparsable)
  /\ PopulateSpec.index_entry (snd r) Sample.cache "https://z.example/z.git" = None
  /\ PopulateSpec.index_entry (snd r) Sample.cache "https://b.example/x.git" = None.
Proof. vm_compute. repeat split; reflexivity. Qed.

(** **** C10, amended.  The index update keeps every other entry unless
    the write fails half way.
    When the index file is there and loads as an object, and the update
    for [url] finds the key in place, cannot open the file, or writes it
    in full, the index is still an object in which every entry under
    another key is what it was, no key is lost, and the entry of [url] is
    either what it was or the new cache key.  When the file is opened
    and the write then fails, the call still returns normally and the
    index no longer loads.  When the file loads as something else than an
    object, no file is touched. *)
Theorem index_update_keeps_other_entries :
  forall (cache url key : string) (lf : bool) (w : Populate.World),
    let p := PopulateSpec.index_path cache in
    let r := Populate.update_directory_json cache url key lf w in
    let w' := snd r in
    match Populate.fs w p with
    | Some (Populate.RegularFile (Populate.JsonObject members)) =>
        (PopulateSpec.index_entry w cache url = Some (Populate.PStr key)
         \/ Populate.write_denied w p = true
         \/ Populate.dump_fails w p = false ->
         (exists members', PopulateSpec.index_members w' cache = Some members')
         /\ (forall u, u <> url ->
                       PopulateSpec.index_entry w' cache u = PopulateSpec.index_entry w cache u)
         /\ (forall u, PopulateSpec.index_entry w cache u <> None ->
                       PopulateSpec.index_entry w' cache u <> None)
         /\ (PopulateSpec.index_entry w' cache url = PopulateSpec.index_entry w cache url
             \/ PopulateSpec.index_entry w' cache url = Some (Populate.PStr key)))
        /\ (PopulateSpec.index_entry w cache url <> Some (Populate.PStr key) ->
            Populate.write_denied w p = false ->
            Populate.dump_fails w p = true ->
            fst r = Populate.Ret tt
            /\ Populate.fs w' p = Some (Populate.RegularFile Populate.Unparsable)
            /\ forall u, PopulateSpec.index_entry w' cache u = None)
    | Some (Populate.RegularFile Populate.JsonOther) => Populate.fs w' = Populate.fs w
    | _ => True
    end.
Proof.
  intros cache url key lf w p r w'.
  pose proof (update_directory_json_cases cache url key lf w) as Hc.
  cbv zeta in Hc. fold p r in Hc.
  destruct (Populate.fs w p) as [[| [| members |] |] |] eqn:Ef; try exact I.
  2: { destruct Hc as [[Hf _] | [[_ E] | [([_ Hn] & _) | [([_ Hn] & _)
                      | [([_ Hn] & _) | ([_ Hn] & _)]]]]]; unfold p in *; try congruence.
       unfold w'. now rewrite E. }
  assert (Hm : PopulateSpec.index_members w cache = Some members)
    by (unfold PopulateSpec.index_members; fold p; now rewrite Ef).
  pose proof (NoDup_keys_start_mapping w cache) as Hnd.
  assert (Hnd' : NoDup (Populate.keys
                          (Populate.dict_set (PopulateSpec.start_mapping w cache) url
                             (Populate.PStr key))))
    by now apply NoDup_keys_dict_set.
  assert (Hsame : Populate.fs w' = Populate.fs w ->
                  (exists members', PopulateSpec.index_members w' cache = Some members')
                  /\ (forall u, u <> url ->
                                PopulateSpec.index_entry w' cache u
                                = PopulateSpec.index_entry w cache u)
                  /\ (forall u, PopulateSpec.index_entry w cache u <> None ->
                                PopulateSpec.index_entry w' cache u <> None)
                  /\ (PopulateSpec.index_entry w' cache url
                      = PopulateSpec.index_entry w cache url
                      \/ PopulateSpec.index_entry w' cache url = Some (Populate.PStr key))).
  { intros E.
    assert (He : forall u, PopulateSpec.index_entry w' cache u
                           = PopulateSpec.index_entry w cache u)
      by (intros u; unfold PopulateSpec.index_entry, PopulateSpec.index_members;
          now rewrite E).
    repeat split.
    - exists members. unfold PopulateSpec.index_members in *. now rewrite E.
    - intros u _. apply He.
    - intros u. now rewrite He.
    - left. apply He. }
  destruct Hc as [[Hf _] | [[Hf _] | [(_ & Hd & E) | [(_ & Hd & Hden & _ & E & _)
                 | [(_ & Hd & _ & Hw & Hdf & Ho & E) | (_ & Hd & _ & Hw & Hdf & _ & E)]]]]];
    try congruence.
  - (* the key is in place *)
    apply differs_false in Hd. rewrite <- index_entry_start_mapping in Hd.
    split; [intros _; apply Hsame; unfold w'; now rewrite E | ].
    intros Hne. contradiction.
  - (* the file cannot be opened *)
    destruct Hden as [Hden | Hden]; [congruence | ].
    split; [intros _; apply Hsame; exact E | ].
    intros _ Hw. congruence.
  - (* the write fails half way *)
    apply differs_true_iff in Hd. rewrite <- index_entry_start_mapping in Hd.
    split.
    + intros [He | [Hw' | Hdf']]; congruence.
    + intros _ _ _. fold w' in E.
      assert (Ei : Populate.fs w' p = Some (Populate.RegularFile Populate.Unparsable)).
      { rewrite E. unfold Populate.fs_put. now rewrite String.eqb_refl. }
      repeat split; [exact Ho | exact Ei | ].
      intros u. unfold PopulateSpec.index_entry, PopulateSpec.index_members.
      fold p. now rewrite Ei.
  - (* the file is written in full *)
    fold w' in E.
    split; [intros _ | intros _ _ Hdf'; congruence].
    repeat split.
    + eexists. exact (proj1 (index_entry_after_write w w' cache _ url Hnd' E)).
    + intros u Hu.
      rewrite (proj2 (index_entry_after_write w w' cache _ u Hnd' E)).
      rewrite dict_get_set_other by exact Hu.
      symmetry. apply index_entry_start_mapping.
    + intros u Hu.
      rewrite (proj2 (index_entry_after_write w w' cache _ u Hnd' E)).
      destruct (string_dec u url) as [-> | Hne].
      * rewrite dict_get_set_same. discriminate.
      * rewrite dict_get_set_other by exact Hne.
        now rewrite <- index_entry_start_mapping.
    + right.
      rewrite (proj2 (index_entry_after_write w w' cache _ url Hnd' E)).
      apply dict_get_set_same.
Qed.

(** At the world whose index holds two entries of other repositories. *)
Lemma index_update_keeps_other_entries_witness :
  let w' := snd (Populate.update_directory_json Sample.cache Sample.origin Sample.key true
                   Sample.w_other_entry) in
  PopulateSpec.index_entry w' Sample.cache "https://b.example/x.git"
  = Some (Populate.POther 7)
  /\ PopulateSpec.index_entry w' Sample.cache "https://z.example/z.git"
     = Some (Populate.PStr "ff")
  /\ PopulateSpec.index_entry w' Sample.cache Sample.origin
     = Some (Populate.PStr Sample.key).
Proof.
  pose proof (index_update_keeps_other_entries Sample.cache Sample.origin Sample.key true
                Sample.w_other_entry) as H.
  cbv zeta in H.
  change (Populate.fs Sample.w_other_entry (PopulateSpec.index_path Sample.cache))
    with (Some (Populate.RegularFile
                  (Populate.JsonObject [("https://z.example/z.git", Populate.PStr "ff");
                                        ("https://b.example/x.git", Populate.POther 7)])))
    in H.
  cbv iota in H. destruct H as [H _].
  destruct H as (_ & Hkeep & _).
  - right. right. vm_compute. reflexivity.
  - split; [ | split].
    + rewrite Hkeep; [vm_compute; reflexivity | vm_compute; discriminate].
    + rewrite Hkeep; [vm_compute; reflexivity | vm_compute; discriminate].
    + vm_compute. reflexivity.
Defined.

Section MainFacts.

Import Populate PopulateSpec.
Local Open Scope py_scope.

Lemma find_real_git_ret w : exists g, find_real_git w = (Ret g, w).
Proof.
  unfold find_real_git, bind, get, ret. simpl.
  destruct (which_git w) as [g | ]; [ | eexists; reflexivity].
  destruct (negb (g =? "") && negb (resolve w (Path g) =? _)); eexists; reflexivity.
Qed.

Lemma find_real_git_some w g :
  fst (find_real_git w) = Ret (Some g) -> (g =? "") = false.
Proof.
  unfold find_real_git, bind, get, ret. simpl.
  destruct (which_git w) as [g' | ]; [ | discriminate].
  destruct (g' =? "") eqn:Eg; simpl; [discriminate | ].
  destruct (negb (resolve w (Path g') =? _)); simpl; [ | discriminate].
  now intros [= <-].
Qed.

Lemma mkdir_parents_eq n p w :
  mkdir_parents n p w
  = match os_mkdir p w with
    | Made w' => (Ret tt, w')
    | NoParent =>
        if String.eqb (parent p) p then (Raise "FileNotFoundError", w)
        else
          match n with
          | O => (Raise "RecursionError", w)
          | S k => (mkdir_parents k (parent p) ;; mkdir_once p) w
          end
    | Refused e => unless_is_dir p e w
    end.
Proof. destruct n; reflexivity. Qed.

(** What [os.mkdir] makes is the directory, and nothing else changes. *)
Lemma os_mkdir_made p w w' :
  os_mkdir p w = Made w' -> w' = set_fs (fs_put p Directory (fs w)) w.
Proof.
  unfold os_mkdir.
  destruct (fs w p) as [[| c |] |]; try discriminate.
  destruct (fs w (parent p)) as [[| c |] |]; try discriminate.
  destruct (write_denied w p); [discriminate | now intros [= <-]].
Qed.

Lemma same_but_files_refl w : same_but_files w w.
Proof. repeat split. Qed.

Lemma same_but_files_trans w1 w2 w3 :
  same_but_files w1 w2 -> same_but_files w2 w3 -> same_but_files w1 w3.
Proof.
  unfold same_but_files. intros (A1 & A2 & A3 & A4 & A5) (B1 & B2 & B3 & B4 & B5).
  repeat split; congruence.
Qed.

Lemma unless_is_dir_spec p e w :
  snd (unless_is_dir p e w) = w /\ returns_or_raises (fst (unless_is_dir p e w)).
Proof.
  unfold unless_is_dir, bind, path_is_dir, ret, raise.
  destruct (fs w p) as [[| c |] |]; cbn; split; try reflexivity;
    first [left; eexists; reflexivity | right; eexists; reflexivity].
Qed.

Lemma mkdir_once_spec p w :
  same_but_files w (snd (mkdir_once p w)) /\ returns_or_raises (fst (mkdir_once p w)).
Proof.
  unfold mkdir_once. destruct (os_mkdir p w) as [w' | | e] eqn:E.
  - apply os_mkdir_made in E. subst w'. split; [repeat split | left; eexists; reflexivity].
  - split; [apply same_but_files_refl | right; eexists; reflexivity].
  - destruct (unless_is_dir_spec p e w) as [-> H]. split; [apply same_but_files_refl | exact H].
Qed.

Lemma mkdir_parents_spec n p w :
  same_but_files w (snd (mkdir_parents n p w))
  /\ returns_or_raises (fst (mkdir_parents n p w)).
Proof.
  revert p w. induction n as [| n IH]; intros p w; rewrite mkdir_parents_eq.
  all: destruct (os_mkdir p w) as [w' | | e] eqn:E.
  all: try (apply os_mkdir_made in E; subst w';
            split; [repeat split | left; eexists; reflexivity]).
  all: try (destruct (unless_is_dir_spec p e w) as [-> H];
            split; [apply same_but_files_refl | exact H]).
  all: destruct (String.eqb (parent p) p);
    try (split; [apply same_but_files_refl | right; eexists; reflexivity]).
  unfold bind. destruct (IH (parent p) w) as [Hs Ho].
  destruct (mkdir_parents n (parent p) w) as [[[] | e | c] w1]; cbn [fst snd] in *.
  - destruct (mkdir_once_spec p w1) as [Hs' Ho'].
    split; [exact (same_but_files_trans _ _ _ Hs Hs') | exact Ho'].
  - split; [exact Hs | exact Ho].
  - split; [exact Hs | exact Ho].
Qed.

Lemma mkdir_p_outcome p w : returns_or_raises (fst (mkdir_p p w)).
Proof. apply mkdir_parents_spec. Qed.

(** The directory is there already: nothing happens. *)
Lemma mkdir_p_in_place p w : fs w p = Some Directory -> mkdir_p p w = (Ret tt, w).
Proof.
  intros E. unfold mkdir_p. rewrite mkdir_parents_eq. unfold os_mkdir. rewrite E.
  unfold unless_is_dir, bind, path_is_dir. now rewrite E.
Qed.

(** The directory is missing and its parent is there: it is made. *)
Lemma mkdir_p_fresh p w :
  fs w p = None -> fs w (parent p) = Some Directory -> write_denied w p = false ->
  mkdir_p p w = (Ret tt, set_fs (fs_put p Directory (fs w)) w).
Proof.
  intros E Ep Ew. unfold mkdir_p. rewrite mkdir_parents_eq. unfold os_mkdir.
  now rewrite E, Ep, Ew.
Qed.

(** A regular file is in the way. *)
Lemma mkdir_p_file p c w :
  fs w p = Some (RegularFile c) -> mkdir_p p w = (Raise "FileExistsError", w).
Proof.
  intros E. unfold mkdir_p. rewrite mkdir_parents_eq. unfold os_mkdir. rewrite E.
  unfold unless_is_dir, bind, path_is_dir. now rewrite E.
Qed.

Lemma open_append_spec p w :
  same_but_files w (snd (open_append p w)) /\ returns_or_raises (fst (open_append p w)).
Proof.
  unfold open_append.
  destruct (fs w p) as [[| c |] |]; try destruct (write_denied w p); cbn.
  all: split; [repeat split | ].
  all: first [left; eexists; reflexivity | right; eexists; reflexivity].
Qed.

Lemma get_log_file_spec cache w :
  same_but_files w (snd (get_log_file cache w))
  /\ returns_or_raises (fst (get_log_file cache w)).
Proof.
  unfold get_log_file, bind.
  set (dir := parent (joinpath cache "populate_git_clone_cache.log")).
  destruct (mkdir_parents_spec (String.length dir) dir w) as [Hs Ho].
  fold (mkdir_p dir) in Hs, Ho.
  destruct (mkdir_p dir w) as [[[] | e | c] w1]; cbn [fst snd] in *;
    try (split; assumption).
  destruct (open_append_spec (joinpath cache "populate_git_clone_cache.log") w1) as [Hs' Ho'].
  split; [exact (same_but_files_trans _ _ _ Hs Hs') | exact Ho'].
Qed.

Lemma get_log_file_outcome cache w : returns_or_raises (fst (get_log_file cache w)).
Proof. apply get_log_file_spec. Qed.

Ltac no_exit H :=
  let a := fresh in let e := fresh in let E := fresh in
  destruct H as [[a E] | [e E]]; discriminate E.

(** No argument: exit status 1, whatever the world. *)
Lemma run_no_arguments prog w : fst (run prog [] w) = 1%Z.
Proof.
  unfold run, main.
  unfold bind at 1. destruct (find_real_git_ret w) as [g ->]. cbv beta iota.
  unfold bind at 1. unfold info at 1. rewrite emit_eq. cbv beta iota.
  set (w0 := add_output _ w).
  unfold bind at 1.
  destruct (match g with
            | Some g0 => _
            | None => ret false
            end w0) as [o w0'] eqn:Eok.
  assert (Hok : exists b, o = Ret b /\ w0' = w0).
  { destruct g; unfold bind, get, ret in Eok; injection Eok as <- <-; eexists; split;
      reflexivity. }
  destruct Hok as (b & -> & ->). clear Eok.
  destruct b; cbn [negb]; cbv beta iota; [ | reflexivity].
  unfold bind at 1. unfold get at 1. cbv beta iota.
  unfold bind at 1. unfold get at 1. cbv beta iota.
  unfold bind at 1.
  pose proof (mkdir_p_outcome
                (Path match env_cache_dir w0 with
                      | Some e => if e =? "" then expanduser w0 "~/.git-clone-cache" else e
                      | None => expanduser w0 "~/.git-clone-cache"
                      end) w0) as Hm.
  destruct (mkdir_p _ w0) as [[[] | e | c] w1]; cbn [fst] in Hm;
    [ | reflexivity | no_exit Hm].
  unfold bind at 1.
  pose proof (get_log_file_outcome
                (Path match env_cache_dir w0 with
                      | Some e => if e =? "" then expanduser w0 "~/.git-clone-cache" else e
                      | None => expanduser w0 "~/.git-clone-cache"
                      end) w1) as Hl.
  destruct (get_log_file _ w1) as [[[] | e | c] w2]; cbn [fst] in Hl;
    [ | reflexivity | no_exit Hl].
  reflexivity.
Qed.

(** No usable git: exit status 1, whatever the arguments. *)
Lemma run_without_git prog args w :
  match fst (find_real_git w) with
  | Ret (Some g) => access_x w g = false
  | _ => True
  end ->
  fst (run prog args w) = 1%Z.
Proof.
  unfold run, main.
  unfold bind at 1. destruct (find_real_git_ret w) as [g ->]. cbn [fst].
  intros H.
  unfold bind at 1. unfold info at 1. rewrite emit_eq. cbv beta iota.
  destruct g as [g | ].
  - unfold bind at 1. unfold bind at 1. unfold get, ret. cbv beta iota.
    cbn [access_x add_output]. rewrite H. rewrite andb_false_r. reflexivity.
  - reflexivity.
Qed.

Lemma update_directory_json_outcome cache url key lf w :
  returns_or_raises (fst (update_directory_json cache url key lf w)).
Proof.
  pose proof (update_directory_json_cases cache url key lf w) as H. cbv zeta in H.
  destruct H as [[_ E] | [[_ E] | [(_ & _ & E) | [(_ & _ & _ & E & _)
                | [(_ & _ & _ & _ & _ & E & _) | (_ & _ & _ & _ & _ & E & _)]]]]];
    rewrite E; [right | right | left | left | left | left]; eexists; reflexivity.
Qed.

Lemma populate_cache_outcome url mirror git src cache lf w :
  returns_or_raises (fst (populate_cache url mirror git src cache lf w)).
Proof.
  destruct (fs w mirror) as [[| c0 |] | ] eqn:Em.
  3: { rewrite (populate_cache_no_stat url mirror git src cache lf w Em).
       right. eexists. reflexivity. }
  3: { pose proof (populate_cache_absent url mirror git src cache lf w Em) as H.
       destruct (exit_ok _).
       - destruct H as (w2 & _ & _ & _ & _ & _ & E). rewrite E.
         pose proof (update_directory_json_outcome cache url (path_name mirror) lf w2) as Ho.
         destruct (update_directory_json cache url (path_name mirror) lf w2)
           as [[[] | e | c] w3].
         + left. eexists. reflexivity.
         + right. eexists. reflexivity.
         + destruct Ho as [[a Ha] | [e Ha]]; discriminate Ha.
       - destruct H as (E & _). rewrite E. left. eexists. reflexivity. }
  all: destruct (populate_cache_present url mirror git src cache lf w)
    as (w2 & _ & _ & _ & _ & _ & E); try congruence.
  all: rewrite E.
  all: pose proof (update_directory_json_outcome cache url (path_name mirror) lf w2) as Ho.
  all: destruct (update_directory_json cache url (path_name mirror) lf w2)
    as [[[] | e | c] w3].
  all: try (destruct (exit_ok _); left; eexists; reflexivity).
  all: try (right; eexists; reflexivity).
  all: destruct Ho as [[a Ha] | [e Ha]]; discriminate Ha.
Qed.

Lemma drop_outcome {A} (o : outcome A) :
  returns_or_raises o -> returns_or_raises (drop o).
Proof.
  intros [[a ->] | [e ->]]; [left | right]; eexists; reflexivity.
Qed.

Lemma cache_entry_outcome git cache url src w :
  returns_or_raises (fst (cache_entry git cache url src w)).
Proof.
  unfold cache_entry. unfold bind at 1.
  pose proof (compute_cache_key_frame url w) as ([Hk | Hk] & _).
  all: destruct (compute_cache_key url w) as [[k | e | c] w1]; cbn [fst] in Hk;
    try discriminate Hk.
  2: right; eexists; reflexivity.
  unfold bind at 1.
  pose proof (populate_cache_outcome url (joinpath cache k) git src cache true w1) as Ho.
  destruct (populate_cache url (joinpath cache k) git src cache true w1) as [[b | e | c] w2];
    cbn [fst] in *.
  - left. eexists. reflexivity.
  - right. eexists. reflexivity.
  - destruct Ho as [[a Ha] | [e Ha]]; discriminate Ha.
Qed.

Lemma process_arg_outcome git cache arg w :
  returns_or_raises (fst (process_arg git cache arg w)).
Proof.
  destruct (fs w (Path arg)) as [[| c |] | ] eqn:E.
  - destruct (fs w (joinpath (Path arg) ".git")) as [[| c |] | ] eqn:Eg.
    4: { rewrite process_arg_plain_directory by assumption. left. eexists. reflexivity. }
    3: { rewrite process_arg_git_no_stat by assumption. right. eexists. reflexivity. }
    all: rewrite process_arg_working_copy by congruence; cbv zeta.
    all: destruct (escapes _); [right; eexists; reflexivity | ].
    all: destruct (origin_of _) as [u | ]; [ | left; eexists; reflexivity].
    all: destruct (u =? ""); [left; eexists; reflexivity | ].
    all: apply cache_entry_outcome.
  - rewrite (process_arg_other git cache arg c w E). apply cache_entry_outcome.
  - rewrite process_arg_no_stat by assumption. right. eexists. reflexivity.
  - rewrite process_arg_missing by assumption. left. eexists. reflexivity.
Qed.

Lemma for_each_outcome git cache args w :
  returns_or_raises (fst (for_each args (process_arg git cache) w)).
Proof.
  revert w. induction args as [| a args IH]; intros w; simpl.
  - left. eexists. reflexivity.
  - unfold bind.
    pose proof (process_arg_outcome git cache a w) as Ho.
    destruct (process_arg git cache a w) as [[[] | e | c] w1]; cbn [fst] in *.
    + apply IH.
    + right. eexists. reflexivity.
    + exact Ho.
Qed.

(** With arguments and a usable git the script never calls
    [sys.exit]: its exit status is 0 unless an exception escapes. *)
Lemma run_with_arguments prog a args w g :
  fst (find_real_git w) = Ret (Some g) ->
  access_x w g = true ->
  fst (run prog (a :: args) w) = 0%Z
  \/ exists e, fst (main prog (a :: args) w) = Raise e.
Proof.
  intros Hg Hx. pose proof (find_real_git_some w g Hg) as Hne. revert Hg.
  unfold run. destruct (main prog (a :: args) w) as [o wf] eqn:Em. cbn [fst].
  revert Em. unfold main.
  unfold bind at 1. destruct (find_real_git_ret w) as [g' ->]. cbn [fst]. cbv beta iota.
  intros Em [= ->]. revert Em.
  unfold bind at 1. unfold info at 1. rewrite emit_eq. cbv beta iota.
  set (w0 := add_output _ w).
  unfold bind at 1. unfold bind at 1. unfold get at 1. unfold ret at 1. cbv beta iota.
  change (access_x w0 g) with (access_x w g). rewrite Hx, Hne. cbn [negb andb].
  cbv beta iota.
  unfold bind at 1. unfold get at 1. cbv beta iota.
  unfold bind at 1. unfold get at 1. cbv beta iota.
  unfold bind at 1.
  pose proof (mkdir_p_outcome
                (Path match env_cache_dir w0 with
                      | Some e => if e =? "" then expanduser w0 "~/.git-clone-cache" else e
                      | None => expanduser w0 "~/.git-clone-cache"
                      end) w0) as Hm.
  destruct (mkdir_p _ w0) as [[[] | e | c] w1]; cbn [fst] in Hm;
    [ | intros [= <- _]; right; eexists; reflexivity | no_exit Hm].
  unfold bind at 1.
  pose proof (get_log_file_outcome
                (Path match env_cache_dir w0 with
                      | Some e => if e =? "" then expanduser w0 "~/.git-clone-cache" else e
                      | None => expanduser w0 "~/.git-clone-cache"
                      end) w1) as Hl.
  destruct (get_log_file _ w1) as [[[] | e | c] w2]; cbn [fst] in Hl;
    [ | intros [= <- _]; right; eexists; reflexivity | no_exit Hl].
  unfold bind at 1.
  pose proof (for_each_outcome g
                (Path match env_cache_dir w0 with
                      | Some e => if e =? "" then expanduser w0 "~/.git-clone-cache" else e
                      | None => expanduser w0 "~/.git-clone-cache"
                      end) (a :: args) w2) as Hf.
  destruct (for_each (a :: args) _ w2) as [[[] | e | c] w3]; cbn [fst] in Hf;
    [ | intros [= <- _]; right; eexists; reflexivity | no_exit Hf].
  intros [= <- _]. left. reflexivity.
Qed.

End MainFacts.

(* ================================================================== *)
(** ** Facts about the discoverer *)
(* ================================================================== *)

Section WalkFacts.

Import Discover DiscoverSpec.

Local Arguments String.eqb : simpl never.

Lemma fold_enter_trace (d : nat) (top : string) (es : list (string * node))
      (IH : forall top' n acc, walk trace_body d top' n acc = acc ++ visits d top' n)
      (l : list string) (acc : list (string * list string)) :
  fold_left
    (fun acc0 name =>
       let new_path := os_path_join top name in
       if islink_at top es new_path then acc0
       else match lookup name es with
            | Some child => walk trace_body d new_path child acc0
            | None => acc0
            end) l acc
  = acc ++ flat_map (child_visits d top es) l.
Proof.
  revert acc. induction l as [| name l IHl]; intros acc; simpl.
  - now rewrite app_nil_r.
  - rewrite IHl. unfold child_visits at 2.
    destruct (islink_at top es (os_path_join top name)); [reflexivity | ].
    destruct (lookup name es) as [child | ]; [ | reflexivity].
    rewrite IH. now rewrite <- app_assoc.
Qed.

(** The walk only adds to what was yielded before. *)
Lemma walk_trace_acc (d : nat) :
  forall top n acc, walk trace_body d top n acc = acc ++ visits d top n.
Proof.
  induction d as [| d IH]; intros top n acc.
  - unfold visits. simpl. now rewrite app_nil_r.
  - unfold visits. destruct n as [| es | | t |]; simpl; try now rewrite app_nil_r.
    rewrite !(fold_enter_trace d top es IH). simpl. now rewrite <- app_assoc.
Qed.

Lemma visits_dir (d : nat) (top : string) (es : list (string * node)) :
  visits (S d) top (Dir es)
  = (top, dirnames es)
    :: flat_map (child_visits d top es) (keep (islink_at top es) top (dirnames es)).
Proof.
  unfold visits. simpl.
  now rewrite (fold_enter_trace d top es (walk_trace_acc d)).
Qed.

Lemma visits_other (d : nat) (top : string) (n : node) :
  (forall es, n <> Dir es) -> visits d top n = [].
Proof.
  intros H. unfold visits. destruct d; [reflexivity | ].
  destruct n; try reflexivity. now destruct (H entries).
Qed.

Lemma visits_zero (top : string) (n : node) : visits 0 top n = [].
Proof. reflexivity. Qed.

(** After the list comprehension [.git] is no longer in [dirs]. *)
Lemma keep_no_git islink root dirs : mem ".git" (keep islink root dirs) = false.
Proof.
  unfold keep. induction dirs as [| d dirs IH]; cbn [filter]; [reflexivity | ].
  destruct (negb (mem d [".git"; "node_modules"])
            && negb (islink (os_path_join root d))) eqn:K; [ | exact IH].
  apply andb_true_iff in K. destruct K as [K _].
  apply negb_true_iff in K. unfold mem in K. cbn [existsb] in K.
  apply orb_false_iff in K. destruct K as [K _].
  unfold mem in *. cbn [existsb]. rewrite String.eqb_sym, K. exact IH.
Qed.

Lemma extend_state_app s vs1 vs2 :
  extend_state (extend_state s vs1) vs2 = extend_state s (vs1 ++ vs2).
Proof.
  unfold extend_state. simpl. rewrite filter_app, !map_app, !app_assoc. reflexivity.
Qed.

Lemma extend_state_nil s : extend_state s [] = s.
Proof. destruct s. unfold extend_state. simpl. now rewrite !app_nil_r. Qed.

Lemma fold_enter_loop (d : nat) (top : string) (es : list (string * node))
      (IH : forall top' n s, walk loop_body d top' n s = extend_state s (visits d top' n))
      (l : list string) (s : state) :
  fold_left
    (fun acc0 name =>
       let new_path := os_path_join top name in
       if islink_at top es new_path then acc0
       else match lookup name es with
            | Some child => walk loop_body d new_path child acc0
            | None => acc0
            end) l s
  = extend_state s (flat_map (child_visits d top es) l).
Proof.
  revert s. induction l as [| name l IHl]; intros s; simpl.
  - now rewrite extend_state_nil.
  - rewrite IHl. rewrite <- extend_state_app. f_equal. unfold child_visits.
    destruct (islink_at top es (os_path_join top name));
      [now rewrite extend_state_nil | ].
    destruct (lookup name es) as [child | ]; [apply IH | now rewrite extend_state_nil].
Qed.

(** The search appends one path and logs one line for each yielded
    directory that lists [.git], in the order of the yields. *)
Lemma walk_loop_body (d : nat) :
  forall top n s, walk loop_body d top n s = extend_state s (visits d top n).
Proof.
  induction d as [| d IH]; intros top n s.
  - simpl. now rewrite extend_state_nil.
  - destruct n as [| es | | t |];
      try (rewrite visits_other by discriminate; simpl; now rewrite extend_state_nil).
    rewrite visits_dir. simpl.
    rewrite keep_no_git.
    rewrite (fold_enter_loop d top es IH).
    change ((top, dirnames es) :: flat_map (child_visits d top es)
              (keep (islink_at top es) top (dirnames es)))
      with ([(top, dirnames es)] ++ flat_map (child_visits d top es)
              (keep (islink_at top es) top (dirnames es))).
    rewrite <- extend_state_app. f_equal.
    unfold extend_state, has_git, found, found_line. simpl.
    destruct (mem ".git" (dirnames es)); simpl; [reflexivity | ].
    destruct s. simpl. now rewrite !app_nil_r.
Qed.

Lemma find_repos_traversal root tree :
  find_repos root tree = map fst (filter has_git (traversal root tree)).
Proof.
  unfold find_repos, search, traversal. rewrite walk_loop_body. reflexivity.
Qed.

End WalkFacts.

Section PathFacts.

Import Discover DiscoverSpec.
Local Open Scope string_scope.

Local Arguments String.eqb : simpl never.

Lemma append_assoc (a b c : string) : (a ++ b) ++ c = a ++ (b ++ c).
Proof. induction a as [| x a IH]; simpl; [reflexivity | now rewrite IH]. Qed.

Lemma append_nil_r (a : string) : a ++ "" = a.
Proof. induction a as [| x a IH]; simpl; [reflexivity | now rewrite IH]. Qed.

Lemma append_inv_head (a b c : string) : a ++ b = a ++ c -> b = c.
Proof. induction a as [| x a IH]; simpl; [tauto | ]. intros [= E]. now apply IH. Qed.

Lemma append_eq_nil (a b : string) : a ++ b = "" -> a = "" /\ b = "".
Proof. destruct a; simpl; [tauto | discriminate]. Qed.

Lemma good_name_spec (s : string) :
  good_name s = true <-> s <> "" /\ slash_free s = true.
Proof.
  unfold good_name, slash_free. rewrite andb_true_iff, negb_true_iff, String.eqb_neq.
  reflexivity.
Qed.

Lemma slash_free_cons c s :
  slash_free (String c s) = true <->
  Ascii.eqb c Populate.slash = false /\ slash_free s = true.
Proof.
  unfold slash_free. simpl. rewrite andb_true_iff, negb_true_iff. reflexivity.
Qed.

Lemma slash_free_no_end (s : string) :
  slash_free s = true -> Populate.ends_with_slash s = false.
Proof.
  induction s as [| c s IH]; [reflexivity | ].
  intros H. apply slash_free_cons in H. destruct H as [Hc Hs].
  simpl. destruct s; [exact Hc | now apply IH].
Qed.

Lemma slash_free_no_start (s : string) :
  slash_free s = true -> Populate.starts_with_slash s = false.
Proof.
  destruct s as [| c s]; [reflexivity | ].
  intros H. apply slash_free_cons in H. now destruct H.
Qed.

Lemma ends_with_slash_append (a b : string) :
  b <> "" -> Populate.ends_with_slash (a ++ b) = Populate.ends_with_slash b.
Proof.
  intros Hb. induction a as [| c a IH]; [reflexivity | ].
  simpl. destruct (a ++ b) eqn:E; [ | exact IH].
  apply append_eq_nil in E. tauto.
Qed.

Lemma join_good (a b : string) :
  good_name b = true -> os_path_join a b = a ++ sep a ++ b.
Proof.
  intros H. apply good_name_spec in H. destruct H as [_ H].
  unfold os_path_join, sep. rewrite (slash_free_no_start b H).
  destruct (String.eqb a "" || Populate.ends_with_slash a); reflexivity.
Qed.

Lemma sep_join_good (a b : string) :
  good_name b = true -> sep (os_path_join a b) = "/".
Proof.
  intros H. rewrite (join_good a b H).
  apply good_name_spec in H. destruct H as [Hne Hs].
  unfold sep at 1.
  assert (E1 : String.eqb (a ++ sep a ++ b) "" = false).
  { apply String.eqb_neq. intros E. apply append_eq_nil in E. destruct E as [_ E].
    apply append_eq_nil in E. tauto. }
  rewrite E1. rewrite <- append_assoc, ends_with_slash_append by exact Hne.
  now rewrite slash_free_no_end.
Qed.

Lemma path_of_tail (ns : list string) :
  forall p, Forall (fun n => good_name n = true) ns -> sep p = "/" ->
            path_of p ns = p ++ tail_of ns.
Proof.
  induction ns as [| n ns IH]; intros p Hg Hp; simpl.
  - now rewrite append_nil_r.
  - inversion Hg as [| ? ? Hn Hns]; subst.
    unfold path_of in *. simpl. rewrite IH; [ | exact Hns | now apply sep_join_good].
    rewrite (join_good p n Hn), Hp. now rewrite !append_assoc.
Qed.

Lemma path_of_cons (root n : string) (ns : list string) :
  Forall (fun n => good_name n = true) (n :: ns) ->
  path_of root (n :: ns) = root ++ sep root ++ n ++ tail_of ns.
Proof.
  intros Hg. inversion Hg as [| ? ? Hn Hns]; subst.
  change (path_of root (n :: ns)) with (path_of (os_path_join root n) ns).
  rewrite path_of_tail; [ | exact Hns | now apply sep_join_good].
  rewrite (join_good root n Hn). now rewrite !append_assoc.
Qed.

Lemma tail_of_like (ns : list string) : tail_like (tail_of ns).
Proof. destruct ns; [now left | now right]. Qed.

Lemma name_tail_inj (n : string) :
  forall m t1 t2,
    slash_free n = true -> slash_free m = true -> tail_like t1 -> tail_like t2 ->
    n ++ t1 = m ++ t2 -> n = m /\ t1 = t2.
Proof.
  induction n as [| c n IH]; intros m t1 t2 Hn Hm H1 H2 E.
  - destruct m as [| c' m]; [now split | ].
    simpl in E. apply slash_free_cons in Hm. destruct Hm as [Hc _].
    destruct H1 as [-> | H1]; [discriminate E | ].
    subst t1. simpl in H1. congruence.
  - destruct m as [| c' m].
    + simpl in E. apply slash_free_cons in Hn. destruct Hn as [Hc _].
      destruct H2 as [-> | H2]; [discriminate E | ].
      subst t2. simpl in H2. congruence.
    + simpl in E. injection E as -> E.
      apply slash_free_cons in Hn, Hm.
      destruct (IH m t1 t2) as [-> ->]; tauto.
Qed.

Lemma tail_of_inj (ns : list string) :
  forall ms,
    Forall (fun n => good_name n = true) ns ->
    Forall (fun n => good_name n = true) ms ->
    tail_of ns = tail_of ms -> ns = ms.
Proof.
  induction ns as [| n ns IH]; intros [| m ms] Hn Hm E; simpl in E;
    try discriminate E; [reflexivity | ].
  injection E as E.
  inversion Hn as [| ? ? Hgn Hns]; inversion Hm as [| ? ? Hgm Hms]; subst.
  apply good_name_spec in Hgn, Hgm.
  destruct (name_tail_inj n m (tail_of ns) (tail_of ms)) as [-> Et];
    try tauto; try apply tail_of_like.
  f_equal. now apply IH.
Qed.

(** Different routes from the same root spell different paths. *)
Lemma path_of_inj (root : string) (ns ms : list string) :
  Forall (fun n => good_name n = true) ns ->
  Forall (fun n => good_name n = true) ms ->
  path_of root ns = path_of root ms -> ns = ms.
Proof.
  intros Hn Hm E.
  assert (Hnil : forall n l, Forall (fun n => good_name n = true) (n :: l) ->
                             root <> path_of root (n :: l)).
  { intros n l Hg Er. rewrite (path_of_cons root n l Hg) in Er.
    rewrite <- (append_nil_r root) in Er at 1.
    apply append_inv_head in Er. symmetry in Er.
    apply append_eq_nil in Er. destruct Er as [_ Er].
    apply append_eq_nil in Er. destruct Er as [Er _].
    inversion Hg as [| ? ? Hgn _]; subst. apply good_name_spec in Hgn. tauto. }
  destruct ns as [| n ns], ms as [| m ms]; [reflexivity | | | ].
  - exfalso. exact (Hnil m ms Hm E).
  - exfalso. symmetry in E. exact (Hnil n ns Hn E).
  - rewrite (path_of_cons root n ns Hn), (path_of_cons root m ms Hm) in E.
    apply append_inv_head, append_inv_head in E.
    inversion Hn as [| ? ? Hgn Hns]; inversion Hm as [| ? ? Hgm Hms]; subst.
    apply good_name_spec in Hgn, Hgm.
    destruct (name_tail_inj n m (tail_of ns) (tail_of ms)) as [-> Et];
      try tauto; try apply tail_of_like.
    f_equal. now apply tail_of_inj.
Qed.

End PathFacts.

Section RouteFacts.

Import Discover DiscoverSpec.

Local Arguments String.eqb : simpl never.

Lemma lookup_In name es c : lookup name es = Some c -> In (name, c) es.
Proof.
  induction es as [| [n c'] es IH]; simpl; [discriminate | ].
  destruct (String.eqb n name) eqn:E.
  - apply String.eqb_eq in E. intros [= ->]. left. now subst.
  - intros H. right. now apply IH.
Qed.


Lemma wf_entry es name c :
  wf (Dir es) -> In (name, c) es -> good_name name = true /\ wf c.
Proof.
  intros H Hin. inversion H as [| | | | ? _ Hall]; subst.
  rewrite Forall_forall in Hall. exact (Hall (name, c) Hin).
Qed.


Lemma route_wf n names n' :
  route n names n' -> wf n -> good_names names /\ wf n'.
Proof.
  induction 1 as [n | es d child names n' Hl Hk Hg Hm Hr IH]; intros Hwf.
  - split; [constructor | exact Hwf].
  - destruct (wf_entry es d child Hwf (lookup_In _ _ _ Hl)) as [Hgd Hwc].
    destruct (IH Hwc) as [Hns Hwn]. split; [now constructor | exact Hwn].
Qed.


Lemma islink_at_false top es name c :
  islink_at top es (os_path_join top name) = false ->
  In (name, c) es -> is_link c = false.
Proof.
  intros H Hin. destruct (is_link c) eqn:E; [ | reflexivity].
  assert (Ht : islink_at top es (os_path_join top name) = true).
  { unfold islink_at. apply existsb_exists. exists (name, c). split; [exact Hin | ].
    simpl. now rewrite String.eqb_refl, E. }
  congruence.
Qed.



Lemma kept_name islink top dirs name :
  In name (keep islink top dirs) ->
  In name dirs /\ name <> ".git" /\ name <> "node_modules"
  /\ islink (os_path_join top name) = false.
Proof.
  unfold keep. rewrite filter_In, andb_true_iff, !negb_true_iff.
  intros (Hin & Hm & Hl). unfold mem in Hm. cbn [existsb] in Hm.
  apply orb_false_iff in Hm. destruct Hm as [H1 Hm].
  apply orb_false_iff in Hm. destruct Hm as [H2 _].
  apply String.eqb_neq in H1, H2. tauto.
Qed.


(** Every yield is a directory on a route from where the walk started. *)
Lemma visits_sound (d : nat) :
  forall top n p dirs,
    In (p, dirs) (visits d top n) ->
    exists names es,
      route n names (Dir es) /\ p = path_of top names /\ dirs = dirnames es.
Proof.
  induction d as [| d IH]; intros top n p dirs Hin; [destruct Hin | ].
  destruct n as [| es | | t |]; try (rewrite visits_other in Hin by discriminate; destruct Hin).
  rewrite visits_dir in Hin. destruct Hin as [E | Hin].
  - injection E as <- <-. exists [], es. repeat split. constructor.
  - apply in_flat_map in Hin. destruct Hin as (name & Hk & Hin).
    apply kept_name in Hk. destruct Hk as (_ & Hg & Hm & Hl).
    unfold child_visits in Hin. rewrite Hl in Hin.
    destruct (lookup name es) as [child | ] eqn:L; [ | destruct Hin].
    destruct (IH _ _ _ _ Hin) as (names & es' & Hr & -> & ->).
    exists (name :: names), es'. repeat split.
    econstructor; try eassumption.
    eapply islink_at_false; [exact Hl | now apply lookup_In].
Qed.

Lemma height_entry es name c : In (name, c) es -> height c < height (Dir es).
Proof.
  simpl. induction es as [| [n' c'] es IH]; intros Hin; [destruct Hin | ].
  destruct Hin as [E | Hin].
  - injection E as -> ->. lia.
  - specialize (IH Hin). lia.
Qed.

(** A walk that may go deeper than the tree yields no more. *)
Lemma visits_depth (d1 : nat) :
  forall d2 top n, height n <= d1 -> height n <= d2 -> visits d1 top n = visits d2 top n.
Proof.
  induction d1 as [| d1 IH]; intros d2 top n H1 H2.
  - destruct n as [| es | | t |]; try (now rewrite !visits_other by discriminate).
    simpl in H1. lia.
  - destruct n as [| es | | t |]; try (now rewrite !visits_other by discriminate).
    destruct d2 as [| d2]; [simpl in H2; lia | ].
    rewrite !visits_dir. f_equal.
    apply flat_map_ext. intros name. unfold child_visits.
    destruct (islink_at top es (os_path_join top name)); [reflexivity | ].
    destruct (lookup name es) as [child | ] eqn:L; [ | reflexivity].
    pose proof (height_entry es name child (lookup_In _ _ _ L)).
    apply IH; lia.
Qed.







End RouteFacts.

Lemma traversal_visits root tree :
  Discover.traversal root tree
  = DiscoverSpec.visits (S (Discover.height tree)) root tree.
Proof. reflexivity. Qed.

Lemma route_avoids_ignored n names n' :
  Discover.route n names n' -> ~ In ".git" names /\ ~ In "node_modules" names.
Proof.
  induction 1 as [n | es d child names n' Hl Hk Hg Hm Hr [IH1 IH2]]; simpl.
  - tauto.
  - split; intros [E | Hin]; subst; tauto.
Qed.

(** **** C7.  The search never goes through [.git], [node_modules] or a link.
    Every directory the walk yields, and so every path in the output,
    is reached from the root along real directories only: no step of the
    way is a symbolic link, and none is named [.git] or [node_modules].
    In a tree named as a file system names it, a path whose way from the
    root has such a step is therefore not in the output. *)
Theorem search_skips_ignored_and_links :
  forall (root : string) (tree : Discover.node),
    (forall p dirs,
        In (p, dirs) (Discover.traversal root tree) ->
        exists names es,
          Discover.route tree names (Discover.Dir es)
          /\ p = DiscoverSpec.path_of root names
          /\ dirs = Discover.dirnames es)
    /\ (forall p,
           In p (Discover.find_repos root tree) ->
           exists names es,
             Discover.route tree names (Discover.Dir es)
             /\ p = DiscoverSpec.path_of root names
             /\ Discover.mem ".git" (Discover.dirnames es) = true)
    /\ (forall names n',
           Discover.route tree names n' ->
           ~ In ".git" names /\ ~ In "node_modules" names)
    /\ (Discover.wf tree ->
        forall names,
          DiscoverSpec.good_names names ->
          In (DiscoverSpec.path_of root names) (Discover.find_repos root tree) ->
          exists es, Discover.route tree names (Discover.Dir es)).
Proof.
  intros root tree.
  assert (H1 : forall p dirs,
             In (p, dirs) (Discover.traversal root tree) ->
             exists names es,
               Discover.route tree names (Discover.Dir es)
               /\ p = DiscoverSpec.path_of root names
               /\ dirs = Discover.dirnames es)
    by (intros p dirs; rewrite traversal_visits; apply visits_sound).
  assert (H2 : forall p,
             In p (Discover.find_repos root tree) ->
             exists names es,
               Discover.route tree names (Discover.Dir es)
               /\ p = DiscoverSpec.path_of root names
               /\ Discover.mem ".git" (Discover.dirnames es) = true).
  { intros p Hin. rewrite find_repos_traversal in Hin.
    apply in_map_iff in Hin. destruct Hin as ([p' dirs] & Ep & Hin). simpl in Ep. subst p'.
    apply filter_In in Hin. destruct Hin as [Hin Hg].
    destruct (H1 p dirs Hin) as (names & es & Hr & Ep & Ed).
    exists names, es. repeat split; try assumption.
    unfold DiscoverSpec.has_git in Hg. simpl in Hg. now subst dirs. }
  repeat split; try assumption.
  - exact (proj1 (route_avoids_ignored _ _ _ H)).
  - exact (proj2 (route_avoids_ignored _ _ _ H)).
  - intros Hwf names Hg Hin.
    destruct (H2 _ Hin) as (names' & es & Hr & Ep & _).
    destruct (route_wf _ _ _ Hr Hwf) as [Hg' _].
    apply path_of_inj in Ep; [ | assumption | assumption].
    subst names'. now exists es.
Qed.

Lemma sample_tree_wf : Discover.wf Sample.tree.
Proof.
  unfold Sample.tree, Sample.repo.
  repeat first
    [ apply Discover.wf_dir
    | apply Discover.wf_file
    | apply Discover.wf_locked
    | apply Discover.wf_symlink
    | apply Forall_cons
    | apply Forall_nil
    | apply NoDup_cons
    | apply NoDup_nil
    | split
    | reflexivity
    | (simpl; intuition discriminate) ].
Qed.

(** In the sample tree [work/lib] is in the output, so the way to it is
    clean; the copies below [node_modules] and behind the link are not. *)
Lemma search_skips_ignored_and_links_witness :
  (exists es, Discover.route Sample.tree ["work"; "lib"] (Discover.Dir es))
  /\ ~ In "/home/u/node_modules/dep" (Discover.find_repos "/home/u" Sample.tree)
  /\ ~ In "/home/u/alias" (Discover.find_repos "/home/u" Sample.tree).
Proof.
  destruct (search_skips_ignored_and_links "/home/u" Sample.tree) as (_ & _ & Hav & H).
  split; [ | split].
  - apply (H sample_tree_wf ["work"; "lib"]).
    + repeat constructor.
    + vm_compute. tauto.
  - intros Hin.
    destruct (H sample_tree_wf ["node_modules"; "dep"]) as [es Hr].
    + repeat constructor.
    + exact Hin.
    + apply Hav in Hr. simpl in Hr. tauto.
  - intros Hin.
    destruct (H sample_tree_wf ["alias"]) as [es Hr].
    + repeat constructor.
    + exact Hin.
    + inversion Hr as [| ? ? ? ? ? Hl Hk]; subst.
      vm_compute in Hl. injection Hl as <-. discriminate Hk.
Defined.



(** **** C9.  Exit status when the index file is no JSON object.
    With an argument, a usable git and the mirror in place, an index
    file that holds valid JSON other than an object ends the run with
    exit status 1: the update of the index raises, nothing catches it,
    and the second argument is never looked at. *)
Theorem index_array_aborts_run :
  let '(code, w) :=
    Populate.run "populate_git_clone_cache.py" [Sample.app; "/src/missing"]
      Sample.w_index_array in
  fst (Populate.find_real_git Sample.w_index_array) = Populate.Ret (Some Sample.git)
  /\ Populate.access_x Sample.w_index_array Sample.git = true
  /\ Populate.fs Sample.w_index_array (PopulateSpec.index_path Sample.cache)
     = Some (Populate.RegularFile Populate.JsonOther)
  /\ fst (Populate.main "populate_git_clone_cache.py" [Sample.app; "/src/missing"]
            Sample.w_index_array)
     = Populate.Raise "AttributeError"
  /\ code = 1%Z
  /\ Populate.calls w = [PopulateSpec.cmd_get_url Sample.git Sample.app].
Proof. vm_compute. repeat split; reflexivity. Qed.

(** A missing path and a clone that fails do not change the exit status. *)
Example failures_leave_exit_status_zero :
  let '(code, w) :=
    Populate.run "populate_git_clone_cache.py" ["/src/missing"; Sample.app]
      Sample.w_unreachable in
  code = 0%Z
  /\ Populate.calls w = [PopulateSpec.cmd_get_url Sample.git Sample.app]
  /\ Populate.fs w Sample.mirror = None.
Proof. vm_compute. repeat split; reflexivity. Qed.

(** Called without a log file, [populate_cache] clones the first time,
    and the second time fetches and leaves the index as it is. *)
Example second_populate_fetches :
  let populate :=
    Populate.populate_cache Sample.origin Sample.mirror Sample.git Sample.app Sample.cache
      false in
  let '(o1, w1) := populate Sample.w_fresh in
  let '(o2, w2) := populate w1 in
  o1 = Populate.Ret true /\ o2 = Populate.Ret true
  /\ Populate.calls w1
     = [ PopulateSpec.cmd_clone Sample.git Sample.app Sample.mirror;
         PopulateSpec.cmd_set_url Sample.git Sample.mirror Sample.origin ]
  /\ Populate.calls w2
     = Populate.calls w1 ++
       [ PopulateSpec.cmd_fetch Sample.git Sample.mirror;
         PopulateSpec.cmd_set_url Sample.git Sample.mirror Sample.origin ]
  /\ Populate.fs w1 (PopulateSpec.index_path Sample.cache)
     = Some (Populate.RegularFile
               (Populate.JsonObject [(Sample.origin, Populate.PStr Sample.key)]))
  /\ Populate.fs w2 (PopulateSpec.index_path Sample.cache)
     = Populate.fs w1 (PopulateSpec.index_path Sample.cache).
Proof. vm_compute. repeat split; reflexivity. Qed.

(** A regular file given as an argument is what the script takes for a URL. *)
Example existing_file_is_taken_for_a_url :
  let '(code, w) :=
    Populate.run "populate_git_clone_cache.py" ["/src/repo.bundle"] Sample.w_bundle in
  code = 0%Z
  /\ In (Populate.Stdout, "[populate_git_clone_cache][INFO] Caching: /src/repo.bundle")
        (Populate.output w).
Proof. vm_compute. split; [reflexivity | tauto]. Qed.

(** [mkdir(parents=True)] makes the directories above the cache root. *)
Example cache_root_with_missing_parents :
  let w := snd (Populate.mkdir_p "/a/b/cache" (Sample.world [("/", Populate.Directory)]
                                                 (Sample.fake_git [] [] true))) in
  map (Populate.fs w) ["/"; "/a"; "/a/b"; "/a/b/cache"; "/a/c"]
  = [Some Populate.Directory; Some Populate.Directory; Some Populate.Directory;
     Some Populate.Directory; None].
Proof. vm_compute. reflexivity. Qed.

(* ================================================================== *)
(** ** Further facts: the discoverer as a script *)
(* ================================================================== *)

Section DiscoverMainFacts.

Import DiscoverMain DiscoverMainSpec.
Local Open Scope walk_scope.




End DiscoverMainFacts.



Example discover_sample_run :
  let '(code, w) := DiscoverMain.run ["/home/u"] SampleWalk.w_tree in
  code = 0%Z
  /\ DiscoverMain.calls w
     = [ ["/usr/bin/python3"; "-m"; "populate_git_clone_cache"; "/home/u/app"];
         ["/usr/bin/python3"; "-m"; "populate_git_clone_cache"; "/home/u/work/lib"] ].
Proof. vm_compute. repeat split; reflexivity. Qed.


Section ReportedFacts.

Import Discover DiscoverSpec.

Local Arguments String.eqb : simpl never.



End ReportedFacts.



(* ================================================================== *)
(** ** Further facts: the populator *)
(* ================================================================== *)

Section MoreMainFacts.

Import Populate PopulateSpec MoreSpec.
Local Open Scope py_scope.

Lemma find_real_git_value w :
  find_real_git w
  = (Ret match which_git w with
         | Some g =>
             if negb (String.eqb g "")
                && negb (String.eqb (resolve w (Path g)) (resolve w (wrapper_path w)))
             then Some g else None
         | None => None
         end, w).
Proof.
  unfold find_real_git, wrapper_path, bind, get, ret. simpl.
  destruct (which_git w) as [g | ]; [ | reflexivity].
  destruct (negb (g =? "") && negb (resolve w (Path g) =? _)); reflexivity.
Qed.

(** Past the check of the binary, [main] is the set-up of the cache
    root followed by the loop. *)
Lemma main_usable_git prog args w g :
  usable_git w g ->
  main prog args w
  = (mkdir_p (cache_dir_of w) ;;
     get_log_file (cache_dir_of w) ;;
     match args with
     | [] =>
         error ("Usage: " ++ path_name prog
                ++ " /path/to/repo1 [/path/to/repo2 ...] [https://url ...]") false ;;
         log_write "Exiting due to missing arguments." ;;
         sys_exit 1
     | _ :: _ =>
         for_each args (process_arg g (cache_dir_of w)) ;;
         info "Done." true ;;
         log_write "Done."
     end)
      (add_output [(Stdout, (tag_info ++ "real_git resolved to: " ++ g)%string)] w).
Proof.
  intros [Hg Hx]. pose proof (find_real_git_some w g Hg) as Hne. revert Hg.
  unfold main.
  unfold bind at 1. destruct (find_real_git_ret w) as [g' ->]. cbn [fst]. cbv beta iota.
  intros [= ->].
  unfold bind at 1. unfold info at 1. rewrite emit_eq. cbv beta iota.
  set (w0 := add_output _ w).
  unfold bind at 1. unfold bind at 1. unfold get at 1. unfold ret at 1. cbv beta iota.
  change (access_x w0 g) with (access_x w g). rewrite Hx, Hne. cbn [negb andb].
  cbv beta iota.
  unfold bind at 1. unfold get at 1. cbv beta iota.
  unfold bind at 1. unfold get at 1. cbv beta iota.
  reflexivity.
Qed.

(** Short of a usable binary, [main] prints and leaves. *)
Lemma main_unusable_git prog args w :
  (forall g, ~ usable_git w g) ->
  exists l, main prog args w = (SysExit 1, add_output l w).
Proof.
  intros Hno. unfold main.
  unfold bind at 1. destruct (find_real_git_ret w) as [g E]. rewrite E. cbv beta iota.
  unfold bind at 1. unfold info at 1. rewrite emit_eq. cbv beta iota.
  destruct g as [g | ].
  - unfold bind at 1. unfold bind at 1. unfold get, ret. cbv beta iota.
    cbn [access_x add_output].
    destruct (access_x w g) eqn:Hx.
    + exfalso. apply (Hno g). split; [now rewrite E | exact Hx].
    + rewrite andb_false_r. cbn [negb]. cbv beta iota.
      unfold bind, error, emit, modify, sys_exit. cbn.
      eexists. unfold add_output. cbn. rewrite <- !app_assoc. reflexivity.
  - unfold bind, ret, error, emit, modify, sys_exit. cbn.
    eexists. unfold add_output. cbn. rewrite <- !app_assoc. reflexivity.
Qed.

Lemma bind_raise {A B : Type} (m : M A) (k : A -> M B) w e w' :
  m w = (Raise e, w') -> bind m k w = (Raise e, w').
Proof. intros E. unfold bind. now rewrite E. Qed.

Lemma usable_git_dec w : (exists g, usable_git w g) \/ (forall g, ~ usable_git w g).
Proof.
  unfold usable_git. destruct (find_real_git_ret w) as [[g | ] E]; rewrite E; cbn [fst].
  - destruct (access_x w g) eqn:Hx.
    + left. exists g. now split.
    + right. intros g' [[= <-] Hx']. congruence.
  - right. intros g' [H _]. discriminate H.
Qed.

Lemma mkdir_p_frame p w :
  calls (snd (mkdir_p p w)) = calls w
  /\ exec (snd (mkdir_p p w)) = exec w
  /\ write_denied (snd (mkdir_p p w)) = write_denied w
  /\ output (snd (mkdir_p p w)) = output w.
Proof.
  destruct (mkdir_parents_spec (String.length p) p w) as [(H1 & H2 & H3 & _ & H5) _].
  repeat split; assumption.
Qed.

Lemma open_append_frame p w :
  calls (snd (open_append p w)) = calls w
  /\ exec (snd (open_append p w)) = exec w
  /\ write_denied (snd (open_append p w)) = write_denied w
  /\ output (snd (open_append p w)) = output w.
Proof.
  destruct (open_append_spec p w) as [(H1 & H2 & H3 & _ & H5) _].
  repeat split; assumption.
Qed.

Lemma get_log_file_frame cache w :
  calls (snd (get_log_file cache w)) = calls w
  /\ output (snd (get_log_file cache w)) = output w.
Proof.
  destruct (get_log_file_spec cache w) as [(H1 & _ & _ & _ & H5) _].
  split; assumption.
Qed.

End MoreMainFacts.

(** **** X4.  Which binary [find_real_git] gives.
    [find_real_git] gives the path [shutil.which] found exactly when
    that path does not resolve to the wrapper [out/git] beside the
    script; otherwise it gives [None].  It changes nothing, and it never
    gives the wrapper itself. *)
Theorem find_real_git_skips_wrapper :
  forall (w : Populate.World) (g : string),
    snd (Populate.find_real_git w) = w
    /\ (fst (Populate.find_real_git w) = Populate.Ret (Some g)
        <-> Populate.which_git w = Some g
            /\ g <> ""
            /\ Populate.resolve w (Populate.Path g)
               <> Populate.resolve w (MoreSpec.wrapper_path w)).
Proof.
  intros w g. rewrite find_real_git_value. cbn [fst snd]. split; [reflexivity | ].
  destruct (Populate.which_git w) as [g' | ].
  - destruct (String.eqb g' "") eqn:E1; cbn [negb andb].
    + apply String.eqb_eq in E1. split; [discriminate | ].
      intros ([= ->] & H & _). contradiction.
    + destruct (String.eqb (Populate.resolve w (Populate.Path g')) _) eqn:E2; cbn [negb].
      * apply String.eqb_eq in E2. split; [discriminate | ].
        intros ([= ->] & _ & H). contradiction.
      * apply String.eqb_neq in E1, E2. split.
        -- intros [= ->]. auto.
        -- intros ([= ->] & _). reflexivity.
  - split; [discriminate | intros (H & _); discriminate H].
Qed.

Lemma find_real_git_skips_wrapper_witness :
  fst (Populate.find_real_git Sample.w_fresh) = Populate.Ret (Some Sample.git).
Proof.
  apply (proj2 (proj2 (find_real_git_skips_wrapper Sample.w_fresh Sample.git))).
  repeat split; vm_compute; discriminate.
Defined.

(** **** X5.  Without a usable git nothing is touched.
    When no git binary is found, or the one found is not executable, the
    run ends with status 1 whatever its arguments are, and it has only
    printed: no child was launched, and no file or directory was made,
    not even the cache root. *)
Theorem run_without_git_touches_nothing :
  forall (prog : string) (args : list string) (w : Populate.World),
    (forall g, ~ MoreSpec.usable_git w g) ->
    fst (Populate.run prog args w) = 1%Z
    /\ Populate.fs (snd (Populate.run prog args w)) = Populate.fs w
    /\ Populate.calls (snd (Populate.run prog args w)) = Populate.calls w.
Proof.
  intros prog args w Hno. unfold Populate.run.
  destruct (main_unusable_git prog args w Hno) as [l ->]. repeat split.
Qed.

Lemma run_without_git_touches_nothing_witness :
  fst (Populate.run "populate_git_clone_cache.py" [Sample.app] SampleMore.w_no_git) = 1%Z.
Proof.
  apply run_without_git_touches_nothing.
  intros g [H _]. vm_compute in H. discriminate H.
Defined.

(** **** X6.  Without arguments the run ends with status 1 and launches nothing.
    Whatever the world, a run without arguments ends with exit status 1
    and launches no child process. *)
Theorem run_without_arguments_launches_nothing :
  forall (prog : string) (w : Populate.World),
    fst (Populate.run prog [] w) = 1%Z
    /\ Populate.calls (snd (Populate.run prog [] w)) = Populate.calls w.
Proof.
  intros prog w. split; [apply run_no_arguments | ].
  unfold Populate.run.
  destruct (usable_git_dec w) as [[g Hg] | Hno].
  - rewrite (main_usable_git prog [] w g Hg).
    set (w0 := Populate.add_output _ w).
    unfold Populate.bind at 1.
    pose proof (mkdir_p_frame (MoreSpec.cache_dir_of w) w0) as (Hc & _).
    destruct (Populate.mkdir_p (MoreSpec.cache_dir_of w) w0) as [[[] | e | c] w1];
      cbn [snd] in *; try exact Hc.
    unfold Populate.bind at 1.
    pose proof (get_log_file_frame (MoreSpec.cache_dir_of w) w1) as (Hc' & _).
    destruct (Populate.get_log_file (MoreSpec.cache_dir_of w) w1) as [[[] | e | c] w2];
      cbn [snd] in *; try (rewrite Hc', Hc; reflexivity).
    cbn. rewrite Hc', Hc. reflexivity.
  - destruct (main_unusable_git prog [] w Hno) as [l ->]. reflexivity.
Qed.

(** **** X7.  A cache root that is a regular file ends the run.
    With a usable git, when the path of the cache root names a regular
    file the run ends with status 1 on the exception [mkdir] raises, for
    any arguments: no argument is processed and no child is launched. *)
Theorem cache_root_in_the_way_ends_run :
  forall (prog g : string) (args : list string) (w : Populate.World) (c : Populate.content),
    MoreSpec.usable_git w g ->
    Populate.fs w (MoreSpec.cache_dir_of w) = Some (Populate.RegularFile c) ->
    fst (Populate.main prog args w) = Populate.Raise "FileExistsError"
    /\ fst (Populate.run prog args w) = 1%Z
    /\ Populate.calls (snd (Populate.run prog args w)) = Populate.calls w
    /\ Populate.fs (snd (Populate.run prog args w)) = Populate.fs w.
Proof.
  intros prog g args w c Hg Hf. unfold Populate.run.
  rewrite (main_usable_git prog args w g Hg).
  set (w0 := Populate.add_output _ w).
  rewrite (bind_raise _ _ w0 "FileExistsError" w0); [repeat split | ].
  apply (mkdir_p_file _ c). exact Hf.
Qed.

Lemma cache_root_in_the_way_ends_run_witness :
  fst (Populate.run "populate_git_clone_cache.py" [Sample.app] SampleMore.w_cache_is_file)
  = 1%Z.
Proof.
  refine (proj1 (proj2 (cache_root_in_the_way_ends_run "populate_git_clone_cache.py"
                          Sample.git [Sample.app] SampleMore.w_cache_is_file
                          Populate.Unparsable _ _))).
  - split; vm_compute; reflexivity.
  - vm_compute. reflexivity.
Defined.

Section MoreLoopFacts.

Import Populate PopulateSpec MoreSpec.
Local Open Scope py_scope.



Lemma index_exception_escapes {A B} run git (o : outcome A) (o' : outcome B) :
  returns_or_index_exception o ->
  match o with Ret _ => True | Raise e => o' = Raise e | SysExit c => o' = SysExit c end ->
  (forall a, o = Ret a -> returns_or_escapes run git o') ->
  returns_or_escapes run git o'.
Proof.
  destruct o as [a | e | c]; cbn.
  - intros _ _ H. now apply (H a).
  - intros [-> | ->] -> _; cbn; constructor.
  - contradiction.
Qed.





End MoreLoopFacts.



(** **** X9.  An argument that names nothing is skipped.
    For an argument, given in text the log can take, whose path does not
    exist ([stat] reports that nothing is there) the loop body reports
    "Path does not exist" on the error stream and in the log and does
    nothing else: no child is launched and no file is touched; the loop
    goes on with the next arguments.  When [stat] fails otherwise, as
    for a name that is too long, [exists()] raises: the loop ends there
    with neither message nor change, and the rest of the arguments is
    not looked at. *)
Theorem missing_path_is_skipped :
  forall (git cache arg : string) (rest : list string) (w : Populate.World),
    let r := Populate.process_arg git cache arg w in
    (PopulateSpec.encodable arg = true ->
     Populate.fs w (Populate.Path arg) = None ->
     fst r = Populate.Ret tt
     /\ Populate.fs (snd r) = Populate.fs w
     /\ Populate.calls (snd r) = Populate.calls w
     /\ Populate.output (snd r)
        = Populate.output w ++
          [(Populate.Stderr, (Populate.tag_error ++ "Path does not exist: " ++ arg)%string);
           (Populate.LogFile, (Populate.tag_error ++ "Path does not exist: " ++ arg)%string)]
     /\ Populate.for_each (arg :: rest) (Populate.process_arg git cache) w
        = Populate.for_each rest (Populate.process_arg git cache) (snd r))
    /\ (Populate.fs w (Populate.Path arg) = Some Populate.NoStat ->
        Populate.for_each (arg :: rest) (Populate.process_arg git cache) w
        = (Populate.Raise "OSError", w)).
Proof.
  intros git cache arg rest w r. split.
  - intros _ E.
    assert (Er : r = (Populate.Ret tt,
                      Populate.add_output
                        [(Populate.Stderr,
                          (Populate.tag_error ++ "Path does not exist: " ++ arg)%string);
                         (Populate.LogFile,
                          (Populate.tag_error ++ "Path does not exist: " ++ arg)%string)] w))
      by (unfold r; now apply process_arg_missing).
    repeat split; try (rewrite Er; reflexivity).
    cbn [Populate.for_each]. unfold Populate.bind at 1. fold r. now rewrite Er.
  - intros E. cbn [Populate.for_each]. unfold Populate.bind at 1.
    now rewrite (process_arg_no_stat git cache arg w E).
Qed.

Lemma missing_path_is_skipped_witness :
  fst (Populate.process_arg Sample.git Sample.cache "/src/missing" Sample.w_fresh)
  = Populate.Ret tt
  /\ fst (Populate.for_each [SampleMore.long_name; Sample.app]
            (Populate.process_arg Sample.git Sample.cache) SampleMore.w_long_name)
     = Populate.Raise "OSError".
Proof.
  split.
  - refine (proj1 (proj1 (missing_path_is_skipped Sample.git Sample.cache "/src/missing" []
                            Sample.w_fresh) _ _)); vm_compute; reflexivity.
  - rewrite (proj2 (missing_path_is_skipped Sample.git Sample.cache SampleMore.long_name
                      [Sample.app] SampleMore.w_long_name));
      [reflexivity | vm_compute; reflexivity].
Defined.


(** **** X11.  After an update the index holds the key.
    When the update gets a mapping to start from, and the index file is
    no directory and can be opened for writing, the update returns
    normally.  If the key is in place already, or the write goes through,
    the index then holds the cache key under the URL.  If the write fails
    after the file was opened, the index is left cut short: it does not
    load and holds no entry at all. *)
Theorem index_holds_key_after_update :
  forall (cache url key : string) (lf : bool) (w : Populate.World),
    let p := PopulateSpec.index_path cache in
    PopulateSpec.index_usable w cache ->
    Populate.fs w p <> Some Populate.Directory ->
    Populate.write_denied w p = false ->
    let r := Populate.update_directory_json cache url key lf w in
    fst r = Populate.Ret tt
    /\ (PopulateSpec.index_entry w cache url = Some (Populate.PStr key)
        \/ Populate.dump_fails w p = false ->
        PopulateSpec.index_entry (snd r) cache url = Some (Populate.PStr key))
    /\ (PopulateSpec.index_entry w cache url <> Some (Populate.PStr key) ->
        Populate.dump_fails w p = true ->
        Populate.fs (snd r) p = Some (Populate.RegularFile Populate.Unparsable)
        /\ forall u, PopulateSpec.index_entry (snd r) cache u = None).
Proof.
  intros cache url key lf w p Hu Hd Hw r.
  pose proof (update_directory_json_cases cache url key lf w) as Hc.
  cbv zeta in Hc. fold p r in Hc. destruct Hu as [Hs Hj]. fold p in Hs, Hj.
  destruct Hc as [[Hf _] | [[Hf _] | [(_ & Hdf & E) | [(_ & _ & Hfail & _)
                 | [(_ & Hdf & _ & _ & Hdump & Ho & E) | (_ & Hdf & _ & _ & Hdump & Ho & E)]]]]].
  - contradiction.
  - contradiction.
  - apply differs_false in Hdf. rewrite <- index_entry_start_mapping in Hdf.
    rewrite E. cbn [fst snd]. repeat split; try assumption; try contradiction.
    intros _. exact Hdf.
  - destruct Hfail; congruence.
  - apply differs_true_iff in Hdf. rewrite <- index_entry_start_mapping in Hdf.
    assert (Ei : Populate.fs (snd r) p = Some (Populate.RegularFile Populate.Unparsable)).
    { rewrite E. unfold Populate.fs_put. now rewrite String.eqb_refl. }
    split; [exact Ho | split].
    + intros [He | Hd']; congruence.
    + intros _ _. split; [exact Ei | ].
      intros u. unfold PopulateSpec.index_entry, PopulateSpec.index_members.
      fold p. now rewrite Ei.
  - split; [exact Ho | split; [ | intros _ Hd'; congruence]].
    intros _.
    assert (Hnd : NoDup (Populate.keys
                           (Populate.dict_set (PopulateSpec.start_mapping w cache) url
                              (Populate.PStr key))))
      by (apply NoDup_keys_dict_set, NoDup_keys_start_mapping).
    rewrite (proj2 (index_entry_after_write w (snd r) cache _ url Hnd E)).
    apply dict_get_set_same.
Qed.

Lemma index_holds_key_after_update_witness :
  PopulateSpec.index_entry
    (snd (Populate.update_directory_json Sample.cache Sample.origin Sample.key true
            Sample.w_other_entry))
    Sample.cache Sample.origin
  = Some (Populate.PStr Sample.key)
  /\ PopulateSpec.index_entry
       (snd (Populate.update_directory_json Sample.cache Sample.origin Sample.key true
               SampleMore.w_disk_full))
       Sample.cache "https://z.example/z.git"
     = None.
Proof.
  split.
  - refine (proj1 (proj2 (index_holds_key_after_update Sample.cache Sample.origin Sample.key
                            true Sample.w_other_entry _ _ _)) _).
    + split; vm_compute; discriminate.
    + vm_compute. discriminate.
    + vm_compute. reflexivity.
    + right. vm_compute. reflexivity.
  - refine (proj2 (proj2 (proj2 (index_holds_key_after_update Sample.cache Sample.origin
                                   Sample.key true SampleMore.w_disk_full _ _ _)) _ _) _).
    + split; vm_compute; discriminate.
    + vm_compute. discriminate.
    + vm_compute. reflexivity.
    + vm_compute. discriminate.
    + vm_compute. reflexivity.
Defined.

(** **** X12.  A missing or unreadable index is taken for an empty one.
    When the index file is missing, or is there but cannot be loaded,
    and can be opened for writing, the update returns normally.  If the
    write goes through it leaves an index whose only entry is the one of
    the URL: whatever an unreadable file held is gone.  If the write
    fails after the file was opened, the file is left unreadable. *)
Theorem unreadable_index_is_replaced :
  forall (cache url key : string) (lf : bool) (w : Populate.World),
    Populate.fs w (PopulateSpec.index_path cache) = None
    \/ Populate.fs w (PopulateSpec.index_path cache)
       = Some (Populate.RegularFile Populate.Unparsable) ->
    Populate.write_denied w (PopulateSpec.index_path cache) = false ->
    let r := Populate.update_directory_json cache url key lf w in
    fst r = Populate.Ret tt
    /\ (Populate.dump_fails w (PopulateSpec.index_path cache) = false ->
        PopulateSpec.index_members (snd r) cache = Some [(url, Populate.PStr key)])
    /\ (Populate.dump_fails w (PopulateSpec.index_path cache) = true ->
        Populate.fs (snd r) (PopulateSpec.index_path cache)
        = Some (Populate.RegularFile Populate.Unparsable)).
Proof.
  intros cache url key lf w Hf Hw r.
  pose proof (update_directory_json_cases cache url key lf w) as Hc.
  cbv zeta in Hc. fold r in Hc.
  assert (Hs : PopulateSpec.start_mapping w cache = []).
  { unfold PopulateSpec.start_mapping, PopulateSpec.index_members.
    destruct Hf as [-> | ->]; reflexivity. }
  rewrite Hs in Hc. cbn [Populate.dict_get Populate.differs Populate.dict_set
                           Populate.sort_keys fold_right Populate.insert_by_key] in Hc.
  destruct Hc as [[Hj _] | [[Hj _] | [(_ & Hdf & _) | [(_ & _ & Hfail & _)
                 | [(_ & _ & _ & _ & Hdump & Ho & E) | (_ & _ & _ & _ & Hdump & Ho & E)]]]]].
  - destruct Hf as [Hf | Hf]; congruence.
  - destruct Hf as [Hf | Hf]; congruence.
  - discriminate Hdf.
  - destruct Hfail as [Hd | Hd]; [destruct Hf as [Hf | Hf]; congruence | congruence].
  - split; [exact Ho | split; [intros Hd'; congruence | intros _]].
    rewrite E. unfold Populate.fs_put. now rewrite String.eqb_refl.
  - split; [exact Ho | split; [intros _ | intros Hd'; congruence]].
    unfold PopulateSpec.index_members. rewrite E. unfold Populate.fs_put.
    now rewrite String.eqb_refl.
Qed.

Lemma unreadable_index_is_replaced_witness :
  PopulateSpec.index_members
    (snd (Populate.update_directory_json Sample.cache Sample.origin Sample.key true
            SampleMore.w_index_corrupt))
    Sample.cache
  = Some [(Sample.origin, Populate.PStr Sample.key)].
Proof.
  refine (proj1 (proj2 (unreadable_index_is_replaced Sample.cache Sample.origin Sample.key true
                          SampleMore.w_index_corrupt _ _)) _).
  - right. vm_compute. reflexivity.
  - vm_compute. reflexivity.
  - vm_compute. reflexivity.
Defined.

(** **** X13.  An index that cannot be written does not stop anything.
    When the index file cannot be opened for writing, and is not valid
    JSON of another kind than an object, the update returns normally and
    leaves every file as it was, unless [stat] of the index path fails:
    then [exists()] raises before anything is read. *)
Theorem unwritable_index_is_left_alone :
  forall (cache url key : string) (lf : bool) (w : Populate.World),
    Populate.write_denied w (PopulateSpec.index_path cache) = true ->
    Populate.fs w (PopulateSpec.index_path cache)
    <> Some (Populate.RegularFile Populate.JsonOther) ->
    let r := Populate.update_directory_json cache url key lf w in
    (Populate.fs w (PopulateSpec.index_path cache) <> Some Populate.NoStat ->
     fst r = Populate.Ret tt
     /\ Populate.fs (snd r) = Populate.fs w
     /\ Populate.calls (snd r) = Populate.calls w)
    /\ (Populate.fs w (PopulateSpec.index_path cache) = Some Populate.NoStat ->
        r = (Populate.Raise "OSError", w)).
Proof.
  intros cache url key lf w Hw Hj r.
  pose proof (update_directory_json_frame cache url key lf w) as (Hcalls & _).
  pose proof (update_directory_json_cases cache url key lf w) as Hc.
  cbv zeta in Hc, Hcalls. fold r in Hc, Hcalls.
  destruct Hc as [[Hf E] | [[Hf _] | [([Hs _] & _ & E) | [([Hs _] & _ & _ & Ho & E & _)
                 | [(_ & _ & _ & Hd & _) | (_ & _ & _ & Hd & _)]]]]].
  - split; [intros Hn; contradiction | intros _; exact E].
  - contradiction.
  - split; [intros _; rewrite E; repeat split | intros Hn; contradiction].
  - split; [intros _; repeat split; assumption | intros Hn; contradiction].
  - congruence.
  - congruence.
Qed.

Lemma unwritable_index_is_left_alone_witness :
  fst (Populate.update_directory_json Sample.cache Sample.origin Sample.key true
         SampleMore.w_index_read_only)
  = Populate.Ret tt.
Proof.
  refine (proj1 (proj1 (unwritable_index_is_left_alone Sample.cache Sample.origin Sample.key
                          true SampleMore.w_index_read_only _ _) _)).
  - vm_compute. reflexivity.
  - vm_compute. discriminate.
  - vm_compute. discriminate.
Defined.
Section StripFacts.

Import Populate PopulateSpec MoreSpec.

Lemma string_rev_app a b : string_rev (a ++ b) = (string_rev b ++ string_rev a)%string.
Proof.
  induction a as [| c a IH]; simpl.
  - now rewrite append_nil_r.
  - rewrite IH. now rewrite append_assoc.
Qed.

Lemma string_rev_involutive s : string_rev (string_rev s) = s.
Proof.
  induction s as [| c s IH]; [reflexivity | ].
  simpl. rewrite string_rev_app. simpl. now rewrite IH.
Qed.

Lemma length_append a b : String.length (a ++ b) = (String.length a + String.length b)%nat.
Proof. induction a as [| c a IH]; simpl; [reflexivity | now rewrite IH]. Qed.

Lemma string_rev_length s : String.length (string_rev s) = String.length s.
Proof.
  induction s as [| c s IH]; [reflexivity | ].
  simpl. rewrite length_append, IH. simpl. lia.
Qed.

Lemma string_rev_empty s : string_rev s = "" -> s = "".
Proof.
  intros E. apply (f_equal String.length) in E. rewrite string_rev_length in E.
  destruct s; [reflexivity | discriminate E].
Qed.

Lemma drop_prefix_app p s r : drop_prefix p s = Some r -> s = (p ++ r)%string.
Proof.
  revert s. induction p as [| a p IH]; intros s; simpl.
  - now intros [= ->].
  - destruct s as [| b s]; [discriminate | ].
    destruct (Ascii.eqb a b) eqn:E; [ | discriminate].
    apply Ascii.eqb_eq in E. subst b. intros H. now rewrite (IH s H).
Qed.

Lemma drop_prefix_self p s : drop_prefix p (p ++ s) = Some s.
Proof.
  induction p as [| a p IH]; simpl; [reflexivity | ].
  now rewrite Ascii.eqb_refl.
Qed.

Lemma drop_prefix_more p u r t :
  drop_prefix p u = Some r -> drop_prefix p (u ++ t) = Some (r ++ t)%string.
Proof.
  intros H. apply drop_prefix_app in H. subst u.
  rewrite append_assoc. apply drop_prefix_self.
Qed.

Lemma drop_any_app ps s r : drop_any ps s = Some r -> exists p, In p ps /\ s = (p ++ r)%string.
Proof.
  induction ps as [| p ps IH]; simpl; [discriminate | ].
  destruct (drop_prefix p s) as [r' | ] eqn:E.
  - intros [= ->]. exists p. split; [now left | now apply drop_prefix_app].
  - intros H. destruct (IH H) as (q & Hq & Hs). exists q. split; [now right | exact Hs].
Qed.

Lemma drop_any_more ps u r t :
  drop_any ps u = Some r -> exists r', drop_any ps (u ++ t) = Some r'.
Proof.
  induction ps as [| p ps IH]; simpl; [discriminate | ].
  destruct (drop_prefix p u) as [r0 | ] eqn:E.
  - intros _. rewrite (drop_prefix_more p u r0 t E). eexists. reflexivity.
  - intros H. destruct (drop_prefix p (u ++ t)); [eexists; reflexivity | now apply IH].
Qed.

Lemma drop_any_shorter ps s r :
  no_empty ps -> drop_any ps s = Some r -> (String.length r < String.length s)%nat.
Proof.
  intros Hne H. destruct (drop_any_app ps s r H) as (p & Hp & ->).
  rewrite length_append.
  unfold no_empty in Hne. rewrite Forall_forall in Hne. specialize (Hne p Hp).
  destruct p; [contradiction | simpl; lia].
Qed.

(** With enough turns nothing of [ps] is left at the start. *)
Lemma lstrip_by_done ps n s :
  no_empty ps -> (String.length s <= n)%nat -> drop_any ps (lstrip_by ps n s) = None.
Proof.
  intros Hne. revert s. induction n as [| n IH]; intros s Hn; simpl.
  - destruct s; [ | simpl in Hn; lia].
    destruct (drop_any ps "") as [r | ] eqn:E; [ | reflexivity].
    apply (drop_any_shorter ps "" r Hne) in E. simpl in E. lia.
  - destruct (drop_any ps s) as [r | ] eqn:E; [ | exact E].
    apply IH. apply (drop_any_shorter ps s r Hne) in E. lia.
Qed.

Lemma lstrip_by_fixed ps n s : drop_any ps s = None -> lstrip_by ps n s = s.
Proof. intros E. destruct n; simpl; [reflexivity | now rewrite E]. Qed.

(** What is dropped is made of [ps]; what is left is the end of [s]. *)
Lemma lstrip_by_split ps n s :
  exists u, made_of ps u /\ s = (u ++ lstrip_by ps n s)%string.
Proof.
  revert s. induction n as [| n IH]; intros s; simpl.
  - exists "". split; [constructor | reflexivity].
  - destruct (drop_any ps s) as [r | ] eqn:E.
    + destruct (drop_any_app ps s r E) as (p & Hp & ->).
      destruct (IH r) as (u & Hu & Hr).
      exists (p ++ u)%string. split; [now constructor | ].
      rewrite append_assoc. now rewrite <- Hr.
    + exists "". split; [constructor | reflexivity].
Qed.

Lemma made_of_app ps a b : made_of ps a -> made_of ps b -> made_of ps (a ++ b).
Proof.
  intros Ha Hb. induction Ha as [| p s Hp Hs IH]; [exact Hb | ].
  rewrite append_assoc. now constructor.
Qed.

Lemma made_of_rev ps s : made_of (map string_rev ps) s -> made_of ps (string_rev s).
Proof.
  intros H. induction H as [| q s Hq Hs IH]; [constructor | ].
  rewrite string_rev_app. apply made_of_app; [exact IH | ].
  apply in_map_iff in Hq. destruct Hq as (p & <- & Hp).
  rewrite string_rev_involutive.
  rewrite <- (append_nil_r p). constructor; [exact Hp | constructor].
Qed.

(** With a prefix code, a string made of [ps] is dropped whole. *)
Lemma lstrip_by_made_of ps s :
  no_empty ps -> prefix_code ps -> made_of ps s ->
  forall n, (String.length s <= n)%nat -> lstrip_by ps n s = "".
Proof.
  intros Hne Hpc H. induction H as [| p s Hp Hs IH]; intros n Hn.
  - apply lstrip_by_fixed.
    destruct (drop_any ps "") as [r | ] eqn:E; [ | reflexivity].
    apply (drop_any_shorter ps "" r Hne) in E. simpl in E. lia.
  - rewrite length_append in Hn.
    assert (Hp' : p <> "") by (unfold no_empty in Hne; rewrite Forall_forall in Hne; auto).
    destruct n as [| n]; [destruct p; [contradiction | simpl in Hn; lia] | ].
    simpl. rewrite (Hpc p s Hp). apply IH.
    destruct p; [contradiction | simpl in Hn; lia].
Qed.

Lemma spaces_no_empty : no_empty spaces.
Proof. unfold no_empty. repeat constructor; discriminate. Qed.

Lemma rev_spaces_no_empty : no_empty (map string_rev spaces).
Proof. unfold no_empty. repeat constructor; discriminate. Qed.

Lemma spaces_prefix_code : prefix_code spaces.
Proof.
  intros p s Hp. unfold spaces, white_space in Hp. cbn [map] in Hp.
  repeat (destruct Hp as [<- | Hp]; [vm_compute; reflexivity | ]).
  destruct Hp.
Qed.

Lemma lstrip_no_start s : starts_with_space (lstrip s) = false.
Proof.
  unfold starts_with_space, lstrip.
  now rewrite (lstrip_by_done spaces (String.length s) s spaces_no_empty (le_n _)).
Qed.

Lemma rstrip_no_end s : ends_with_space (rstrip s) = false.
Proof.
  unfold ends_with_space, rstrip. rewrite string_rev_involutive.
  rewrite lstrip_by_done; [reflexivity | apply rev_spaces_no_empty | ].
  now rewrite string_rev_length.
Qed.

(** [rstrip] gives a start of the string. *)
Lemma rstrip_prefix s : exists t, s = (rstrip s ++ t)%string.
Proof.
  unfold rstrip.
  destruct (lstrip_by_split (map string_rev spaces) (String.length s) (string_rev s))
    as (u & _ & E).
  exists (string_rev u).
  rewrite <- string_rev_app, <- E. now rewrite string_rev_involutive.
Qed.

Lemma rstrip_keeps_start s : starts_with_space s = false -> starts_with_space (rstrip s) = false.
Proof.
  unfold starts_with_space. intros H.
  destruct (drop_any spaces (rstrip s)) as [r | ] eqn:E; [ | reflexivity].
  destruct (rstrip_prefix s) as [t Ht].
  destruct (drop_any_more spaces (rstrip s) r t E) as [r' E'].
  rewrite <- Ht in E'. now rewrite E' in H.
Qed.

Lemma lstrip_fixed s : starts_with_space s = false -> lstrip s = s.
Proof.
  unfold starts_with_space, lstrip. intros H. apply lstrip_by_fixed.
  now destruct (drop_any spaces s).
Qed.

Lemma rstrip_fixed s : ends_with_space s = false -> rstrip s = s.
Proof.
  unfold ends_with_space, rstrip. intros H.
  rewrite lstrip_by_fixed; [apply string_rev_involutive | ].
  now destruct (drop_any _ _).
Qed.

Lemma strip_fixed s :
  starts_with_space s = false -> ends_with_space s = false -> strip s = s.
Proof. intros Hs He. unfold strip. rewrite (lstrip_fixed s Hs). now apply rstrip_fixed. Qed.

Lemma strip_ends s :
  starts_with_space (strip s) = false /\ ends_with_space (strip s) = false.
Proof.
  unfold strip. split; [apply rstrip_keeps_start, lstrip_no_start | apply rstrip_no_end].
Qed.

Lemma strip_empty s : strip s = "" <-> all_space s.
Proof.
  unfold all_space. split.
  - intros E. unfold strip, rstrip in E. apply string_rev_empty in E.
    destruct (lstrip_by_split (map string_rev spaces) (String.length (lstrip s))
                (string_rev (lstrip s))) as (u & Hu & Eu).
    rewrite E, append_nil_r in Eu. rewrite <- Eu in Hu.
    apply made_of_rev in Hu. rewrite string_rev_involutive in Hu.
    unfold lstrip in Hu.
    destruct (lstrip_by_split spaces (String.length s) s) as (v & Hv & Ev).
    rewrite Ev. now apply made_of_app.
  - intros H. unfold strip.
    assert (El : lstrip s = "").
    { unfold lstrip. apply lstrip_by_made_of;
        [apply spaces_no_empty | apply spaces_prefix_code | exact H | apply le_n]. }
    rewrite El. reflexivity.
Qed.

End StripFacts.

(** **** X14.  The origin URL comes back trimmed.
    For a working copy named in text, [get_origin_url] asks for exactly
    one launch, the query for the origin.  When
    [subprocess.run] raises, the exception leaves the function unless it
    is a [FileNotFoundError] (or a [CalledProcessError]), which is
    logged and gives [None].  It gives a URL only when the query ended
    with return code 0, and the URL is then the output of the query
    without the white space (any character [str.isspace] holds of)
    around it: it neither starts nor ends with white space, and trimming
    it again changes nothing.  An output of white space alone gives the
    empty string, which the loop takes for a missing origin. *)
Theorem origin_url_is_trimmed :
  forall (repo git : string) (w : Populate.World),
    PopulateSpec.encodable repo = true ->
    let r := Populate.get_origin_url repo git w in
    let q := fst (PopulateSpec.next_exec w (PopulateSpec.cmd_get_url git repo)) in
    Populate.calls (snd r) = Populate.calls w ++ [PopulateSpec.cmd_get_url git repo]
    /\ (forall cls msg,
           q = Populate.LaunchError cls msg ->
           fst r = if String.eqb cls "CalledProcessError" || String.eqb cls "FileNotFoundError"
                   then Populate.Ret None
                   else Populate.Raise cls)
    /\ (forall rc out,
           q = Populate.Exited rc out ->
           fst r = Populate.Ret (if (rc =? 0)%Z then Some (Populate.strip out) else None))
    /\ (forall u,
           fst r = Populate.Ret (Some u) ->
           (exists out, q = Populate.Exited 0 out /\ u = Populate.strip out)
           /\ MoreSpec.starts_with_space u = false
           /\ MoreSpec.ends_with_space u = false
           /\ Populate.strip u = u)
    /\ (forall out,
           q = Populate.Exited 0 out ->
           (fst r = Populate.Ret (Some "") <-> MoreSpec.all_space out)).
Proof.
  intros repo git w _ r q.
  destruct (get_origin_url_spec repo git w) as (w1 & E & Hc & _).
  cbv zeta in E. fold r q in E. rewrite E. cbn [fst snd].
  split; [exact Hc | ].
  unfold PopulateSpec.escapes, PopulateSpec.origin_of, Populate.caught.
  repeat split.
  - intros cls msg ->. now destruct (_ || _).
  - intros rc out ->. reflexivity.
  - destruct q as [cls msg | rc out]; [destruct (_ || _); discriminate H | ].
    destruct (rc =? 0)%Z eqn:Erc; [ | discriminate H].
    apply Z.eqb_eq in Erc. subst rc. injection H as <-. now exists out.
  - destruct q as [cls msg | rc out]; [destruct (_ || _); discriminate H | ].
    destruct (rc =? 0)%Z; [ | discriminate H]. injection H as <-. apply strip_ends.
  - destruct q as [cls msg | rc out]; [destruct (_ || _); discriminate H | ].
    destruct (rc =? 0)%Z; [ | discriminate H]. injection H as <-. apply strip_ends.
  - destruct q as [cls msg | rc out]; [destruct (_ || _); discriminate H | ].
    destruct (rc =? 0)%Z; [ | discriminate H]. injection H as <-.
    destruct (strip_ends out). now apply strip_fixed.
  - subst q. rewrite H. cbn. intros [= E']. now apply strip_empty.
  - subst q. rewrite H. cbn. intros Ha. apply strip_empty in Ha. now rewrite Ha.
Qed.

Lemma origin_url_is_trimmed_witness :
  fst (Populate.get_origin_url Sample.app Sample.git Sample.w_fresh)
  = Populate.Ret (Some Sample.origin)
  /\ Populate.strip Sample.origin = Sample.origin
  /\ fst (Populate.get_origin_url Sample.app Sample.git SampleMore.w_no_permission)
     = Populate.Raise "PermissionError".
Proof.
  assert (Ha : PopulateSpec.encodable Sample.app = true) by (vm_compute; reflexivity).
  destruct (origin_url_is_trimmed Sample.app Sample.git Sample.w_fresh Ha)
    as (_ & _ & H3 & H4 & _).
  destruct (origin_url_is_trimmed Sample.app Sample.git SampleMore.w_no_permission Ha)
    as (_ & H2 & _).
  assert (E : fst (Populate.get_origin_url Sample.app Sample.git Sample.w_fresh)
              = Populate.Ret (Some Sample.origin)).
  { rewrite (H3 0%Z (Sample.origin ++ String "010" "")%string); vm_compute; reflexivity. }
  split; [exact E | split].
  - apply (H4 Sample.origin E).
  - rewrite (H2 "PermissionError" "[Errno 13] Permission denied"); vm_compute; reflexivity.
Defined.

Section KeyFacts.

Import Populate MoreSpec.
Local Open Scope string_scope.

Local Arguments String.eqb : simpl never.

Lemma compress_length h block :
  List.length (Sha256.compress h block) = Nat.min (List.length h) 8.
Proof. unfold Sha256.compress. now rewrite length_map, length_combine. Qed.

Lemma fold_compress_length blocks :
  forall h, List.length h = 8%nat ->
            List.length (fold_left Sha256.compress blocks h) = 8%nat.
Proof.
  induction blocks as [| b blocks IH]; intros h Hh; simpl; [exact Hh | ].
  apply IH. rewrite compress_length, Hh. reflexivity.
Qed.

Lemma flat_map_be_bytes_length h :
  List.length (flat_map (Sha256.be_bytes 4) h) = (4 * List.length h)%nat.
Proof.
  induction h as [| x h IH]; [reflexivity | ].
  cbn [flat_map]. rewrite length_app, IH. cbn [Sha256.be_bytes List.length]. lia.
Qed.

Lemma digest_length msg : List.length (Sha256.digest msg) = 32%nat.
Proof.
  unfold Sha256.digest. rewrite flat_map_be_bytes_length, fold_compress_length; reflexivity.
Qed.

Lemma hex_length bs : String.length (Sha256.hex bs) = (2 * List.length bs)%nat.
Proof. induction bs as [| b bs IH]; simpl; [reflexivity | rewrite IH; lia]. Qed.

Lemma hex_digit_is_hex d : is_hex (Sha256.hex_digit d) = true.
Proof.
  unfold Sha256.hex_digit. generalize (Z.to_nat d). intros n.
  do 16 (destruct n as [| n]; [reflexivity | ]). destruct n; reflexivity.
Qed.

Lemma hex_is_hex bs : forallb is_hex (list_ascii_of_string (Sha256.hex bs)) = true.
Proof.
  induction bs as [| b bs IH]; simpl; [reflexivity | ].
  now rewrite !hex_digit_is_hex, IH.
Qed.

Lemma is_hex_not_slash c : is_hex c = true -> Ascii.eqb c slash = false.
Proof.
  intros H. destruct (Ascii.eqb c slash) eqn:E; [ | reflexivity].
  apply Ascii.eqb_eq in E. subst c. discriminate H.
Qed.

Lemma hex_slash_free bs : DiscoverSpec.slash_free (Sha256.hex bs) = true.
Proof.
  unfold DiscoverSpec.slash_free.
  pose proof (hex_is_hex bs) as H. rewrite forallb_forall in *.
  intros c Hc. now rewrite is_hex_not_slash by now apply H.
Qed.

Lemma key_is_segment u : segment (Sha256.sha256_hexdigest u).
Proof.
  unfold segment, Sha256.sha256_hexdigest. repeat split.
  - intros E. apply (f_equal String.length) in E.
    rewrite hex_length, digest_length in E. discriminate E.
  - intros E. apply (f_equal String.length) in E.
    rewrite hex_length, digest_length in E. discriminate E.
  - apply hex_slash_free.
Qed.

(** *** Segments of a path *)

Lemma split_slash_not_nil s : split_slash s <> [].
Proof.
  destruct s as [| c s]; simpl; [discriminate | ].
  destruct (Ascii.eqb c slash); [discriminate | ].
  destruct (split_slash s); discriminate.
Qed.

Lemma split_slash_app a b :
  split_slash (a ++ String slash b) = (split_slash a ++ split_slash b)%list.
Proof.
  induction a as [| c a IH]; simpl.
  - reflexivity.
  - destruct (Ascii.eqb c slash); [now rewrite IH | ].
    rewrite IH. pose proof (split_slash_not_nil a) as Hn.
    destruct (split_slash a); [contradiction | reflexivity].
Qed.

Lemma split_slash_free s : DiscoverSpec.slash_free s = true -> split_slash s = [s].
Proof.
  induction s as [| c s IH]; [reflexivity | ].
  intros H. apply slash_free_cons in H. destruct H as [Hc Hs].
  simpl. rewrite Hc, (IH Hs). reflexivity.
Qed.

Lemma split_slash_elements s :
  Forall (fun seg => DiscoverSpec.slash_free seg = true) (split_slash s).
Proof.
  induction s as [| c s IH]; simpl; [repeat constructor | ].
  destruct (Ascii.eqb c slash) eqn:E; [constructor; [reflexivity | exact IH] | ].
  destruct (split_slash s) as [| seg rest]; [repeat constructor; now apply slash_free_cons | ].
  inversion IH as [| ? ? Hs Hr]; subst.
  constructor; [now apply slash_free_cons | exact Hr].
Qed.

Lemma path_parts_app a b :
  path_parts (a ++ String slash b) = (path_parts a ++ path_parts b)%list.
Proof. unfold path_parts. now rewrite split_slash_app, filter_app. Qed.

Lemma path_parts_segment n : segment n -> path_parts n = [n].
Proof.
  intros (H1 & H2 & H3). unfold path_parts. rewrite (split_slash_free n H3).
  cbn [filter]. apply String.eqb_neq in H1, H2. now rewrite H1, H2.
Qed.

Lemma path_parts_segments s : Forall segment (path_parts s).
Proof.
  unfold path_parts. apply Forall_forall. intros x Hx.
  apply filter_In in Hx. destruct Hx as [Hin Hk].
  apply andb_true_iff in Hk. destruct Hk as [H1 H2].
  apply negb_true_iff, String.eqb_neq in H1, H2.
  pose proof (split_slash_elements s) as Hall. rewrite Forall_forall in Hall.
  repeat split; try assumption. now apply Hall.
Qed.

Lemma path_parts_concat ps :
  Forall segment ps -> path_parts (String.concat "/" ps) = ps.
Proof.
  induction ps as [| x ps IH]; intros H; [reflexivity | ].
  inversion H as [| ? ? Hx Hps]; subst.
  destruct ps as [| y ps].
  - simpl. now apply path_parts_segment.
  - change (String.concat "/" (x :: y :: ps))
      with (x ++ String slash (String.concat "/" (y :: ps))).
    rewrite path_parts_app, (path_parts_segment x Hx), (IH Hps). reflexivity.
Qed.

Lemma path_root_cases s : path_root s = "" \/ path_root s = "/" \/ path_root s = "//".
Proof.
  destruct s as [| a [| b [| c s]]]; simpl; auto;
    repeat match goal with
           | |- context [if ?x then _ else _] => destruct x
           end; auto.
Qed.

Lemma path_parts_rooted r s :
  r = "" \/ r = "/" \/ r = "//" -> path_parts (r ++ s) = path_parts s.
Proof.
  intros [-> | [-> | ->]]; [reflexivity | | ].
  - change ("/" ++ s) with ("" ++ String slash s). now rewrite path_parts_app.
  - change ("//" ++ s) with ("" ++ String slash ("" ++ String slash s)).
    now rewrite !path_parts_app.
Qed.

(** Putting a path in normal form keeps its segments. *)
Lemma path_parts_Path s : path_parts (Path s) = path_parts s.
Proof.
  unfold Path.
  pose proof (path_parts_segments s) as Hs.
  destruct (path_root_cases s) as [E | E].
  - rewrite E. destruct (path_parts s) as [| x ps] eqn:Ep; [reflexivity | ].
    cbn [append]. now apply path_parts_concat.
  - assert (Er : path_root s ++ String.concat "/" (path_parts s)
                 = match path_root s with
                   | "" => match path_parts s with
                           | [] => "."
                           | _ :: _ => path_root s ++ String.concat "/" (path_parts s)
                           end
                   | String _ _ => path_root s ++ String.concat "/" (path_parts s)
                   end)
      by (destruct E as [-> | ->]; reflexivity).
    unfold Path in *.
    destruct E as [E | E]; rewrite E; cbn [append].
    + change (String "/" (String.concat "/" (path_parts s)))
        with ("/" ++ String.concat "/" (path_parts s)).
      rewrite path_parts_rooted by auto. now apply path_parts_concat.
    + change (String "/" (String "/" (String.concat "/" (path_parts s))))
        with ("//" ++ String.concat "/" (path_parts s)).
      rewrite path_parts_rooted by auto. now apply path_parts_concat.
Qed.

Lemma ends_with_slash_split p :
  ends_with_slash p = true -> exists p', p = p' ++ String slash "".
Proof.
  induction p as [| c p IH]; [discriminate | ].
  simpl. destruct p as [| d p].
  - intros E. apply Ascii.eqb_eq in E. subst c. now exists "".
  - intros E. destruct (IH E) as [p' Ep]. exists (String c p'). simpl. now rewrite <- Ep.
Qed.

(** Joining a segment to a path adds it to the segments of the path. *)
Lemma path_parts_joinpath p n :
  segment n -> path_parts (joinpath p n) = (path_parts p ++ [n])%list.
Proof.
  intros Hn. unfold joinpath.
  destruct Hn as (H1 & H2 & H3).
  rewrite (slash_free_no_start n H3).
  destruct (ends_with_slash p) eqn:E.
  - destruct (ends_with_slash_split p E) as [p' ->].
    rewrite path_parts_Path, append_assoc. cbn [append].
    rewrite !path_parts_app. rewrite (path_parts_segment n) by (repeat split; assumption).
    change (path_parts "") with (@nil string). now rewrite app_nil_r.
  - rewrite path_parts_Path. cbn [append]. rewrite path_parts_app.
    now rewrite (path_parts_segment n) by (repeat split; assumption).
Qed.

Lemma path_name_joinpath p n : segment n -> path_name (joinpath p n) = n.
Proof.
  intros Hn. unfold path_name. rewrite (path_parts_joinpath p n Hn). apply last_last.
Qed.

Lemma joinpath_differs p n : segment n -> joinpath p n <> p.
Proof.
  intros Hn E. apply (f_equal path_parts) in E.
  rewrite (path_parts_joinpath p n Hn) in E.
  apply (f_equal (@List.length string)) in E. rewrite length_app in E. simpl in E. lia.
Qed.

End KeyFacts.

(** **** X15.  The cache key names the mirror.
    The cache key of a URL is 64 lower-case hexadecimal digits.  Joined
    to any cache root it is therefore the last segment of the path of
    the mirror, so the name of the mirror, which is what
    [populate_cache] writes in the index, is the key itself; and the
    path of the mirror is never the cache root. *)
Theorem cache_key_names_the_mirror :
  forall (cache url : string),
    let key := Sha256.sha256_hexdigest url in
    String.length key = 64%nat
    /\ forallb MoreSpec.is_hex (list_ascii_of_string key) = true
    /\ Populate.path_name (Populate.joinpath cache key) = key
    /\ Populate.joinpath cache key <> cache.
Proof.
  intros cache url key. unfold key. repeat split.
  - unfold Sha256.sha256_hexdigest. now rewrite hex_length, digest_length.
  - apply hex_is_hex.
  - apply path_name_joinpath, key_is_segment.
  - apply joinpath_differs, key_is_segment.
Qed.
Section ParentFacts.

Import Populate MoreSpec.

Lemma segment_head n :
  segment n -> exists c t, n = String c t /\ Ascii.eqb c slash = false.
Proof.
  intros (H1 & _ & H3). destruct n as [| c t]; [contradiction | ].
  apply slash_free_cons in H3. exists c, t. now split.
Qed.

Lemma concat_head ps :
  Forall segment ps ->
  ps = [] \/ exists c t, String.concat "/" ps = String c t /\ Ascii.eqb c slash = false.
Proof.
  intros H. destruct ps as [| x ps]; [now left | right].
  inversion H as [| ? ? Hx _]; subst.
  destruct (segment_head x Hx) as (c & t & -> & Hc).
  destruct ps; simpl; eexists; eexists; split; try reflexivity; exact Hc.
Qed.

Lemma path_root_head c t : Ascii.eqb c slash = false -> path_root (String c t) = "".
Proof. intros H. destruct t as [| b [| d t]]; simpl; now rewrite H. Qed.

Lemma path_root_slash_head c t :
  Ascii.eqb c slash = false -> path_root (String slash (String c t)) = "/".
Proof. intros H. destruct t; simpl; now rewrite H. Qed.

Lemma path_root_slash2_head c t :
  Ascii.eqb c slash = false -> path_root (String slash (String slash (String c t))) = "//".
Proof. intros H. simpl. now rewrite H. Qed.

(** What [str(Path(x))] looks like, with the root it has. *)
Lemma Path_shape x :
  (Path x = "." /\ path_root x = "" /\ path_parts x = [])
  \/ (Path x = "/" /\ path_root x = "/" /\ path_parts x = [])
  \/ (Path x = "//" /\ path_root x = "//" /\ path_parts x = [])
  \/ (exists c t, Ascii.eqb c slash = false
                  /\ ((Path x = String c t /\ path_root x = "")
                      \/ (Path x = String slash (String c t) /\ path_root x = "/")
                      \/ (Path x = String slash (String slash (String c t))
                          /\ path_root x = "//"))).
Proof.
  unfold Path.
  destruct (concat_head (path_parts x) (path_parts_segments x)) as [E | (c & t & E & Hc)].
  - rewrite E. destruct (path_root_cases x) as [R | [R | R]]; rewrite R.
    + left. repeat split.
    + right. left. repeat split.
    + right. right. left. repeat split.
  - destruct (path_parts x) as [| y ps] eqn:Ep; [discriminate E | ].
    right. right. right. exists c, t. split; [exact Hc | ].
    destruct (path_root_cases x) as [R | [R | R]]; rewrite R, E; cbn [append].
    + left. now split.
    + right. left. now split.
    + right. right. now split.
Qed.

Lemma path_root_Path x : path_root (Path x) = path_root x.
Proof.
  destruct (Path_shape x) as [(-> & R & _) | [(-> & R & _) | [(-> & R & _)
           | (c & t & Hc & [[-> R] | [[-> R] | [-> R]]])]]]; rewrite R.
  1-3: reflexivity.
  - now apply path_root_head.
  - now apply path_root_slash_head.
  - now apply path_root_slash2_head.
Qed.

Lemma Path_Path x : Path (Path x) = Path x.
Proof. unfold Path at 1 3. now rewrite path_root_Path, path_parts_Path. Qed.

Lemma path_root_joinpath x n :
  segment n -> path_root (joinpath (Path x) n) = path_root (Path x).
Proof.
  intros Hn. destruct (segment_head n Hn) as (d & u & -> & Hd).
  unfold joinpath. cbn [starts_with_slash]. rewrite Hd.
  rewrite (path_root_Path x).
  destruct (Path_shape x) as [(-> & R & _) | [(-> & R & _) | [(-> & R & _)
           | (c & t & Hc & [[-> R] | [[-> R] | [-> R]]])]]]; rewrite R.
  - change (ends_with_slash ".") with false. cbv iota. cbn [append].
    rewrite path_root_Path. now apply path_root_head.
  - change (ends_with_slash "/") with true. cbv iota. cbn [append].
    rewrite path_root_Path. now apply path_root_slash_head.
  - change (ends_with_slash "//") with true. cbv iota. cbn [append].
    rewrite path_root_Path. now apply path_root_slash2_head.
  - destruct (ends_with_slash (String c t)); rewrite path_root_Path; cbn [append];
      now apply path_root_head.
  - destruct (ends_with_slash (String slash (String c t))); rewrite path_root_Path;
      cbn [append]; now apply path_root_slash_head.
  - destruct (ends_with_slash (String slash (String slash (String c t))));
      rewrite path_root_Path; cbn [append]; now apply path_root_slash2_head.
Qed.

(** The directory of a file in [Path x] is [Path x]. *)
Lemma parent_joinpath x n : segment n -> parent (joinpath (Path x) n) = Path x.
Proof.
  intros Hn. unfold parent.
  rewrite (path_parts_joinpath (Path x) n Hn), (path_root_joinpath x n Hn).
  destruct (path_parts (Path x) ++ [n])%list as [| y ys] eqn:E;
    [now destruct (path_parts (Path x)) | ].
  rewrite <- E, removelast_last.
  change (Path (Path x) = Path x). apply Path_Path.
Qed.

End ParentFacts.

Section SetupFacts.

Import Populate PopulateSpec MoreSpec.
Local Open Scope py_scope.

Local Arguments String.eqb : simpl never.

Lemma log_name_is_segment : segment "populate_git_clone_cache.log".
Proof. repeat split; discriminate. Qed.


Lemma bind_setup {C : Type} (m n : M unit) (k : M C) w w1 :
  (m ;; n) w = (Ret tt, w1) -> (m ;; n ;; k) w = k w1.
Proof.
  unfold bind. destruct (m w) as [[[] | e | c] wa]; try discriminate.
  destruct (n wa) as [[[] | e | c] wb]; try discriminate.
  now intros [= ->].
Qed.

(** The log of a run lies in the cache root [main] settles on. *)
Lemma log_in_cache_dir w :
  parent (joinpath (cache_dir_of w) "populate_git_clone_cache.log") = cache_dir_of w.
Proof. unfold cache_dir_of. apply parent_joinpath, log_name_is_segment. Qed.

End SetupFacts.



(** **** X17.  A reference reported cached is in the index.
    [populate_cache] reports success only when it is called without a
    log file.  When it does, and the index file could be written and is
    no directory afterwards, the index holds the name of the mirror
    under the URL, whether the mirror was cloned or fetched. *)
Theorem successful_populate_is_indexed :
  forall (url mirror git src cache : string) (lf : bool) (w w' : Populate.World),
    Populate.populate_cache url mirror git src cache lf w = (Populate.Ret true, w') ->
    lf = false
    /\ (Populate.write_denied w (PopulateSpec.index_path cache) = false ->
        Populate.dump_fails w (PopulateSpec.index_path cache) = false ->
        Populate.fs w' (PopulateSpec.index_path cache) <> Some Populate.Directory ->
        PopulateSpec.index_entry w' cache url
        = Some (Populate.PStr (Populate.path_name mirror))).
Proof.
  intros url mirror git src cache lf w w' E.
  assert (Hlf : lf = false).
  { destruct lf; [ | reflexivity].
    destruct (populate_cache_with_log url mirror git src cache w) as [_ H].
    rewrite E in H. now contradiction H. }
  split; [exact Hlf | ]. intros Hw Hdump Hd.
  assert (H : exists w2,
             Populate.write_denied w2 = Populate.write_denied w
             /\ Populate.dump_fails w2 = Populate.dump_fails w
             /\ Populate.update_directory_json cache url (Populate.path_name mirror) lf w2
                = (Populate.Ret tt, w')).
  { destruct (Populate.fs w mirror) as [[| c0 |] | ] eqn:Em.
    3: { rewrite (populate_cache_no_stat url mirror git src cache lf w Em) in E.
         discriminate E. }
    3: { pose proof (populate_cache_absent url mirror git src cache lf w Em) as H.
         destruct (PopulateSpec.exit_ok _).
         - destruct H as (w2 & _ & _ & Hwd & Hdd & _ & E2). exists w2.
           split; [exact Hwd | split; [exact Hdd | ]].
           rewrite E in E2.
           destruct (Populate.update_directory_json cache url (Populate.path_name mirror) lf w2)
             as [[[] | e | c] w3]; try discriminate E2.
           now injection E2 as ->.
         - destruct H as (H & _). rewrite E in H. discriminate H. }
    all: destruct (populate_cache_present url mirror git src cache lf w)
      as (w2 & _ & _ & Hwd & Hdd & _ & E2); try congruence.
    all: exists w2; split; [exact Hwd | split; [exact Hdd | ]].
    all: rewrite E in E2.
    all: destruct (Populate.update_directory_json cache url (Populate.path_name mirror) lf w2)
      as [[[] | e | c] w3]; try discriminate E2.
    all: destruct (PopulateSpec.exit_ok _); [ | discriminate E2].
    all: now injection E2 as ->. }
  destruct H as (w2 & Hwd & Hdd & Eu).
  pose proof (update_directory_json_cases cache url (Populate.path_name mirror) lf w2) as Hc.
  cbv zeta in Hc. rewrite Eu in Hc. cbn [fst snd] in Hc.
  destruct Hc as [[_ Hx] | [[_ Hx] | [(_ & Hdf & Hx) | [(_ & _ & Hfail & _ & Hfs & _)
                 | [(_ & _ & _ & _ & Hdf & _) | (_ & _ & _ & _ & _ & _ & Hfs)]]]]].
  - discriminate Hx.
  - discriminate Hx.
  - injection Hx as <-. rewrite index_entry_start_mapping. now apply differs_false.
  - exfalso. destruct Hfail as [Hdir | Hden].
    + apply Hd. now rewrite Hfs.
    + rewrite Hwd in Hden. congruence.
  - rewrite Hdd in Hdf. congruence.
  - assert (Hnd : NoDup (Populate.keys
                           (Populate.dict_set (PopulateSpec.start_mapping w2 cache) url
                              (Populate.PStr (Populate.path_name mirror)))))
      by (apply NoDup_keys_dict_set, NoDup_keys_start_mapping).
    rewrite (proj2 (index_entry_after_write w2 w' cache _ url Hnd Hfs)).
    apply dict_get_set_same.
Qed.

Lemma successful_populate_is_indexed_witness :
  PopulateSpec.index_entry
    (snd (Populate.populate_cache Sample.origin Sample.mirror Sample.git Sample.app
            Sample.cache false Sample.w_fresh))
    Sample.cache Sample.origin
  = Some (Populate.PStr Sample.key).
Proof.
  assert (E : Populate.path_name Sample.mirror = Sample.key) by (vm_compute; reflexivity).
  rewrite <- E.
  apply (successful_populate_is_indexed Sample.origin Sample.mirror Sample.git Sample.app
           Sample.cache false Sample.w_fresh).
  - vm_compute. reflexivity.
  - vm_compute. reflexivity.
  - vm_compute. reflexivity.
  - vm_compute. discriminate.
Defined.

Section FreshFacts.

Import Populate PopulateSpec MoreSpec.
Local Open Scope py_scope.

Local Arguments String.eqb : simpl never.

(** On a fresh machine the set-up makes the cache root and the log. *)
Lemma setup_fresh cache w :
  parent (joinpath cache "populate_git_clone_cache.log") = cache ->
  fs w cache = None ->
  fs w (parent cache) = Some Directory ->
  write_denied w cache = false ->
  fs w (joinpath cache "populate_git_clone_cache.log") = None ->
  write_denied w (joinpath cache "populate_git_clone_cache.log") = false ->
  (mkdir_p cache ;; get_log_file cache) w
  = (Ret tt,
     set_fs (fs_put (joinpath cache "populate_git_clone_cache.log") (RegularFile Unparsable)
               (fs_put cache Directory (fs w))) w).
Proof.
  intros Hlog Hc Hp Hwc Hl Hwl.
  assert (Hne : String.eqb (joinpath cache "populate_git_clone_cache.log") cache = false)
    by (apply String.eqb_neq, joinpath_differs, log_name_is_segment).
  unfold bind at 1. rewrite (mkdir_p_fresh cache w Hc Hp Hwc).
  set (w1 := set_fs _ w).
  assert (E1 : fs w1 cache = Some Directory)
    by (unfold w1, fs_put; cbn [fs set_fs]; now rewrite String.eqb_refl).
  assert (E2 : fs w1 (joinpath cache "populate_git_clone_cache.log") = None)
    by (unfold w1, fs_put; cbn [fs set_fs]; now rewrite Hne).
  unfold get_log_file. unfold bind at 1. rewrite Hlog, (mkdir_p_in_place cache w1 E1).
  unfold open_append. rewrite E2.
  change (write_denied w1) with (write_denied w). rewrite Hwl. reflexivity.
Qed.

End FreshFacts.

(** **** X18.  The cache root and the log are made before the arguments are looked at.
    With a usable git, on a machine where neither the cache root nor the
    log exists and both may be created, a run without arguments still
    ends with status 1, but it leaves the cache root as a directory and
    the log as a file in it; when the directory above the cache root
    is there already, every other path is as it was. *)
Theorem usage_error_still_makes_cache_root :
  forall (prog g : string) (w : Populate.World),
    MoreSpec.usable_git w g ->
    Populate.fs w (MoreSpec.cache_dir_of w) = None ->
    Populate.fs w (Populate.parent (MoreSpec.cache_dir_of w)) = Some Populate.Directory ->
    Populate.write_denied w (MoreSpec.cache_dir_of w) = false ->
    Populate.fs w (MoreSpec.log_path_of w) = None ->
    Populate.write_denied w (MoreSpec.log_path_of w) = false ->
    let r := Populate.run prog [] w in
    fst r = 1%Z
    /\ Populate.fs (snd r) (MoreSpec.cache_dir_of w) = Some Populate.Directory
    /\ (exists c, Populate.fs (snd r) (MoreSpec.log_path_of w) = Some (Populate.RegularFile c))
    /\ (forall q, q <> MoreSpec.cache_dir_of w -> q <> MoreSpec.log_path_of w ->
                  Populate.fs (snd r) q = Populate.fs w q).
Proof.
  intros prog g w Hg Hc Hp Hwc Hl Hwl r. unfold r, Populate.run.
  rewrite (main_usable_git prog [] w g Hg).
  set (w0 := Populate.add_output _ w).
  rewrite (bind_setup _ _ _ w0 _
             (setup_fresh (MoreSpec.cache_dir_of w) w0 (log_in_cache_dir w) Hc Hp Hwc Hl Hwl)).
  cbn [fst snd Populate.bind Populate.error Populate.emit Populate.modify Populate.log_write
         Populate.sys_exit Populate.exit_code Populate.fs Populate.add_output Populate.set_fs].
  assert (Hne : String.eqb (MoreSpec.cache_dir_of w) (MoreSpec.log_path_of w) = false).
  { rewrite String.eqb_sym. apply String.eqb_neq, joinpath_differs, log_name_is_segment. }
  unfold MoreSpec.log_path_of in *. unfold Populate.fs_put.
  repeat split.
  - now rewrite Hne, String.eqb_refl.
  - rewrite String.eqb_refl. eexists. reflexivity.
  - intros q H1 H2. apply String.eqb_neq in H1, H2. now rewrite H2, H1.
Qed.

Lemma usage_error_still_makes_cache_root_witness :
  Populate.fs (snd (Populate.run "populate_git_clone_cache.py" [] SampleMore.w_bare))
    Sample.cache
  = Some Populate.Directory.
Proof.
  refine (proj1 (proj2 (usage_error_still_makes_cache_root "populate_git_clone_cache.py"
                          Sample.git SampleMore.w_bare _ _ _ _ _ _))).
  - split; vm_compute; reflexivity.
  - vm_compute. reflexivity.
  - vm_compute. reflexivity.
  - vm_compute. reflexivity.
  - vm_compute. reflexivity.
  - vm_compute. reflexivity.
Defined.
